(** * Sorting animations: the sort procedures of [sorting.h] and the run
      session of [sorting_animator.cpp]

    The sort procedures are C++ templates over the element type [T] and a
    comparator [cmp_fn<T>].  A [std::vector<T>] is a [list T]; [v[i]] is
    the total lookup [v !!! i] and [v[i] = x] is [<[i:=x]> v].  Indices
    are [size_t]; every index the procedures compute stays within
    [0 .. v.size()], so they are modelled in [nat].

    Every procedure also threads the number of comparator calls made so
    far, because the animator redraws the window inside each call.

    A comparator is a pure function of the two elements: what the
    animator's comparator does besides (it sets the [timer] of both
    elements to 5 and redraws the window, which steps the timers of
    every dataset on display down) takes no part in the order.  During
    a run the timers are therefore not tracked: a dataset of the model
    after a run carries the values of the program's dataset, and what
    is stated of such a dataset is stated of its values.  Starting a
    [std::thread] is taken to succeed. *)

From stdpp Require Import base list sorting strings relations.
From Stdlib Require Import ZArith Lia Ascii.
From Stdlib Require DecimalString DecimalN DecimalFacts.

#[local] Arguments Nat.div : simpl never.
#[local] Arguments Nat.modulo : simpl never.

Module Sorts.

Section algorithms.
Context {T : Type} `{!Inhabited T}.

(** The comparator handed to the sort, [cmp_fn<T>]. *)
Variable cmp : T → T → bool.

(** [T temp = v[i]; v[i] = v[j]; v[j] = temp;] *)
Definition swap (i j : nat) (v : list T) : list T :=
  let temp := v !!! i in
  <[j := temp]> (<[i := v !!! j]> v).

(** ** Selection sort *)

(** Inner loop [for (j = i + 1; j < v.size(); j++)], [n] iterations
    left. *)
Fixpoint selection_scan (n : nat) (v : list T) (j smallest c : nat)
    : nat * nat :=
  match n with
  | 0 => (smallest, c)
  | S n' =>
      let smallest' :=
        if cmp (v !!! j) (v !!! smallest) then j else smallest in
      selection_scan n' v (S j) smallest' (S c)
  end.

(** Outer loop [for (i = 0; i < v.size(); i++)], [n] iterations left. *)
Fixpoint selection_pass (n i : nat) (v : list T) (c : nat)
    : list T * nat :=
  match n with
  | 0 => (v, c)
  | S n' =>
      let '(smallest, c') :=
        selection_scan (length v - (i + 1)) v (i + 1) i c in
      selection_pass n' (S i) (swap i smallest v) c'
  end.

Definition selection_sort (v : list T) : list T * nat :=
  selection_pass (length v) 0 v 0.

(** ** Insertion sort *)

(** [while (j < i && cmp(v[j], v[i])) j++;] *)
Fixpoint insertion_find (fuel : nat) (v : list T) (i j c : nat)
    : nat * nat :=
  match fuel with
  | 0 => (j, c)
  | S f =>
      if j <? i then
        if cmp (v !!! j) (v !!! i)
        then insertion_find f v i (S j) (S c)
        else (j, S c)
      else (j, c)
  end.

(** [while (j < i) { temp = v[j]; v[j] = v[i]; v[i] = temp; j++; }] *)
Fixpoint insertion_shift (fuel : nat) (v : list T) (i j : nat) : list T :=
  match fuel with
  | 0 => v
  | S f => if j <? i then insertion_shift f (swap j i v) i (S j) else v
  end.

(** Outer loop [for (i = 1; i < v.size(); i++)], [n] iterations left. *)
Fixpoint insertion_pass (n i : nat) (v : list T) (c : nat)
    : list T * nat :=
  match n with
  | 0 => (v, c)
  | S n' =>
      if cmp (v !!! i) (v !!! (i - 1)) then
        let '(j, c') := insertion_find i v i 0 (S c) in
        insertion_pass n' (S i) (insertion_shift (i - j) v i j) c'
      else insertion_pass n' (S i) v (S c)
  end.

Definition insertion_sort (v : list T) : list T * nat :=
  insertion_pass (length v - 1) 1 v 0.

(** ** Bubble sort *)

(** Inner loop [for (j = 0; j < v.size() - i - 1; j++)]. *)
Fixpoint bubble_inner (n j : nat) (v : list T) (c : nat) : list T * nat :=
  match n with
  | 0 => (v, c)
  | S n' =>
      if cmp (v !!! (j + 1)) (v !!! j)
      then bubble_inner n' (S j) (swap j (j + 1) v) (S c)
      else bubble_inner n' (S j) v (S c)
  end.

Fixpoint bubble_outer (n i : nat) (v : list T) (c : nat) : list T * nat :=
  match n with
  | 0 => (v, c)
  | S n' =>
      let '(v', c') := bubble_inner (length v - i - 1) 0 v c in
      bubble_outer n' (S i) v' c'
  end.

Definition bubble_sort (v : list T) : list T * nat :=
  if length v <=? 1 then (v, 0) else bubble_outer (length v) 0 v 0.

(** ** Merge sort *)

(** [while (i1 < mid || i2 < hi)], pushing onto the buffer [u]. *)
Fixpoint merge_loop (fuel : nat) (v : list T) (mid hi i1 i2 : nat)
    (u : list T) (c : nat) : list T * nat :=
  match fuel with
  | 0 => (u, c)
  | S f =>
      if (i1 <? mid) || (i2 <? hi) then
        if i1 =? mid then
          merge_loop f v mid hi i1 (S i2) (u ++ [v !!! i2]) c
        else if i2 =? hi then
          merge_loop f v mid hi (S i1) i2 (u ++ [v !!! i1]) c
        else if cmp (v !!! i1) (v !!! i2) then
          merge_loop f v mid hi (S i1) i2 (u ++ [v !!! i1]) (S c)
        else
          merge_loop f v mid hi i1 (S i2) (u ++ [v !!! i2]) (S c)
      else (u, c)
  end.

(** [std::copy(u.begin(), u.end(), v.begin() + lo)] is
    [list_inserts lo u v]. *)
Definition merge (v : list T) (lo hi c : nat) : list T * nat :=
  let mid := lo + (hi - lo) / 2 in
  let '(u, c') := merge_loop (hi - lo) v mid hi lo mid [] c in
  (list_inserts lo u v, c').

(** The recursive helpers take fuel for the recursion depth and answer
    [None] when it runs out. *)
Fixpoint merge_sort_helper (fuel : nat) (v : list T) (lo hi c : nat)
    : option (list T * nat) :=
  match fuel with
  | 0 => None
  | S f =>
      if hi - lo <=? 1 then Some (v, c) else
      let mid := lo + (hi - lo) / 2 in
      '(v1, c1) ← merge_sort_helper f v lo mid c;
      '(v2, c2) ← merge_sort_helper f v1 mid hi c1;
      Some (merge v2 lo hi c2)
  end.

Definition merge_sort (v : list T) : option (list T * nat) :=
  merge_sort_helper (S (length v)) v 0 (length v) 0.

(** ** Parallel merge sort

    [head] and [tail] are joined before [merge]; they work on the
    disjoint ranges [lo, mid) and [mid, hi) of the same vector, so the
    joined state is the one reached by running them one after the
    other. *)
Fixpoint pmerge_sort_helper (fuel : nat) (v : list T) (lo hi c : nat)
    : option (list T * nat) :=
  match fuel with
  | 0 => None
  | S f =>
      if hi - lo <=? 1 then Some (v, c) else
      let mid := lo + (hi - lo) / 2 in
      '(v1, c1) ← pmerge_sort_helper f v lo mid c;
      '(v2, c2) ← pmerge_sort_helper f v1 mid hi c1;
      Some (merge v2 lo hi c2)
  end.

Definition pmerge_sort (v : list T) : option (list T * nat) :=
  pmerge_sort_helper (S (length v)) v 0 (length v) 0.

(** ** Quick sort *)

(** The scan [for (i = lo; i < hi; i++)] of [partition], [n] iterations
    left, filling the buffers [u1] and [u2]. *)
Fixpoint partition_scan (n : nat) (v : list T) (vp : T) (p i : nat)
    (u1 u2 : list T) (c : nat) : list T * list T * nat :=
  match n with
  | 0 => (u1, u2, c)
  | S n' =>
      if i =? p then partition_scan n' v vp p (S i) u1 u2 c
      else if cmp (v !!! i) vp
      then partition_scan n' v vp p (S i) (u1 ++ [v !!! i]) u2 (S c)
      else partition_scan n' v vp p (S i) u1 (u2 ++ [v !!! i]) (S c)
  end.

(** The two buffers [partition] builds. *)
Definition partition_buffers (v : list T) (lo hi p : nat)
    : list T * list T :=
  fst (partition_scan (hi - lo) v (v !!! p) p lo [] [] 0).

(** [partition] answers the new vector, [u1.size()] and the counter. *)
Definition partition (v : list T) (lo hi p c : nat)
    : list T * nat * nat :=
  let vp := v !!! p in
  let '(u1, u2, c') := partition_scan (hi - lo) v vp p lo [] [] c in
  let v1 := list_inserts lo u1 v in
  let v2 := <[lo + length u1 := vp]> v1 in
  let v3 := list_inserts (lo + length u1 + 1) u2 v2 in
  (v3, length u1, c').

Fixpoint quick_sort_helper (fuel : nat) (v : list T) (lo hi c : nat)
    : option (list T * nat) :=
  match fuel with
  | 0 => None
  | S f =>
      if hi - lo <=? 1 then Some (v, c) else
      let '(v1, p, c1) := partition v lo hi (lo + (hi - lo) / 2) c in
      '(v2, c2) ← quick_sort_helper f v1 lo (lo + p) c1;
      quick_sort_helper f v2 (lo + p + 1) hi c2
  end.

Definition quick_sort (v : list T) : option (list T * nat) :=
  quick_sort_helper (S (length v)) v 0 (length v) 0.

(** ** Parallel quick sort: the two threads work on the disjoint ranges
    [lo, lo + p) and [lo + p + 1, hi) and are joined before returning. *)
Fixpoint pquick_sort_helper (fuel : nat) (v : list T) (lo hi c : nat)
    : option (list T * nat) :=
  match fuel with
  | 0 => None
  | S f =>
      if hi - lo <=? 1 then Some (v, c) else
      let '(v1, p, c1) := partition v lo hi (lo + (hi - lo) / 2) c in
      '(v2, c2) ← pquick_sort_helper f v1 lo (lo + p) c1;
      pquick_sort_helper f v2 (lo + p + 1) hi c2
  end.

Definition pquick_sort (v : list T) : option (list T * nat) :=
  pquick_sort_helper (S (length v)) v 0 (length v) 0.

(** ** Randomized parallel quick sort

    The threads call [rand()] in an order the scheduler decides, so the
    random source is an oracle: [rnd lo hi] is the number [rand()]
    returns to the call on the range [lo, hi) (every call that reaches
    [rand()] has a range of its own). *)
Variable rnd : nat → nat → nat.

Fixpoint rpquick_sort_helper (fuel : nat) (v : list T) (lo hi c : nat)
    : option (list T * nat) :=
  match fuel with
  | 0 => None
  | S f =>
      if hi - lo <=? 1 then Some (v, c) else
      let '(v1, p, c1) :=
        partition v lo hi (rnd lo hi `mod` (hi - lo) + lo) c in
      '(v2, c2) ← rpquick_sort_helper f v1 lo (lo + p) c1;
      rpquick_sort_helper f v2 (lo + p + 1) hi c2
  end.

Definition rpquick_sort (v : list T) : option (list T * nat) :=
  rpquick_sort_helper (S (length v)) v 0 (length v) 0.

(** ** std::sort

    [std::sort] is the C++ library's, not this repository's:
    [lib_sort] stands for it.  It answers the vector it leaves and the
    pairs it handed to the comparator, or [None] where the library
    promises nothing (undefined behaviour). *)
Variable lib_sort : (T → T → bool) → list T → option (list T * list (T * T)).

Definition std_sort (v : list T) : option (list T * nat) :=
  '(v', calls) ← lib_sort cmp v;
  Some (v', length calls).

End algorithms.

End Sorts.

(** * The animator of [sorting_animator.h] and [sorting_animator.cpp]

    Only the fields of [SortingAnimator] that the run session uses are
    kept; the window, fonts and layout are left out. *)

Module Animator.

Inductive Mode := START | HELP | CONFIG | SORTING | SORTED.

(** [struct SortingDatum { int value; int timer; }].  [sort_n] comes from
    [std::stoi], so the values [1 .. sort_n] fit an [int]. *)
Record SortingDatum := mkDatum { value : Z; timer : Z }.

(** [SortingDatum(int v) : value(v), timer(0)] *)
Definition datum (v : Z) : SortingDatum := {| value := v; timer := 0 |}.

(** [SortingDatum() : value(0), timer(0)] *)
#[global] Instance SortingDatum_inhabited : Inhabited SortingDatum :=
  populate {| value := 0; timer := 0 |}.

Definition cmp_fn : Type := SortingDatum → SortingDatum → bool.

(** [sort_fn<SortingDatum>]: what a registered procedure makes of the
    vector it is given, with its number of comparator calls; [None] when
    it does not return. *)
Definition sort_fn : Type :=
  cmp_fn → list SortingDatum → option (list SortingDatum * nat).

Record SortingAlgo := mkAlgo {
  name : string;
  selected : bool;
  sort : sort_fn
}.

(** [SortingAlgo() : name(""), selected(false), sort(NULL)]; calling an
    empty [std::function] does not return. *)
#[global] Instance SortingAlgo_inhabited : Inhabited SortingAlgo :=
  populate {| name := ""; selected := false; sort := λ _ _, None |}.

(** A [std::thread] handle: default-constructed, or joined after having
    run a sort. *)
Inductive thread := no_thread | joined.

#[global] Instance thread_inhabited : Inhabited thread := populate no_thread.

Record state := mkState {
  mode : Mode;
  sort_algos : list SortingAlgo;
  sort_n : nat;
  sort_data : list (list SortingDatum);
  sort_queue : list nat;
  sort_threads : list thread
}.

Definition set_mode (m : Mode) (st : state) : state :=
  {| mode := m; sort_algos := sort_algos st; sort_n := sort_n st;
     sort_data := sort_data st; sort_queue := sort_queue st;
     sort_threads := sort_threads st |}.

Definition set_data (d : list (list SortingDatum)) (st : state) : state :=
  {| mode := mode st; sort_algos := sort_algos st; sort_n := sort_n st;
     sort_data := d; sort_queue := sort_queue st;
     sort_threads := sort_threads st |}.

(** [sort_cmp], as the sorts see it: what it answers,
    [x.value <= y.value].  Before answering it sets [x.timer] and
    [y.timer] to 5 and calls [sort_draw_data()], which draws, and steps
    the timers of, every dataset a thread sorts, not only the caller's;
    these writes to the timers are left out here. *)
Definition sort_cmp : cmp_fn := λ x y, (value x <=? value y)%Z.

(** ** [sort_setup] *)

(** [for (i = 0; i < sort_algos.size(); i++) if (sort_algos[i].selected)
    { sort_queue.push_back(i); sort_threads.push_back(std::thread()); }] *)
Fixpoint enqueue_selected (algos : list SortingAlgo) (i : nat)
    (queue : list nat) (threads : list thread) : list nat * list thread :=
  match algos with
  | [] => (queue, threads)
  | a :: rest =>
      if selected a
      then enqueue_selected rest (S i) (queue ++ [i]) (threads ++ [no_thread])
      else enqueue_selected rest (S i) queue threads
  end.

(** [sort_data[j].push_back(x)] *)
Definition push_back_at (j : nat) (x : SortingDatum)
    (data : list (list SortingDatum)) : list (list SortingDatum) :=
  <[j := data !!! j ++ [x]]> data.

(** [for (i = 0; i < sort_n; i++)
      sort_data[0].push_back(SortingDatum(i + 1));] *)
Fixpoint fill_base (n i : nat) (data : list (list SortingDatum))
    : list (list SortingDatum) :=
  match n with
  | 0 => data
  | S n' => fill_base n' (S i) (push_back_at 0 (datum (Z.of_nat i + 1)) data)
  end.

(** [for (i = 0; i < sort_n; i++)
      sort_data[j].push_back(SortingDatum(sort_data[0][i].value));] *)
Fixpoint fill_copy (n i j : nat) (data : list (list SortingDatum))
    : list (list SortingDatum) :=
  match n with
  | 0 => data
  | S n' =>
      fill_copy n' (S i) j
        (push_back_at j (datum (value ((data !!! 0) !!! i))) data)
  end.

(** [for (j = 1; j < sort_queue.size() + 1; j++)], [m] iterations left. *)
Fixpoint make_copies (m j n : nat) (data : list (list SortingDatum))
    : list (list SortingDatum) :=
  match m with
  | 0 => data
  | S m' => make_copies m' (S j) n (fill_copy n 0 j (data ++ [[]]))
  end.

(** [shuffle] stands for [std::random_shuffle]. *)
Definition sort_setup (shuffle : list SortingDatum → list SortingDatum)
    (st : state) : state :=
  let '(queue, threads) :=
    enqueue_selected (sort_algos st) 0 (sort_queue st) (sort_threads st) in
  if length queue =? 0 then
    {| mode := SORTED; sort_algos := sort_algos st; sort_n := sort_n st;
       sort_data := sort_data st; sort_queue := queue;
       sort_threads := threads |}
  else
    let data1 := sort_data st ++ [[]] in
    let data2 := fill_base (sort_n st) 0 data1 in
    let data3 := <[0 := shuffle (data2 !!! 0)]> data2 in
    let data4 := make_copies (length queue) 1 (sort_n st) data3 in
    {| mode := mode st; sort_algos := sort_algos st; sort_n := sort_n st;
       sort_data := data4; sort_queue := queue; sort_threads := threads |}.

(** ** [sort_draw_data] *)

(** The result of an operation on [int], 32 bits in two's complement:
    past [INT_MIN] or [INT_MAX] it wraps around.  The language leaves
    [timer--] at [INT_MIN] undefined; the wrap is what the compiled
    program does there, and what is stated of a timer stepped down is
    stated of a timer above [INT_MIN]. *)
Definition int_wrap (z : Z) : Z := ((z + 2 ^ 31) `mod` 2 ^ 32 - 2 ^ 31)%Z.

(** What drawing one bar does to its datum:
    [if (end || !timer) white; else { red; timer--; }]. *)
Definition draw_datum (end_ : bool) (d : SortingDatum) : SortingDatum :=
  if end_ || (timer d =? 0)%Z then d
  else {| value := value d; timer := int_wrap (timer d - 1) |}.

(** [for (j = 0; j < sort_n; j++)] over [sort_data[i]]. *)
Fixpoint draw_row (n j i : nat) (end_ : bool)
    (data : list (list SortingDatum)) : list (list SortingDatum) :=
  match n with
  | 0 => data
  | S n' =>
      draw_row n' (S j) i end_
        (<[i := <[j := draw_datum end_ ((data !!! i) !!! j)]> (data !!! i)]>
           data)
  end.

(** [for (i = 0; i < sort_threads.size(); i++)] *)
Fixpoint draw_rows (m i n : nat) (end_ : bool)
    (data : list (list SortingDatum)) : list (list SortingDatum) :=
  match m with
  | 0 => data
  | S m' => draw_rows m' (S i) n end_ (draw_row n 0 i end_ data)
  end.

Definition sort_draw_data (end_ : bool) (st : state) : state :=
  set_data
    (draw_rows (length (sort_threads st)) 0 (sort_n st) end_ (sort_data st))
    st.

(** ** [sort_launch] *)

(** Thread [i] runs [sort_algos[sort_queue[i]].sort(sort_data[i],
    sort_cmp)] and is joined.  The threads are given different vectors
    and move the elements of their own vector only, so the values of the
    joined state are those reached by running the threads in turn.  The
    timers are not: every comparison of every thread writes timers in
    all the datasets being sorted, and [v'] below has the timers its
    elements had before the run. *)
Fixpoint run_threads (n i : nat) (st : state) : option state :=
  match n with
  | 0 => Some st
  | S n' =>
      '(v', _) ←
        sort (sort_algos st !!! (sort_queue st !!! i)) sort_cmp
          (sort_data st !!! i);
      run_threads n' (S i)
        {| mode := mode st; sort_algos := sort_algos st;
           sort_n := sort_n st;
           sort_data := <[i := v']> (sort_data st);
           sort_queue := sort_queue st;
           sort_threads := <[i := joined]> (sort_threads st) |}
  end.

Definition sort_launch (st : state) : option state :=
  st' ← run_threads (length (sort_queue st)) 0 st;
  Some (set_mode SORTED (sort_draw_data true st')).

(** ** [handle_key_sorted] *)

Inductive Key := Escape | Enter | Backspace | R | OtherKey.

(** [sort_data[i][j].value = val] *)
Definition set_value (i j : nat) (val : Z)
    (data : list (list SortingDatum)) : list (list SortingDatum) :=
  <[i := <[j := {| value := val; timer := timer ((data !!! i) !!! j) |}]>
           (data !!! i)]> data.

(** [for (j = 0; j < sort_n; j++)
      sort_data[i][j].value = sort_data[sort_queue.size()][j].value;] *)
Fixpoint restart_row (n j i k : nat) (data : list (list SortingDatum))
    : list (list SortingDatum) :=
  match n with
  | 0 => data
  | S n' =>
      restart_row n' (S j) i k
        (set_value i j (value ((data !!! k) !!! j)) data)
  end.

(** [for (i = 0; i < sort_queue.size(); i++)] *)
Fixpoint restart_rows (m i k n : nat) (data : list (list SortingDatum))
    : list (list SortingDatum) :=
  match m with
  | 0 => data
  | S m' => restart_rows m' (S i) k n (restart_row n 0 i k data)
  end.

Definition handle_key_sorted (key : Key) (st : state) : state :=
  match key with
  | Escape | Enter | Backspace =>
      if 0 <? length (sort_data st) then
        {| mode := CONFIG; sort_algos := sort_algos st; sort_n := sort_n st;
           sort_data := []; sort_queue := []; sort_threads := [] |}
      else set_mode CONFIG st
  | R =>
      set_mode SORTING
        (set_data
           (restart_rows (length (sort_queue st)) 0 (length (sort_queue st))
              (sort_n st) (sort_data st))
           st)
  | OtherKey => st
  end.

End Animator.

(** * Publishing the state: [sort_draw_data] under [window_m]

    Every thread of a run, those the parallel sorts spawn and the main
    thread alike, reaches the window only through [sort_draw_data], whose
    body lies between [window_m.lock()] and [window_m.unlock()].  The
    threads interleave; a step is one thread advancing. *)

Module Publish.

(** Where a thread stands. *)
Inductive pc :=
  | sorting            (** outside [sort_draw_data] *)
  | waiting            (** in [window_m.lock()] *)
  | drawing (bars : nat) (** past [lock()], so many bars drawn *)
  | finished.          (** returned from its procedure *)

Record world := mkWorld {
  window_m : option nat;  (** the thread holding the mutex *)
  threads : list pc
}.

Definition initial (n : nat) : world :=
  {| window_m := None; threads := replicate n sorting |}.

Inductive step : world → world → Prop :=
  | step_spawn w :
      (** a parallel sort starts one more thread *)
      step w {| window_m := window_m w; threads := threads w ++ [sorting] |}
  | step_call w t :
      (** the comparator calls [sort_draw_data] *)
      threads w !! t = Some sorting →
      step w {| window_m := window_m w;
                threads := <[t := waiting]> (threads w) |}
  | step_lock w t :
      (** [window_m.lock()] returns: the mutex was free *)
      threads w !! t = Some waiting → window_m w = None →
      step w {| window_m := Some t;
                threads := <[t := drawing 0]> (threads w) |}
  | step_draw w t bars :
      (** [window.draw(rect)] *)
      threads w !! t = Some (drawing bars) →
      step w {| window_m := window_m w;
                threads := <[t := drawing (S bars)]> (threads w) |}
  | step_unlock w t bars :
      (** [window_m.unlock()] *)
      threads w !! t = Some (drawing bars) →
      step w {| window_m := None;
                threads := <[t := sorting]> (threads w) |}
  | step_return w t :
      (** the thread's procedure returns *)
      threads w !! t = Some sorting →
      step w {| window_m := window_m w;
                threads := <[t := finished]> (threads w) |}.

Definition reachable (n : nat) (w : world) : Prop := rtc step (initial n) w.

(** Thread [t] is inside the body of [sort_draw_data]. *)
Definition publishing (w : world) (t : nat) : Prop :=
  ∃ bars, threads w !! t = Some (drawing bars).

(** Whoever is drawing holds [window_m]. *)
Definition drawing_holds_mutex (w : world) : Prop :=
  ∀ t bars, threads w !! t = Some (drawing bars) → window_m w = Some t.

End Publish.

Import Sorts.

(** * Vocabulary of the statements *)

Section vocabulary.
Context {T : Type} `{!Inhabited T}.

(** The animator's comparator answers [x.value <= y.value]; [le_cmp key]
    is that comparator for an element type whose sort key is [key]. *)
Definition le_cmp (key : T → Z) (x y : T) : bool := (key x <=? key y)%Z.

(** Non-decreasing keys. *)
Definition keys_sorted (key : T → Z) (l : list T) : Prop :=
  StronglySorted (λ x y, (key x ≤ key y)%Z) l.

(** The comparator accepts every adjacent pair of the vector. *)
Definition ordered (cmp : T → T → bool) (v : list T) : Prop :=
  ∀ i, S i < length v → cmp (v !!! i) (v !!! S i) = true.

(** What the specification asks of a sort started on [v] with the
    comparator [le_cmp key]: it returns, with a permutation of [v] whose
    adjacent pairs the comparator accepts. *)
Definition sorts (key : T → Z) (v : list T)
    (r : option (list T * nat)) : Prop :=
  ∃ v' c, r = Some (v', c) ∧ v ≡ₚ v' ∧ ordered (le_cmp key) v'.

Variable cmp : T → T → bool.

(** The elements [partition] sends to [u1] and to [u2] when the pivot
    value is [vp]. *)
Definition goes_left (vp : T) (l : list T) : list T :=
  filter (λ x, cmp x vp = true) l.
Definition goes_right (vp : T) (l : list T) : list T :=
  filter (λ x, ¬ cmp x vp = true) l.

(** The three quick sort helpers differ in the pivot index only;
    [quick_with pick] is their common shape. *)
Fixpoint quick_with (pick : nat → nat → nat) (fuel : nat) (v : list T)
    (lo hi c : nat) : option (list T * nat) :=
  match fuel with
  | 0 => None
  | S f =>
      if hi - lo <=? 1 then Some (v, c) else
      let '(v1, p, c1) := partition cmp v lo hi (pick lo hi) c in
      '(v2, c2) ← quick_with pick f v1 lo (lo + p) c1;
      quick_with pick f v2 (lo + p + 1) hi c2
  end.

(** The merge of two runs as [merge] computes it: the left element goes
    first whenever the comparator accepts the pair. *)
Fixpoint lmerge (l1 : list T) : list T → list T :=
  fix lmerge_right (l2 : list T) : list T :=
    match l1, l2 with
    | [], _ => l2
    | _, [] => l1
    | x :: l1', y :: l2' =>
        if cmp x y then x :: lmerge l1' l2 else y :: lmerge_right l2'
    end.

(** One pass of [bubble_sort]'s inner loop over [x :: l], carrying the
    element at the cursor. *)
Fixpoint bubble_list (x : T) (l : list T) : list T :=
  match l with
  | [] => [x]
  | y :: l' =>
      if cmp y x then y :: bubble_list x l' else x :: bubble_list y l'
  end.

(** ** What the C++ standard says of [std::sort]

    The comparator has to induce a strict weak ordering on the values
    sorted: irreflexive, transitive, and with a transitive
    incomparability. *)
Definition strict_weak_on (v : list T) : Prop :=
  Forall (λ x, cmp x x = false) v
  ∧ Forall (λ x, Forall (λ y, Forall (λ z,
      cmp x y = true → cmp y z = true → cmp x z = true) v) v) v
  ∧ Forall (λ x, Forall (λ y, Forall (λ z,
      cmp x y = false → cmp y x = false →
      cmp y z = false → cmp z y = false →
      cmp x z = false ∧ cmp z x = false) v) v) v.

#[global] Instance strict_weak_on_dec v : Decision (strict_weak_on v).
Proof. unfold strict_weak_on. apply _. Defined.

(** Sorted with respect to the comparator: no later element goes before
    an earlier one. *)
Definition sorted_wrt (v : list T) : Prop :=
  StronglySorted (λ x y, cmp y x = false) v.

(** The contract of one call: under the precondition the library
    returns a sorted permutation, having compared elements of the
    range only. *)
Definition lib_sort_meets
    (lib_sort : (T → T → bool) → list T → option (list T * list (T * T)))
    (v : list T) : Prop :=
  strict_weak_on v →
  ∃ v' calls, lib_sort cmp v = Some (v', calls)
    ∧ v ≡ₚ v' ∧ sorted_wrt v'
    ∧ ∀ x y, (x, y) ∈ calls → x ∈ v ∧ y ∈ v.

(** A library sort that keeps to the contract and gives up wherever the
    precondition fails: insertion into a sorted list. *)
Fixpoint ref_insert (x : T) (l : list T) : list T * list (T * T) :=
  match l with
  | [] => ([x], [])
  | y :: l' =>
      if cmp x y then (x :: y :: l', [(x, y)])
      else let '(r, calls) := ref_insert x l' in (y :: r, (x, y) :: calls)
  end.

Fixpoint ref_sorted (l : list T) : list T * list (T * T) :=
  match l with
  | [] => ([], [])
  | x :: l' =>
      let '(r, calls) := ref_sorted l' in
      let '(r', calls') := ref_insert x r in
      (r', calls ++ calls')
  end.

Definition ref_sort (v : list T) : option (list T * list (T * T)) :=
  if decide (strict_weak_on v) then Some (ref_sorted v) else None.
End vocabulary.

(** ** Vocabulary of the run session *)

Section session_vocabulary.
Import Animator.

(** How many registered algorithms are selected. *)
Definition selected_count (algos : list SortingAlgo) : nat :=
  length (filter (λ a, selected a = true) algos).

(** The state the constructor builds and the teardown of the sorted
    state restores: no dataset, no queued index, no thread handle. *)
Definition no_session (st : state) : Prop :=
  sort_data st = [] ∧ sort_queue st = [] ∧ sort_threads st = [].

(** The datasets [sort_launch] hands to the threads, one per queued
    algorithm, and the dataset behind them. *)
Definition copies (st : state) : list (list SortingDatum) :=
  take (length (sort_queue st)) (sort_data st).
Definition base (st : state) : list SortingDatum :=
  sort_data st !!! length (sort_queue st).

Definition values (row : list SortingDatum) : list Z := value <$> row.

(** [SortingDatum(sort_data[0][i].value)] for every [i]. *)
Definition recopy (row : list SortingDatum) : list SortingDatum :=
  (λ d, datum (value d)) <$> row.

(** The data [1 .. n] that [sort_setup] shuffles. *)
Definition one_to (n : nat) : list SortingDatum :=
  (λ m, datum (Z.of_nat m + 1)) <$> seq 0 n.

(** A row whose values are overwritten with those of [src]. *)
Definition revalue (src row : list SortingDatum) : list SortingDatum :=
  zip_with (λ d s, {| value := value s; timer := timer d |}) row src.

(** A session as [sort_setup] leaves it for [k > 0] algorithms. *)
Definition session (k : nat) (st : state) : Prop :=
  length (sort_queue st) = k
  ∧ length (sort_data st) = k + 1
  ∧ ∀ r, r ≤ k → length (sort_data st !!! r) = sort_n st.

End session_vocabulary.

(** The vector of the partition scenario, sorted on integers with
    [x <= y]. *)
Definition scenario : list Z := [4; 1; 3; 2; 5]%Z.

(** The input of the stability scenario, compared on the first field. *)
Definition tagged : list (Z * string) := [(5, "a"); (3, "b"); (5, "c")]%Z.

(** A random source for the witnesses. *)
Definition some_rnd (lo hi : nat) : nat := 7 * lo + 13 * hi.

(** ** The registry of [main.cpp] and two sessions for the witnesses *)

Section demo.
Import Animator.

(** [anim.add_sort(name, sort)] for the nine procedures, in the order of
    [main]. *)
Definition registry (rnd : nat → nat → nat)
    (lib_sort : cmp_fn → list SortingDatum
                → option (list SortingDatum * list (SortingDatum * SortingDatum)))
    : list SortingAlgo :=
  [ mkAlgo "Selection" false (λ cmp v, Some (selection_sort cmp v));
    mkAlgo "Insertion" false (λ cmp v, Some (insertion_sort cmp v));
    mkAlgo "Bubble" false (λ cmp v, Some (bubble_sort cmp v));
    mkAlgo "Merge" false (λ cmp v, merge_sort cmp v);
    mkAlgo "Parallel Merge" false (λ cmp v, pmerge_sort cmp v);
    mkAlgo "Quicksort" false (λ cmp v, quick_sort cmp v);
    mkAlgo "Parallel Quicksort" false (λ cmp v, pquick_sort cmp v);
    mkAlgo "Randomized Parallel Quicksort" false
      (λ cmp v, rpquick_sort cmp rnd v);
    mkAlgo "std::sort" false (λ cmp v, std_sort cmp lib_sort v) ].

(** [sort_algos[i].selected = not sort_algos[i].selected] *)
Definition toggle (i : nat) (algos : list SortingAlgo) : list SortingAlgo :=
  alter (λ a, mkAlgo (name a) (negb (selected a)) (sort a)) i algos.

(** The configuration screen with nothing selected, three items. *)
Definition idle_state : state :=
  {| mode := CONFIG; sort_algos := registry some_rnd ref_sort;
     sort_n := 3; sort_data := []; sort_queue := [];
     sort_threads := [] |}.

(** The same with "Selection" and "Merge" selected. *)
Definition demo_state : state :=
  {| mode := CONFIG;
     sort_algos := toggle 0 (toggle 3 (registry some_rnd ref_sort));
     sort_n := 3; sort_data := []; sort_queue := [];
     sort_threads := [] |}.

(** The demo session once its run is over, with [reverse] for the
    shuffle. *)
Definition demo_sorted : state :=
  default demo_state (sort_launch (sort_setup reverse demo_state)).

(** The same session in the middle of a run, every bar lit: the timer
    of a datum is set to its value. *)
Definition lit_session : state :=
  set_data
    ((λ row : list SortingDatum,
        (λ d, {| value := value d; timer := value d |}) <$> row)
     <$> sort_data demo_sorted)
    demo_sorted.
End demo.

(** Two threads of a run: thread 0 is drawing, thread 1 waits for the
    mutex. *)
Definition demo_world : Publish.world :=
  {| Publish.window_m := Some 0;
     Publish.threads := [Publish.drawing 0; Publish.waiting] |}.

(** ** List-level views of the recursive sorts

    What [merge_sort_helper] and the quick sort helpers make of a range,
    as functions of the range alone, with the number of comparator
    calls. *)

Section list_sorts.
Context {T : Type} `{!Inhabited T}.
Variable cmp : T → T → bool.

(** The comparator calls of one [merge] over the runs [l1] and [l2]. *)
Fixpoint lmerge_calls (l1 : list T) : list T → nat :=
  fix lmerge_calls_right (l2 : list T) : nat :=
    match l1, l2 with
    | [], _ => 0
    | _, [] => 0
    | x :: l1', y :: l2' =>
        if cmp x y then S (lmerge_calls l1' l2)
        else S (lmerge_calls_right l2')
    end.

Fixpoint msort_list (fuel : nat) (s : list T) : option (list T * nat) :=
  match fuel with
  | 0 => None
  | S f =>
      if length s <=? 1 then Some (s, 0) else
      let m := length s / 2 in
      '(l1, n1) ← msort_list f (take m s);
      '(l2, n2) ← msort_list f (drop m s);
      Some (lmerge cmp l1 l2, n1 + n2 + lmerge_calls l1 l2)
  end.

(** [lo] is the index of the range in the vector: the pivot choice
    [pick lo hi] looks at it. *)
Fixpoint qsort_list (pick : nat → nat → nat) (fuel lo : nat) (s : list T)
    : option (list T * nat) :=
  match fuel with
  | 0 => None
  | S f =>
      if length s <=? 1 then Some (s, 0) else
      let p := pick lo (lo + length s) - lo in
      let x := s !!! p in
      let rest := take p s ++ drop (S p) s in
      let u1 := goes_left cmp x rest in
      let u2 := goes_right cmp x rest in
      '(s1, n1) ← qsort_list pick f lo u1;
      '(s2, n2) ← qsort_list pick f (lo + length u1 + 1) u2;
      Some (s1 ++ x :: s2, length s - 1 + n1 + n2)
  end.
End list_sorts.

(** The pivot choices of the quick sorts. *)
Definition pick_mid (lo hi : nat) : nat := lo + (hi - lo) / 2.
Definition pick_rnd (rnd : nat → nat → nat) (lo hi : nat) : nat :=
  rnd lo hi `mod` (hi - lo) + lo.

(** The keys a result carries, when the sort returned. *)
Definition result_keys {T : Type} (key : T → Z)
    (r : option (list T * nat)) : option (list Z) :=
  (λ vc : list T * nat, key <$> vc.1) <$> r.

(** * The configuration screen and the event loop

    [SortingAnimator] with the fields the keyboard and the mouse handlers
    read and write besides those of the run session.  The scroll
    positions, the hit boxes and the texts are [float] and font geometry
    and are left out: a handler's writes to them are dropped, and where
    a handler branches on them the outcome of the test comes with the
    event. *)

Module Config.

(** ** What a handler can end in

    An exception nobody catches ([main] has no handler), undefined
    behaviour, or a sort that never returns. *)
Inductive result (A : Type) : Type :=
  | ok (a : A)
  | out_of_range
  | invalid_argument
  | undefined
  | no_return.
Arguments ok {A} a.
Arguments out_of_range {A}.
Arguments invalid_argument {A}.
Arguments undefined {A}.
Arguments no_return {A}.

#[global] Instance result_bind : MBind result := λ A B f m,
  match m with
  | ok a => f a
  | out_of_range => out_of_range
  | invalid_argument => invalid_argument
  | undefined => undefined
  | no_return => no_return
  end.

(** ** The calls into the C++ library *)

Definition INT_MAX : Z := 2147483647.
Definition INT_MIN : Z := -2147483648.

(** The conversion of an [int] to [size_t] (64 bits). *)
Definition size_t_of_int (z : Z) : Z := z `mod` 2 ^ 64.

(** [std::string::npos] *)
Definition npos : Z := 2 ^ 64 - 1.

(** [s.substr(pos, n)]: throws [std::out_of_range] when [pos > size()],
    else the characters [pos, pos + min(n, size() - pos)). *)
Definition substr (s : list ascii) (pos n : Z) : result (list ascii) :=
  if (pos <=? Z.of_nat (length s))%Z then
    let rlen := Z.min n (Z.of_nat (length s) - pos) in
    ok (take (Z.to_nat rlen) (drop (Z.to_nat pos) s))
  else out_of_range.

(** [std::to_string] of an integer: its decimal representation. *)
Definition to_string (z : Z) : list ascii :=
  let digits :=
    String.list_ascii_of_string
      (DecimalString.NilZero.string_of_uint (N.to_uint (Z.abs_N z))) in
  if (z <? 0)%Z then "-"%char :: digits else digits.

(** [isspace] in the C locale. *)
Definition isspace (c : ascii) : bool :=
  match c with
  | " "%char | "009"%char | "010"%char | "011"%char | "012"%char
  | "013"%char => true
  | _ => false
  end.

Fixpoint skip_spaces (s : list ascii) : list ascii :=
  match s with
  | c :: s' => if isspace c then skip_spaces s' else s
  | [] => []
  end.

Definition digit_of (c : ascii) : option (Decimal.uint → Decimal.uint) :=
  match c with
  | "0"%char => Some Decimal.D0 | "1"%char => Some Decimal.D1
  | "2"%char => Some Decimal.D2 | "3"%char => Some Decimal.D3
  | "4"%char => Some Decimal.D4 | "5"%char => Some Decimal.D5
  | "6"%char => Some Decimal.D6 | "7"%char => Some Decimal.D7
  | "8"%char => Some Decimal.D8 | "9"%char => Some Decimal.D9
  | _ => None
  end.

(** The decimal digits a string starts with. *)
Fixpoint leading_digits (s : list ascii) : Decimal.uint :=
  match s with
  | c :: s' =>
      match digit_of c with
      | Some d => d (leading_digits s')
      | None => Decimal.Nil
      end
  | [] => Decimal.Nil
  end.

(** An optional sign in front of the digits. *)
Definition strip_sign (s : list ascii) : bool * list ascii :=
  match s with
  | "-"%char :: t => (true, t)
  | "+"%char :: t => (false, t)
  | _ => (false, s)
  end.

(** The [int] of a sign and digits: [std::invalid_argument] when there
    is no digit, [std::out_of_range] when the number does not fit. *)
Definition to_int (negative : bool) (d : Decimal.uint) : result Z :=
  match d with
  | Decimal.Nil => invalid_argument
  | _ =>
      let z := if negative then (- Z.of_N (N.of_uint d))%Z
               else Z.of_N (N.of_uint d) in
      if (INT_MIN <=? z)%Z && (z <=? INT_MAX)%Z then ok z else out_of_range
  end.

(** [std::stoi(s)], that is [strtol] in base 10: white space, an optional
    sign, then digits up to the first other character. *)
Definition stoi (s : list ascii) : result Z :=
  let '(negative, s2) := strip_sign (skip_spaces s) in
  to_int negative (leading_digits s2).

(** [template <class T> bool in_btw(T lo, T hi, T x)] on integers. *)
Definition in_btw (lo hi x : Z) : bool := (lo <=? x)%Z && (x <=? hi)%Z.

(** ** The animator *)

Record ui := mkUi {
  anim : Animator.state;
  window_open : bool;
  config_field : Z;
  config_entry : Z;
  config_n_string : list ascii
}.

Definition with_anim (st : Animator.state) (u : ui) : ui :=
  {| anim := st; window_open := window_open u;
     config_field := config_field u; config_entry := config_entry u;
     config_n_string := config_n_string u |}.

Definition with_field (f : Z) (u : ui) : ui :=
  {| anim := anim u; window_open := window_open u;
     config_field := f; config_entry := config_entry u;
     config_n_string := config_n_string u |}.

Definition with_entry (e : Z) (u : ui) : ui :=
  {| anim := anim u; window_open := window_open u;
     config_field := config_field u; config_entry := e;
     config_n_string := config_n_string u |}.

Definition with_string (s : list ascii) (u : ui) : ui :=
  {| anim := anim u; window_open := window_open u;
     config_field := config_field u; config_entry := config_entry u;
     config_n_string := s |}.

Definition set_n (n : nat) (st : Animator.state) : Animator.state :=
  {| Animator.mode := Animator.mode st;
     Animator.sort_algos := Animator.sort_algos st;
     Animator.sort_n := n;
     Animator.sort_data := Animator.sort_data st;
     Animator.sort_queue := Animator.sort_queue st;
     Animator.sort_threads := Animator.sort_threads st |}.

Definition set_algos (algos : list Animator.SortingAlgo)
    (st : Animator.state) : Animator.state :=
  {| Animator.mode := Animator.mode st;
     Animator.sort_algos := algos;
     Animator.sort_n := Animator.sort_n st;
     Animator.sort_data := Animator.sort_data st;
     Animator.sort_queue := Animator.sort_queue st;
     Animator.sort_threads := Animator.sort_threads st |}.

(** [config_n_string.size()] and [(int)sort_algos.size()] *)
Definition n_size (u : ui) : Z := Z.of_nat (length (config_n_string u)).
Definition algos_size (u : ui) : Z :=
  Z.of_nat (length (Animator.sort_algos (anim u))).

(** [SortingAnimator()]: [mode = START], [sort_n = 100], no algorithm,
    no dataset.  [config_field] and [config_entry] are not initialised
    before [launch]. *)
Definition construct (field entry : Z) : ui :=
  {| anim := {| Animator.mode := Animator.START;
                Animator.sort_algos := [];
                Animator.sort_n := 100;
                Animator.sort_data := [];
                Animator.sort_queue := [];
                Animator.sort_threads := [] |};
     window_open := false;
     config_field := field; config_entry := entry;
     config_n_string := [] |}.

(** [sort_algos.push_back(SortingAlgo(name, sort))] *)
Definition add_sort (name : string) (sort : Animator.sort_fn) (u : ui) : ui :=
  with_anim
    (set_algos
       (Animator.sort_algos (anim u) ++ [Animator.mkAlgo name false sort])
       (anim u))
    u.

(** [launch]: [setup_config] and [window.create]. *)
Definition launch (u : ui) : ui :=
  let s := to_string (Z.of_nat (Animator.sort_n (anim u))) in
  {| anim := anim u; window_open := true;
     config_field := 0; config_entry := Z.of_nat (length s);
     config_n_string := s |}.

(** [sort_n = std::stoi(config_n_string);
     config_n_string = std::to_string(sort_n);] *)
Definition parse_n (s : list ascii) (u : ui) : result ui :=
  z ← stoi s;
  let n := Z.to_nat (size_t_of_int z) in
  ok (with_string (to_string (Z.of_nat n)) (with_anim (set_n n (anim u)) u)).

Definition update_n (u : ui) : result ui :=
  match config_n_string u with
  | [] => parse_n ["0"%char] u
  | s => parse_n s u
  end.

(** The block that follows an erasure in [handle_key_config]:
    [if (config_n_string.empty()) { sort_n = 0; config_n_string = "0"; }
     else { sort_n = std::stoi(...); config_n_string = ...; }] *)
Definition after_erasure (s : list ascii) (u : ui) : result ui :=
  match s with
  | [] => ok (with_string ["0"%char] (with_anim (set_n 0 (anim u)) u))
  | _ => parse_n s u
  end.

(** [sf::Keyboard::Key], the codes the handlers look at. *)
Inductive KeyCode :=
  | Num0 | Num1 | Num2 | Num3 | Num4 | Num5 | Num6 | Num7 | Num8 | Num9
  | H | R | Up | Down | Left | Right
  | Backspace | Delete | Tab | Enter | Escape | OtherKey.

(** [event.key.code - sf::Keyboard::Num0] where
    [in_btw(sf::Keyboard::Num0, sf::Keyboard::Num9, event.key.code)]. *)
Definition num_value (k : KeyCode) : option Z :=
  match k with
  | Num0 => Some 0 | Num1 => Some 1 | Num2 => Some 2 | Num3 => Some 3
  | Num4 => Some 4 | Num5 => Some 5 | Num6 => Some 6 | Num7 => Some 7
  | Num8 => Some 8 | Num9 => Some 9
  | _ => None
  end%Z.

Definition set_ui_mode (m : Animator.Mode) (u : ui) : ui :=
  with_anim (Animator.set_mode m (anim u)) u.

(** [config_field] has just been written:
    [if (!config_field) config_entry = config_n_string.size();] *)
Definition entry_at_end (u : ui) : ui :=
  if (config_field u =? 0)%Z then with_entry (n_size u) u else u.

(** [shuffle] stands for [std::random_shuffle].  The last statement of
    the handler moves [config_scroll] only. *)
Definition handle_key_config
    (shuffle : list Animator.SortingDatum → list Animator.SortingDatum)
    (k : KeyCode) (u : ui) : result ui :=
  match num_value k with
  | Some d =>
      a ← substr (config_n_string u) 0 (size_t_of_int (config_entry u));
      b ← substr (config_n_string u) (size_t_of_int (config_entry u)) npos;
      ok (with_entry (config_entry u + 1)
            (with_string (a ++ to_string d ++ b) u))
  | None =>
    match k with
    | H => ok (set_ui_mode Animator.HELP u)
    | Up =>
        ok (entry_at_end (with_field (Z.max 0 (config_field u - 1)) u))
    | Down =>
        u1 ← (if (config_field u =? 0)%Z then update_n u else ok u);
        ok (with_field (Z.min (algos_size u1 + 1) (config_field u1 + 1)) u1)
    | Left =>
        if (config_field u =? 0)%Z
        then ok (with_entry (Z.max (config_entry u - 1) 0) u)
        else ok (entry_at_end (with_field (config_field u - 1) u))
    | Right =>
        if (config_field u =? 0)%Z && (config_entry u <? n_size u)%Z
        then ok (with_entry (config_entry u + 1) u)
        else if (config_field u =? 0)%Z then
          u1 ← update_n u; ok (with_field (config_field u1 + 1) u1)
        else if (config_field u <? algos_size u + 1)%Z
        then ok (with_field (config_field u + 1) u)
        else ok u
    | Backspace =>
        if (config_field u =? 0)%Z && (0 <? config_entry u)%Z then
          a ← substr (config_n_string u) 0 (size_t_of_int (config_entry u - 1));
          b ← substr (config_n_string u) (size_t_of_int (config_entry u)) npos;
          u1 ← after_erasure (a ++ b) u;
          ok (with_entry (config_entry u1 - 1) u1)
        else ok u
    | Delete =>
        if (config_field u =? 0)%Z && (config_entry u <? n_size u)%Z then
          a ← substr (config_n_string u) 0 (size_t_of_int (config_entry u));
          b ← substr (config_n_string u)
                (size_t_of_int (config_entry u + 1)) npos;
          after_erasure (a ++ b) u
        else ok u
    | Tab =>
        u1 ← (if (config_field u =? 0)%Z then update_n u else ok u);
        ok (entry_at_end
              (with_field
                 (size_t_of_int (config_field u1 + 1)
                  `mod` (algos_size u1 + 2))%Z u1))
    | Enter =>
        if (config_field u =? 0)%Z then
          u1 ← update_n u; ok (with_field (config_field u1 + 1) u1)
        else if (config_field u <? algos_size u + 1)%Z then
          if (config_field u <? 0)%Z then undefined else
          ok (with_anim
                (set_algos
                   (toggle (Z.to_nat (config_field u - 1))
                      (Animator.sort_algos (anim u)))
                   (anim u))
                u)
        else
          ok (set_ui_mode Animator.SORTING
                (with_anim (Animator.sort_setup shuffle (anim u)) u))
    | Escape => ok (set_ui_mode Animator.START u)
    | _ => ok u
    end
  end.

(** The arrow keys move [help_scroll] only. *)
Definition handle_key_help (k : KeyCode) (u : ui) : ui :=
  match k with
  | Escape | Enter => set_ui_mode Animator.CONFIG u
  | _ => u
  end.

(** The key codes [handle_key_sorted] tells apart. *)
Definition sorted_key (k : KeyCode) : Animator.Key :=
  match k with
  | Escape => Animator.Escape
  | Enter => Animator.Enter
  | Backspace => Animator.Backspace
  | R => Animator.R
  | _ => Animator.OtherKey
  end.

Definition handle_key
    (shuffle : list Animator.SortingDatum → list Animator.SortingDatum)
    (k : KeyCode) (u : ui) : result ui :=
  match Animator.mode (anim u) with
  | Animator.START => ok (set_ui_mode Animator.HELP u)
  | Animator.HELP => ok (handle_key_help k u)
  | Animator.CONFIG => handle_key_config shuffle k u
  | Animator.SORTING => ok u
  | Animator.SORTED =>
      ok (with_anim (Animator.handle_key_sorted (sorted_key k) (anim u)) u)
  end.

(** What the position of a mouse press amounts to, in the order in which
    [handle_mouse_pressed] tests it: on the scroll bar of the mode (the
    mode has one), in the box of the quantity, in the visible box of
    [sort_algos[i - 1]] for the first such [i] of the loop
    [for (i = 1; i < sort_algos.size() + 1; i++)], in the box of
    "Continue", or none of these. *)
Inductive hit :=
  | on_scroll_bar
  | on_quantity
  | on_sort (i : nat)
  | on_continue
  | on_nothing.

Definition handle_mouse_pressed
    (shuffle : list Animator.SortingDatum → list Animator.SortingDatum)
    (h : hit) (u : ui) : result ui :=
  match Animator.mode (anim u) with
  | Animator.START => ok (set_ui_mode Animator.HELP u)
  | Animator.HELP =>
      match h with
      | on_scroll_bar => ok u
      | _ => ok (set_ui_mode Animator.CONFIG u)
      end
  | Animator.CONFIG =>
      u1 ← update_n u;
      match h with
      | on_scroll_bar => ok u1
      | on_quantity => ok (with_entry (n_size u1) (with_field 0 u1))
      | on_sort i =>
          if (1 <=? i) && (i <? length (Animator.sort_algos (anim u1)) + 1)
          then
            ok (with_anim
                  (set_algos
                     (toggle (i - 1) (Animator.sort_algos (anim u1)))
                     (anim u1))
                  (with_field (Z.of_nat i) u1))
          else ok u1
      | on_continue =>
          ok (set_ui_mode Animator.SORTING
                (with_anim (Animator.sort_setup shuffle (anim u1)) u1))
      | on_nothing => ok u1
      end
  | _ => ok u
  end.

(** [sf::Event].  The wheel, the release and the moves of the mouse
    write the scroll positions and [mouse_scrolling] only. *)
Inductive Event :=
  | Closed
  | KeyPressed (k : KeyCode)
  | MouseWheelScrolled
  | MouseButtonPressed (h : hit)
  | MouseButtonReleased
  | MouseMoved
  | OtherEvent.

Definition handle
    (shuffle : list Animator.SortingDatum → list Animator.SortingDatum)
    (ev : Event) (u : ui) : result ui :=
  match ev with
  | Closed =>
      ok {| anim := anim u; window_open := false;
            config_field := config_field u;
            config_entry := config_entry u;
            config_n_string := config_n_string u |}
  | KeyPressed k => handle_key shuffle k u
  | MouseButtonPressed h => handle_mouse_pressed shuffle h u
  | _ => ok u
  end.

(** [draw]: the three screens write the window only; in [SORTING] mode
    it is [sort_launch]. *)
Definition draw (u : ui) : result ui :=
  match Animator.mode (anim u) with
  | Animator.SORTING =>
      match Animator.sort_launch (anim u) with
      | Some st => ok (with_anim st u)
      | None => no_return
      end
  | _ => ok u
  end.

(** [while (anim.window.pollEvent(event)) anim.handle(event);] *)
Fixpoint handle_all
    (shuffle : list Animator.SortingDatum → list Animator.SortingDatum)
    (evs : list Event) (u : ui) : result ui :=
  match evs with
  | [] => ok u
  | ev :: evs' => u1 ← handle shuffle ev u; handle_all shuffle evs' u1
  end.

(** One turn of the loop of [main]: the events polled, then [draw].  At
    most one [sort_setup] runs in a turn, and [shuffle] is what
    [std::random_shuffle] does in it. *)
Definition turn
    (f : (list Animator.SortingDatum → list Animator.SortingDatum)
         * list Event)
    (u : ui) : result ui :=
  u1 ← handle_all f.1 f.2 u; draw u1.

(** [while (anim.window.isOpen()) { ... }] over the turns given. *)
Fixpoint loop
    (turns : list ((list Animator.SortingDatum → list Animator.SortingDatum)
                   * list Event))
    (u : ui) : result ui :=
  match turns with
  | [] => ok u
  | f :: rest =>
      if window_open u then u1 ← turn f u; loop rest u1 else ok u
  end.

End Config.

(** ** Vocabulary of the configuration screen *)

Section config_vocabulary.
Import Config.

(** A decimal digit. *)
Definition is_digit (c : ascii) : Prop := is_Some (digit_of c).

(** The quantity as typed: digits only, at least one. *)
Definition quantity_text (s : list ascii) : Prop :=
  s ≠ [] ∧ Forall is_digit s.

(** The characters of a decimal number, as the library prints them. *)
Definition print_uint (d : Decimal.uint) : list ascii :=
  String.list_ascii_of_string (DecimalString.NilEmpty.string_of_uint d).

(** The number a digit string denotes. *)
Definition number (s : list ascii) : Z := Z.of_N (N.of_uint (leading_digits s)).

(** What [add_sort] registered: names and procedures, whatever is
    selected. *)
Definition registered (algos : list Animator.SortingAlgo)
    : list (string * Animator.sort_fn) :=
  (λ a, (Animator.name a, Animator.sort a)) <$> algos.

(** What every handler keeps of the configuration screen. *)
Definition config_ok (u : ui) : Prop :=
  (0 ≤ config_field u ≤ algos_size u + 1)%Z
  ∧ (0 ≤ config_entry u)%Z
  ∧ quantity_text (config_n_string u).

(** Outside of a run there is no dataset, and where there is no dataset
    there is no queued index and no thread handle. *)
Definition tidy (st : Animator.state) : Prop :=
  (Animator.mode st ∈ [Animator.START; Animator.HELP; Animator.CONFIG] →
   Animator.sort_data st = [])
  ∧ (Animator.sort_data st = [] →
     Animator.sort_queue st = [] ∧ Animator.sort_threads st = []).

(** What the event loop keeps, with [R] registered. *)
Definition steady (R : list (string * Animator.sort_fn)) (u : ui) : Prop :=
  config_ok u ∧ tidy (anim u)
  ∧ registered (Animator.sort_algos (anim u)) = R.

(** The state a handler returned; the constructed animator when it did
    not return. *)
Definition returned (r : result ui) : ui :=
  match r with
  | ok u => u
  | _ => construct 0 0
  end.

(** The animator of [main.cpp], launched. *)
Definition main_ui (rnd : nat → nat → nat)
    (lib_sort : Animator.cmp_fn → list Animator.SortingDatum
                → option (list Animator.SortingDatum
                          * list (Animator.SortingDatum * Animator.SortingDatum)))
    (field entry : Z) : ui :=
  launch
    (add_sort "std::sort" (λ cmp v, std_sort cmp lib_sort v)
    (add_sort "Randomized Parallel Quicksort" (λ cmp v, rpquick_sort cmp rnd v)
    (add_sort "Parallel Quicksort" (λ cmp v, pquick_sort cmp v)
    (add_sort "Quicksort" (λ cmp v, quick_sort cmp v)
    (add_sort "Parallel Merge" (λ cmp v, pmerge_sort cmp v)
    (add_sort "Merge" (λ cmp v, merge_sort cmp v)
    (add_sort "Bubble" (λ cmp v, Some (bubble_sort cmp v))
    (add_sort "Insertion" (λ cmp v, Some (insertion_sort cmp v))
    (add_sort "Selection" (λ cmp v, Some (selection_sort cmp v))
       (construct field entry)))))))))).

(** The keys pressed one after the other on the configuration screen. *)
Fixpoint press (shuffle : list Animator.SortingDatum → list Animator.SortingDatum)
    (ks : list KeyCode) (u : ui) : result ui :=
  match ks with
  | [] => ok u
  | k :: ks' => u1 ← handle_key shuffle k u; press shuffle ks' u1
  end.

(** The animator of [main.cpp] after the keys [ks], with the identity for
    the shuffle. *)
Definition keyed (ks : list KeyCode) : ui :=
  returned (press id ks (main_ui some_rnd ref_sort 0 0)).

(** The configuration screen of the demo session, on "Continue", and the
    animator once the demo run is over. *)
Definition demo_ui : ui :=
  {| anim := demo_state; window_open := true;
     config_field := 10; config_entry := 1;
     config_n_string := ["3"%char] |}.
Definition sorted_ui : ui := with_anim demo_sorted demo_ui.

(** Two turns of the loop: a key on the start screen; then Enter on the
    help screen, Enter on the quantity and Enter on "Selection". *)
Definition demo_turns
    : list ((list Animator.SortingDatum → list Animator.SortingDatum)
            * list Event) :=
  [(id, [KeyPressed Enter]);
   (id, [KeyPressed Enter; KeyPressed Enter; KeyPressed Enter])].
End config_vocabulary.

(** * Facts about vectors seen as [a ++ s ++ b] *)

Section vector_facts.
Context {T : Type} `{!Inhabited T}.
Implicit Types a b s u v p m q l : list T.

Lemma lookup_total_at a x b i :
  i = length a → (a ++ x :: b) !!! i = x.
Proof. intros ->. apply list_lookup_total_middle. done. Qed.

Lemma inserts_middle a s b u lo :
  lo = length a → length u = length s →
  list_inserts lo u (a ++ s ++ b) = a ++ u ++ b.
Proof.
  intros -> Hlen.
  replace (length a) with (length a + 0) by lia.
  rewrite list_inserts_app_r. f_equal.
  by apply list_inserts_0_r.
Qed.

Lemma inserts_three (u1 u2 : list T) x v lo :
  list_inserts (lo + length u1 + 1) u2
    (<[lo + length u1 := x]> (list_inserts lo u1 v))
  = list_inserts lo (u1 ++ x :: u2) v.
Proof.
  rewrite list_inserts_app_l. simpl.
  rewrite (list_insert_inserts_lt _ (length u1 + lo)) by lia.
  do 2 f_equal; lia.
Qed.

Lemma filter_none (P : T → Prop) `{∀ x, Decision (P x)} l :
  (∀ x, x ∈ l → ¬ P x) → filter P l = [].
Proof.
  induction l as [|x l IH]; intros Hl; [done|].
  rewrite filter_cons_False by (apply Hl; left).
  apply IH. intros y Hy. apply Hl. by right.
Qed.

Lemma swap_spec p x m y q i j :
  i = length p → j = length p + 1 + length m →
  swap i j (p ++ x :: m ++ y :: q) = p ++ y :: m ++ x :: q.
Proof.
  intros -> ->. unfold swap.
  rewrite (lookup_total_at p x (m ++ y :: q)) by done.
  assert ((p ++ x :: m ++ y :: q) !!! (length p + 1 + length m) = y) as ->.
  { replace (p ++ x :: m ++ y :: q) with ((p ++ x :: m) ++ y :: q)
      by (by rewrite <-app_assoc).
    apply lookup_total_at. rewrite !length_app. simpl. lia. }
  replace (length p) with (length p + 0) at 2 by lia.
  rewrite insert_app_r. simpl.
  replace (p ++ y :: m ++ y :: q) with ((p ++ y :: m) ++ y :: q)
    by (by rewrite <-app_assoc).
  replace (length p + 1 + length m) with (length (p ++ y :: m) + 0)
    by (rewrite !length_app; simpl; lia).
  rewrite insert_app_r. simpl. by rewrite <-!app_assoc.
Qed.

Lemma swap_adjacent p x y q i :
  i = length p → swap i (i + 1) (p ++ x :: y :: q) = p ++ y :: x :: q.
Proof.
  intros ->. apply (swap_spec p x [] y q); simpl; lia.
Qed.

Lemma swap_same i v : swap i i v = v.
Proof.
  unfold swap. destruct (decide (i < length v)) as [Hi|Hi].
  - rewrite list_insert_insert_eq. apply list_insert_id.
    by apply list_lookup_lookup_total_lt.
  - rewrite !list_insert_ge by (rewrite ?length_insert; lia). done.
Qed.
End vector_facts.

(** * [partition] *)

Section partition_facts.
Context {T : Type} `{!Inhabited T} (cmp : T → T → bool).
Implicit Types a b s l u v : list T.

Lemma goes_left_right_perm vp l : goes_left cmp vp l ++ goes_right cmp vp l ≡ₚ l.
Proof. apply filter_app_complement. Qed.

Lemma goes_left_right_length vp l :
  length (goes_left cmp vp l) + length (goes_right cmp vp l) = length l.
Proof.
  rewrite <-length_app. apply Permutation_length, goes_left_right_perm.
Qed.

Lemma partition_scan_run l : ∀ a b vp p i u1 u2 c,
  i = length a → (p < i ∨ i + length l ≤ p) →
  partition_scan cmp (length l) (a ++ l ++ b) vp p i u1 u2 c
  = (u1 ++ goes_left cmp vp l, u2 ++ goes_right cmp vp l, c + length l).
Proof.
  unfold goes_left, goes_right.
  induction l as [|x l IH]; intros a b vp p i u1 u2 c Hi Hp; simpl.
  { by rewrite !app_nil_r, Nat.add_0_r. }
  simpl in Hp.
  destruct (Nat.eqb_spec i p) as [->|_]; [lia|].
  rewrite (lookup_total_at a x (l ++ b) i Hi).
  rewrite (cons_middle x a), (app_assoc a [x]).
  destruct (cmp x vp) eqn:Hx.
  - rewrite filter_cons_True, filter_cons_False by (rewrite ?Hx; auto).
    rewrite IH by (rewrite ?length_app; simpl; lia).
    rewrite <-app_assoc. simpl. do 2 f_equal. lia.
  - rewrite filter_cons_False, filter_cons_True by (rewrite ?Hx; auto).
    rewrite IH by (rewrite ?length_app; simpl; lia).
    rewrite <-app_assoc. simpl. do 2 f_equal. lia.
Qed.

Lemma partition_scan_add n1 : ∀ n2 v vp p i u1 u2 c,
  partition_scan cmp (n1 + n2) v vp p i u1 u2 c
  = let '(u1', u2', c') := partition_scan cmp n1 v vp p i u1 u2 c in
    partition_scan cmp n2 v vp p (i + n1) u1' u2' c'.
Proof.
  induction n1 as [|n1 IH]; intros; simpl.
  { by rewrite Nat.add_0_r. }
  replace (i + S n1) with (S i + n1) by lia.
  destruct (i =? p); [|destruct (cmp (v !!! i) vp)]; apply IH.
Qed.

(** What [partition] does to a range [l1 ++ x :: l2] whose pivot is
    [x]. *)
Lemma partition_spec a l1 x l2 b lo hi p c :
  lo = length a → p = lo + length l1 → hi = p + 1 + length l2 →
  partition cmp (a ++ (l1 ++ x :: l2) ++ b) lo hi p c
  = (a ++ (goes_left cmp x (l1 ++ l2) ++ x :: goes_right cmp x (l1 ++ l2)) ++ b,
     length (goes_left cmp x (l1 ++ l2)),
     c + length l1 + length l2).
Proof.
  intros Hlo Hp Hhi. unfold partition.
  assert ((a ++ (l1 ++ x :: l2) ++ b) !!! p = x) as ->.
  { rewrite <-(app_assoc l1), (app_assoc a l1). simpl.
    apply lookup_total_at. rewrite length_app. lia. }
  replace (hi - lo) with (length l1 + S (length l2)) by lia.
  rewrite partition_scan_add.
  rewrite <-(app_assoc l1) at 1.
  rewrite partition_scan_run by lia.
  simpl partition_scan at 1.
  replace (lo + length l1 =? p) with true by (symmetry; apply Nat.eqb_eq; lia).
  replace (a ++ (l1 ++ x :: l2) ++ b) with ((a ++ l1 ++ [x]) ++ l2 ++ b) at 1
    by (rewrite <-!app_assoc; done).
  rewrite partition_scan_run by (rewrite ?length_app; simpl; lia).
  simpl.
  rewrite inserts_three.
  unfold goes_left, goes_right. rewrite !filter_app.
  fold (goes_left cmp x l1) (goes_left cmp x l2) (goes_right cmp x l1) (goes_right cmp x l2).
  rewrite inserts_middle; [|done|].
  - done.
  - rewrite !length_app. simpl. rewrite !length_app.
    pose proof (goes_left_right_length x l1).
    pose proof (goes_left_right_length x l2). lia.
Qed.
End partition_facts.

(** * The quick sorts *)

Section quick_facts.
Context {T : Type} `{!Inhabited T} (cmp : T → T → bool) (key : T → Z).
Implicit Types a b s l u v : list T.

Lemma short_keys_sorted l : length l ≤ 1 → keys_sorted key l.
Proof.
  destruct l as [|x [|y l]]; simpl; intros; try lia;
    repeat constructor.
Qed.

Lemma split_at s i :
  i < length s → ∃ l1 x l2, s = l1 ++ x :: l2 ∧ length l1 = i.
Proof.
  intros Hi. destruct (lookup_lt_is_Some_2 s i Hi) as [x Hx].
  exists (take i s), x, (drop (S i) s). split.
  - by rewrite take_drop_middle.
  - rewrite length_take. lia.
Qed.

Lemma quick_sort_helper_with fuel : ∀ v lo hi c,
  quick_sort_helper cmp fuel v lo hi c
  = quick_with cmp (λ lo hi, lo + (hi - lo) / 2) fuel v lo hi c.
Proof.
  induction fuel as [|f IH]; intros; simpl; [done|].
  destruct (hi - lo <=? 1); [done|].
  destruct (partition _ _ _ _ _ _) as [[v1 p] c1].
  rewrite IH. destruct (quick_with _ _ _ _ _ _ _) as [[v2 c2]|]; simpl; auto.
Qed.

Lemma pquick_sort_helper_with fuel : ∀ v lo hi c,
  pquick_sort_helper cmp fuel v lo hi c
  = quick_with cmp (λ lo hi, lo + (hi - lo) / 2) fuel v lo hi c.
Proof.
  induction fuel as [|f IH]; intros; simpl; [done|].
  destruct (hi - lo <=? 1); [done|].
  destruct (partition _ _ _ _ _ _) as [[v1 p] c1].
  rewrite IH. destruct (quick_with _ _ _ _ _ _ _) as [[v2 c2]|]; simpl; auto.
Qed.

Lemma rpquick_sort_helper_with rnd fuel : ∀ v lo hi c,
  rpquick_sort_helper cmp rnd fuel v lo hi c
  = quick_with cmp (λ lo hi, rnd lo hi `mod` (hi - lo) + lo) fuel v lo hi c.
Proof.
  induction fuel as [|f IH]; intros; simpl; [done|].
  destruct (hi - lo <=? 1); [done|].
  destruct (partition _ _ _ _ _ _) as [[v1 p] c1].
  rewrite IH. destruct (quick_with _ _ _ _ _ _ _) as [[v2 c2]|]; simpl; auto.
Qed.
End quick_facts.

Section quick_with_facts.
Context {T : Type} `{!Inhabited T} (cmp : T → T → bool) (key : T → Z).
Variable pick : nat → nat → nat.
Hypothesis pick_in_range : ∀ lo hi, 1 < hi - lo → lo ≤ pick lo hi < hi.
Implicit Types a b s l u v : list T.

(** With more fuel than the range is long, the helper returns: it
    rewrites the range [s] of [a ++ s ++ b] into a permutation of
    itself, sorted when the comparator is [le_cmp key]. *)
Lemma quick_with_spec fuel : ∀ s a b c,
  length s < fuel →
  ∃ s' c',
    quick_with cmp pick fuel (a ++ s ++ b)
      (length a) (length a + length s) c = Some (a ++ s' ++ b, c')
    ∧ s ≡ₚ s'
    ∧ ((∀ x y, cmp x y = le_cmp key x y) → keys_sorted key s').
Proof.
  induction fuel as [|f IH]; intros s a b c Hf; [lia|]. simpl.
  replace (length a + length s - length a) with (length s) by lia.
  destruct (Nat.leb_spec (length s) 1) as [Hs|Hs].
  { exists s, c. split_and!; [done..|]. intros _. by apply short_keys_sorted. }
  pose proof (pick_in_range (length a) (length a + length s)) as Hp.
  destruct (split_at s (pick (length a) (length a + length s) - length a))
    as (l1 & x & l2 & Hsplit & Hl1); [lia|].
  set (p := pick (length a) (length a + length s)) in *.
  clearbody p. subst s. rewrite length_app in Hf, Hs, Hp. simpl in *.
  rewrite (partition_spec cmp a l1 x l2 b (length a) _ p c)
    by (rewrite ?length_app; simpl; lia).
  set (U1 := goes_left cmp x (l1 ++ l2)).
  set (U2 := goes_right cmp x (l1 ++ l2)).
  pose proof (goes_left_right_length cmp x (l1 ++ l2)) as HU.
  fold U1 U2 in HU. rewrite length_app in HU.
  destruct (IH U1 a (x :: U2 ++ b) (c + length l1 + length l2))
    as (U1' & c1 & E1 & P1 & S1); [lia|].
  replace (a ++ (U1 ++ x :: U2) ++ b) with (a ++ U1 ++ x :: U2 ++ b)
    by (by rewrite <-app_assoc).
  rewrite E1. simpl.
  pose proof (Permutation_length P1) as HL1.
  destruct (IH U2 (a ++ U1' ++ [x]) b c1)
    as (U2' & c2 & E2 & P2 & S2); [lia|].
  replace (a ++ U1' ++ x :: U2 ++ b) with ((a ++ U1' ++ [x]) ++ U2 ++ b)
    by (by rewrite <-!app_assoc).
  replace (length a + length U1 + 1) with (length (a ++ U1' ++ [x]))
    by (rewrite !length_app; simpl; lia).
  replace (length a + length (l1 ++ x :: l2))
    with (length (a ++ U1' ++ [x]) + length U2)
    by (rewrite !length_app; simpl; lia).
  rewrite E2.
  exists (U1' ++ x :: U2'), c2. split_and!.
  - by rewrite <-!app_assoc.
  - rewrite <-P1, <-P2, <-!Permutation_middle. constructor.
    symmetry. apply goes_left_right_perm.
  - intros Hcmp.
    assert (∀ y, y ∈ U1' → (key y ≤ key x)%Z) as HU1.
    { intros y Hy. rewrite <-P1 in Hy.
      apply list_elem_of_filter in Hy as [Hy _].
      rewrite Hcmp in Hy. by apply Z.leb_le in Hy. }
    assert (∀ y, y ∈ U2' → (key x ≤ key y)%Z) as HU2.
    { intros y Hy. rewrite <-P2 in Hy.
      apply list_elem_of_filter in Hy as [Hy _].
      rewrite Hcmp in Hy. unfold le_cmp in Hy.
      destruct (Z.leb_spec (key y) (key x)); [done|lia]. }
    apply StronglySorted_app_2; [|by apply S1|].
    + intros y1 y2 Hy1 [->|Hy2]%elem_of_cons; [by apply HU1|].
      specialize (HU1 _ Hy1). specialize (HU2 _ Hy2). lia.
    + constructor; [by apply S2|]. by apply Forall_forall.
Qed.
End quick_with_facts.

Section quick_sorts_correct.
Context {T : Type} `{!Inhabited T} (key : T → Z).
Implicit Types v : list T.

Lemma keys_sorted_ordered v : keys_sorted key v → ordered (le_cmp key) v.
Proof.
  induction 1 as [|x l Hl IH Hx]; intros i Hi; simpl in Hi; [lia|].
  destruct i as [|i]; simpl.
  - destruct l as [|y l]; simpl in *; [lia|].
    apply Z.leb_le. by inv Hx.
  - apply IH. lia.
Qed.

Lemma mid_in_range lo hi : 1 < hi - lo → lo ≤ lo + (hi - lo) / 2 < hi.
Proof.
  intros H. pose proof (Nat.div_lt (hi - lo) 2 ltac:(lia) ltac:(lia)). lia.
Qed.

Lemma rnd_in_range (rnd : nat → nat → nat) lo hi :
  1 < hi - lo → lo ≤ rnd lo hi `mod` (hi - lo) + lo < hi.
Proof.
  intros H.
  pose proof (Nat.mod_upper_bound (rnd lo hi) (hi - lo) ltac:(lia)). lia.
Qed.

Lemma quick_with_sorts pick v :
  (∀ lo hi, 1 < hi - lo → lo ≤ pick lo hi < hi) →
  sorts key v
    (quick_with (le_cmp key) pick (S (length v)) v 0 (length v) 0).
Proof.
  intros Hpick.
  destruct (quick_with_spec (le_cmp key) key pick Hpick
              (S (length v)) v [] [] 0) as (s' & c' & E & P & S);
    [lia|].
  simpl in E. rewrite !app_nil_r in E.
  exists s', c'. split_and!; [done..|].
  apply keys_sorted_ordered. by apply S.
Qed.

Lemma quick_sort_sorts v : sorts key v (quick_sort (le_cmp key) v).
Proof.
  unfold quick_sort. rewrite quick_sort_helper_with.
  apply quick_with_sorts, mid_in_range.
Qed.

Lemma pquick_sort_sorts v : sorts key v (pquick_sort (le_cmp key) v).
Proof.
  unfold pquick_sort. rewrite pquick_sort_helper_with.
  apply quick_with_sorts, mid_in_range.
Qed.

Lemma rpquick_sort_sorts rnd v :
  sorts key v (rpquick_sort (le_cmp key) rnd v).
Proof.
  unfold rpquick_sort. rewrite rpquick_sort_helper_with.
  apply quick_with_sorts. intros lo hi. apply rnd_in_range.
Qed.
End quick_sorts_correct.

(** * Merging *)

Section merge_facts.
Context {T : Type} `{!Inhabited T} (cmp : T → T → bool).
Implicit Types a b s l u v p q r : list T.

Lemma lmerge_nil_l l : lmerge cmp [] l = l.
Proof. by destruct l. Qed.

Lemma lmerge_nil_r l : lmerge cmp l [] = l.
Proof. by destruct l. Qed.

Lemma lmerge_cons x l1 y l2 :
  lmerge cmp (x :: l1) (y :: l2)
  = if cmp x y then x :: lmerge cmp l1 (y :: l2)
    else y :: lmerge cmp (x :: l1) l2.
Proof. done. Qed.

Lemma lmerge_perm l1 : ∀ l2, lmerge cmp l1 l2 ≡ₚ l1 ++ l2.
Proof.
  induction l1 as [|x l1 IH1]; intros l2.
  { by rewrite lmerge_nil_l. }
  induction l2 as [|y l2 IH2].
  { by rewrite lmerge_nil_r, app_nil_r. }
  rewrite lmerge_cons. destruct (cmp x y).
  - simpl. by rewrite IH1.
  - rewrite IH2. by rewrite <-Permutation_middle.
Qed.

Lemma merge_loop_spec v mid hi fuel : ∀ r1 r2 p1 p2 q1 q2 i1 i2 u c,
  v = p1 ++ r1 ++ q1 → v = p2 ++ r2 ++ q2 →
  i1 = length p1 → mid = i1 + length r1 →
  i2 = length p2 → hi = i2 + length r2 →
  length r1 + length r2 ≤ fuel →
  ∃ c', merge_loop cmp fuel v mid hi i1 i2 u c
        = (u ++ lmerge cmp r1 r2, c').
Proof.
  induction fuel as [|f IH];
    intros r1 r2 p1 p2 q1 q2 i1 i2 u c Hv1 Hv2 Hi1 Hmid Hi2 Hhi Hf.
  { destruct r1, r2; simpl in *; try lia. exists c. by rewrite app_nil_r. }
  simpl.
  destruct r1 as [|x r1], r2 as [|y r2]; simpl in Hmid, Hhi, Hf.
  - replace (i1 <? mid) with false by (symmetry; apply Nat.ltb_ge; lia).
    replace (i2 <? hi) with false by (symmetry; apply Nat.ltb_ge; lia).
    exists c. by rewrite app_nil_r.
  - replace (i2 <? hi) with true by (symmetry; apply Nat.ltb_lt; lia).
    rewrite orb_true_r.
    replace (i1 =? mid) with true by (symmetry; apply Nat.eqb_eq; lia).
    assert (v !!! i2 = y) as -> by (rewrite Hv2; by apply lookup_total_at).
    destruct (IH [] r2 p1 (p2 ++ [y]) q1 q2 i1 (S i2) (u ++ [y]) c)
      as [c' E]; simpl; rewrite ?length_app; simpl; try lia; try done.
    { by rewrite Hv2, <-app_assoc. }
    exists c'. rewrite E, lmerge_nil_l, <-app_assoc. done.
  - replace (i1 <? mid) with true by (symmetry; apply Nat.ltb_lt; lia).
    rewrite orb_true_l.
    replace (i1 =? mid) with false by (symmetry; apply Nat.eqb_neq; lia).
    replace (i2 =? hi) with true by (symmetry; apply Nat.eqb_eq; lia).
    assert (v !!! i1 = x) as -> by (rewrite Hv1; by apply lookup_total_at).
    destruct (IH r1 [] (p1 ++ [x]) p2 q1 q2 (S i1) i2 (u ++ [x]) c)
      as [c' E]; simpl; rewrite ?length_app; simpl; try lia; try done.
    { by rewrite Hv1, <-app_assoc. }
    exists c'. rewrite E, lmerge_nil_r, <-app_assoc. done.
  - replace (i1 <? mid) with true by (symmetry; apply Nat.ltb_lt; lia).
    rewrite orb_true_l.
    replace (i1 =? mid) with false by (symmetry; apply Nat.eqb_neq; lia).
    replace (i2 =? hi) with false by (symmetry; apply Nat.eqb_neq; lia).
    assert (v !!! i1 = x) as -> by (rewrite Hv1; by apply lookup_total_at).
    assert (v !!! i2 = y) as -> by (rewrite Hv2; by apply lookup_total_at).
    rewrite lmerge_cons. destruct (cmp x y).
    + destruct (IH r1 (y :: r2) (p1 ++ [x]) p2 q1 q2 (S i1) i2
                  (u ++ [x]) (S c))
        as [c' E]; simpl; rewrite ?length_app; simpl; try lia; try done.
      { by rewrite Hv1, <-app_assoc. }
      exists c'. rewrite E, <-app_assoc. done.
    + destruct (IH (x :: r1) r2 p1 (p2 ++ [y]) q1 q2 i1 (S i2)
                  (u ++ [y]) (S c))
        as [c' E]; simpl; rewrite ?length_app; simpl; try lia; try done.
      { by rewrite Hv2, <-app_assoc. }
      exists c'. rewrite E, <-app_assoc. done.
Qed.
End merge_facts.

Section merge_sorted_facts.
Context {T : Type} `{!Inhabited T} (cmp : T → T → bool) (key : T → Z).
Hypothesis cmp_le : ∀ x y, cmp x y = le_cmp key x y.
Implicit Types a b s l u v : list T.

Lemma cmp_true x y : cmp x y = true ↔ (key x ≤ key y)%Z.
Proof. rewrite cmp_le. apply Z.leb_le. Qed.

Lemma cmp_false x y : cmp x y = false ↔ (key y < key x)%Z.
Proof. rewrite cmp_le. apply Z.leb_gt. Qed.

Lemma keys_sorted_cons x l :
  keys_sorted key (x :: l)
  ↔ (∀ y, y ∈ l → (key x ≤ key y)%Z) ∧ keys_sorted key l.
Proof.
  unfold keys_sorted. by rewrite StronglySorted_cons, Forall_forall.
Qed.

Lemma lmerge_sorted l1 : ∀ l2,
  keys_sorted key l1 → keys_sorted key l2 →
  keys_sorted key (lmerge cmp l1 l2).
Proof.
  induction l1 as [|x l1 IH1]; intros l2 H1 H2.
  { by rewrite lmerge_nil_l. }
  induction l2 as [|y l2 IH2].
  { by rewrite lmerge_nil_r. }
  apply keys_sorted_cons in H1 as [Hx H1].
  pose proof H2 as H2'. apply keys_sorted_cons in H2' as [Hy H2'].
  rewrite lmerge_cons. destruct (cmp x y) eqn:Hxy.
  - apply cmp_true in Hxy. apply keys_sorted_cons. split; [|by apply IH1].
    intros z Hz. rewrite lmerge_perm in Hz.
    apply elem_of_app in Hz as [Hz|Hz]; [by apply Hx|].
    apply elem_of_cons in Hz as [->|Hz]; [done|].
    specialize (Hy _ Hz). lia.
  - apply cmp_false in Hxy. apply keys_sorted_cons.
    split; [|by apply IH2].
    intros z Hz. rewrite lmerge_perm in Hz.
    apply elem_of_app in Hz as [Hz|Hz]; [|by apply Hy].
    apply elem_of_cons in Hz as [->|Hz]; [lia|].
    specialize (Hx _ Hz). lia.
Qed.

(** Elements with the same key leave the merge in the order left run,
    then right run. *)
Lemma lmerge_stable k l1 : ∀ l2,
  keys_sorted key l1 →
  filter (λ x, key x = k) (lmerge cmp l1 l2)
  = filter (λ x, key x = k) l1 ++ filter (λ x, key x = k) l2.
Proof.
  induction l1 as [|x l1 IH1]; intros l2 H1.
  { by rewrite lmerge_nil_l. }
  induction l2 as [|y l2 IH2].
  { by rewrite lmerge_nil_r, app_nil_r. }
  pose proof H1 as H1'. apply keys_sorted_cons in H1' as [Hx H1'].
  rewrite lmerge_cons. destruct (cmp x y) eqn:Hxy.
  - rewrite !(filter_cons _ x). rewrite IH1 by done.
    by destruct (decide (key x = k)).
  - apply cmp_false in Hxy.
    rewrite !(filter_cons _ y). rewrite IH2.
    destruct (decide (key y = k)) as [Hk|Hk]; [|done].
    assert (filter (λ z, key z = k) (x :: l1) = []) as ->; [|done].
    apply filter_none.
    intros z [->|Hz]%elem_of_cons; [lia|].
    specialize (Hx _ Hz). lia.
Qed.

Lemma merge_spec a l1 l2 b lo hi c :
  lo = length a → length l1 = (length l1 + length l2) / 2 →
  hi = lo + length l1 + length l2 →
  ∃ c', merge cmp (a ++ (l1 ++ l2) ++ b) lo hi c
        = (a ++ lmerge cmp l1 l2 ++ b, c').
Proof.
  intros Hlo Hmid Hhi. unfold merge.
  replace (hi - lo) with (length l1 + length l2) by lia.
  rewrite <-Hmid.
  destruct (merge_loop_spec cmp (a ++ (l1 ++ l2) ++ b) (lo + length l1) hi
              (length l1 + length l2) l1 l2 a (a ++ l1) (l2 ++ b) b
              lo (lo + length l1) [] c) as [c' E];
    rewrite ?length_app; try lia; try done.
  { by rewrite <-!app_assoc. }
  { by rewrite <-!app_assoc. }
  rewrite E. exists c'. simpl. f_equal.
  apply inserts_middle; [done|].
  by rewrite lmerge_perm.
Qed.
End merge_sorted_facts.

(** * The merge sorts *)

Section merge_sort_facts.
Context {T : Type} `{!Inhabited T} (cmp : T → T → bool) (key : T → Z).
Implicit Types a b s l u v : list T.

Lemma halve s :
  ∃ l1 l2, s = l1 ++ l2 ∧ length l1 = length s / 2.
Proof.
  exists (take (length s / 2) s), (drop (length s / 2) s). split.
  - by rewrite take_drop.
  - rewrite length_take.
    pose proof (Nat.Div0.div_le_upper_bound (length s) 2 (length s)).
    lia.
Qed.

(** With more fuel than the range is long, the helper returns: it
    rewrites the range [s] of [a ++ s ++ b] into a permutation of
    itself; when the comparator is [le_cmp key] the range comes out
    sorted, elements of equal key in their order of arrival. *)
Lemma merge_sort_helper_spec fuel : ∀ s a b c,
  length s < fuel →
  ∃ s' c',
    merge_sort_helper cmp fuel (a ++ s ++ b)
      (length a) (length a + length s) c = Some (a ++ s' ++ b, c')
    ∧ s ≡ₚ s'
    ∧ ((∀ x y, cmp x y = le_cmp key x y) →
       keys_sorted key s'
       ∧ ∀ k, filter (λ x, key x = k) s' = filter (λ x, key x = k) s).
Proof.
  induction fuel as [|f IH]; intros s a b c Hf; [lia|]. simpl.
  replace (length a + length s - length a) with (length s) by lia.
  destruct (Nat.leb_spec (length s) 1) as [Hs|Hs].
  { exists s, c. split_and!; [done..|]. intros _.
    split; [by apply short_keys_sorted|done]. }
  destruct (halve s) as (l1 & l2 & -> & Hl1).
  rewrite length_app in Hf, Hs, Hl1. rewrite length_app, <-Hl1.
  assert (0 < length l1 ∧ 0 < length l2) as [Hp1 Hp2].
  { pose proof (Nat.div_lt (length l1 + length l2) 2 ltac:(lia) ltac:(lia)).
    destruct (length l1) eqn:E; [|lia].
    symmetry in Hl1. apply Nat.div_small_iff in Hl1; lia. }
  destruct (IH l1 a (l2 ++ b) c) as (l1' & c1 & E1 & P1 & S1); [lia|].
  rewrite <-(app_assoc l1 l2 b). rewrite E1. simpl.
  pose proof (Permutation_length P1) as HL1.
  destruct (IH l2 (a ++ l1') b c1) as (l2' & c2 & E2 & P2 & S2); [lia|].
  rewrite length_app, <-app_assoc, <-HL1 in E2.
  rewrite Nat.add_assoc, E2. simpl.
  pose proof (Permutation_length P2) as HL2.
  destruct (merge_spec cmp a l1' l2' b (length a)
              (length a + length l1 + length l2) c2) as [c3 E3];
    [done|by rewrite <-HL1, <-HL2|lia|].
  rewrite <-(app_assoc l1' l2' b), (app_assoc a l1') in E3. rewrite E3.
  exists (lmerge cmp l1' l2'), c3. split_and!; [done|..].
  - by rewrite lmerge_perm, P1, P2.
  - intros Hcmp. destruct (S1 Hcmp) as [S1s S1k].
    destruct (S2 Hcmp) as [S2s S2k]. split.
    + by apply lmerge_sorted.
    + intros k. rewrite (lmerge_stable cmp key Hcmp) by done.
      by rewrite S1k, S2k, filter_app.
Qed.

Lemma pmerge_sort_helper_seq fuel : ∀ v lo hi c,
  pmerge_sort_helper cmp fuel v lo hi c
  = merge_sort_helper cmp fuel v lo hi c.
Proof.
  induction fuel as [|f IH]; intros; simpl; [done|].
  destruct (hi - lo <=? 1); [done|]. rewrite IH.
  destruct (merge_sort_helper _ _ _ _ _ _) as [[v1 c1]|]; simpl; [|done].
  by rewrite IH.
Qed.
End merge_sort_facts.

(** * Bubble sort *)

Section bubble_facts.
Context {T : Type} `{!Inhabited T} (cmp : T → T → bool) (key : T → Z).
Hypothesis cmp_le : ∀ x y, cmp x y = le_cmp key x y.
Implicit Types s t l v pre post : list T.

Lemma bubble_inner_spec l : ∀ pre x post c j,
  j = length pre →
  bubble_inner cmp (length l) j (pre ++ x :: l ++ post) c
  = (pre ++ bubble_list cmp x l ++ post, c + length l).
Proof.
  induction l as [|y l IH]; intros pre x post c j Hj; simpl.
  { by rewrite Nat.add_0_r. }
  replace (j + 1) with (length (pre ++ [x])) at 1
    by (rewrite length_app; simpl; lia).
  replace (pre ++ x :: y :: l ++ post)
    with ((pre ++ [x]) ++ y :: l ++ post) at 1 by (by rewrite <-app_assoc).
  rewrite (lookup_total_at (pre ++ [x]) y) by done.
  rewrite (lookup_total_at pre x) by done.
  destruct (cmp y x).
  - rewrite swap_adjacent by done.
    replace (pre ++ y :: x :: l ++ post)
      with ((pre ++ [y]) ++ x :: l ++ post) by (by rewrite <-app_assoc).
    rewrite IH by (rewrite length_app; simpl; lia).
    rewrite <-app_assoc. simpl. f_equal. lia.
  - replace (pre ++ x :: y :: l ++ post)
      with ((pre ++ [x]) ++ y :: l ++ post) by (by rewrite <-app_assoc).
    rewrite IH by (rewrite length_app; simpl; lia).
    rewrite <-app_assoc. simpl. f_equal. lia.
Qed.

Lemma bubble_list_perm l : ∀ x, bubble_list cmp x l ≡ₚ x :: l.
Proof.
  induction l as [|y l IH]; intros x; simpl; [done|].
  destruct (cmp y x); rewrite IH; [apply perm_swap|done].
Qed.

(** A pass leaves a largest element last. *)
Lemma bubble_list_last l : ∀ x,
  ∃ l' m, bubble_list cmp x l = l' ++ [m]
          ∧ ∀ y, y ∈ l' → (key y ≤ key m)%Z.
Proof.
  induction l as [|y l IH]; intros x; simpl.
  { exists [], x. split; [done|]. by intros y Hy%elem_of_nil. }
  destruct (cmp y x) eqn:Hyx.
  - destruct (IH x) as (l' & m & E & Hm).
    exists (y :: l'), m. split; [by rewrite E|].
    intros z [->|Hz]%elem_of_cons; [|by apply Hm].
    apply (cmp_true cmp key cmp_le) in Hyx.
    assert (x ∈ l' ++ [m]) as Hx.
    { rewrite <-E, bubble_list_perm. left. }
    apply elem_of_app in Hx as [Hx|Hx%list_elem_of_singleton].
    + specialize (Hm _ Hx). lia.
    + by subst.
  - destruct (IH y) as (l' & m & E & Hm).
    exists (x :: l'), m. split; [by rewrite E|].
    intros z [->|Hz]%elem_of_cons; [|by apply Hm].
    apply (cmp_false cmp key cmp_le) in Hyx.
    assert (y ∈ l' ++ [m]) as Hy.
    { rewrite <-E, bubble_list_perm. left. }
    apply elem_of_app in Hy as [Hy|Hy%list_elem_of_singleton].
    + specialize (Hm _ Hy). lia.
    + subst. lia.
Qed.

Lemma bubble_outer_spec n : ∀ s t c i,
  length s = n → i = length t → keys_sorted key t →
  (∀ y z, y ∈ s → z ∈ t → (key y ≤ key z)%Z) →
  ∃ v' c', bubble_outer cmp n i (s ++ t) c = (v', c')
           ∧ s ++ t ≡ₚ v' ∧ keys_sorted key v'.
Proof.
  induction n as [|n IH]; intros s t c i Hs Hi Ht Hst; simpl.
  { destruct s; [|done]. by exists t, c. }
  destruct s as [|x l]; simpl in Hs; [done|].
  replace (length ((x :: l) ++ t) - i - 1) with (length l)
    by (rewrite length_app; simpl; lia).
  pose proof (bubble_inner_spec l [] x t c 0 eq_refl) as Hpass.
  change ([] ++ x :: l ++ t) with ((x :: l) ++ t) in Hpass.
  rewrite Hpass. clear Hpass. simpl.
  destruct (bubble_list_last l x) as (l' & m & E & Hm).
  pose proof (bubble_list_perm l x) as P. rewrite E in P |- *.
  rewrite <-app_assoc. simpl.
  assert (∀ y, y ∈ l' ++ [m] → y ∈ x :: l) as Hin.
  { intros y Hy. by rewrite <-P. }
  destruct (IH l' (m :: t) (c + length l) (S i)) as (v' & c' & E' & P' & S').
  - apply Permutation_length in P. rewrite length_app in P.
    simpl in P. lia.
  - simpl. lia.
  - apply keys_sorted_cons. split; [|done].
    intros z Hz. apply Hst; [|done]. apply Hin, elem_of_app. right. left.
  - intros y z Hy [->|Hz]%elem_of_cons; [by apply Hm|].
    apply Hst; [|done]. apply Hin, elem_of_app. by left.
  - exists v', c'. split_and!; [done| |done].
    rewrite <-P'. change (x :: l ++ t) with ((x :: l) ++ t).
    rewrite <-P, <-app_assoc. done.
Qed.
End bubble_facts.

(** * Selection sort *)

Section selection_facts.
Context {T : Type} `{!Inhabited T} (cmp : T → T → bool) (key : T → Z).
Hypothesis cmp_le : ∀ x y, cmp x y = le_cmp key x y.
Implicit Types s t l v pre post m q : list T.

(** The scan ends on the index of a least key of [v[lo ..]]. *)
Lemma selection_scan_spec lo n : ∀ v j sm c,
  j + n = length v → lo ≤ sm < j →
  (∀ k, lo ≤ k < j → (key (v !!! sm) ≤ key (v !!! k))%Z) →
  ∃ sm' c', selection_scan cmp n v j sm c = (sm', c')
    ∧ lo ≤ sm' < length v
    ∧ ∀ k, lo ≤ k < length v → (key (v !!! sm') ≤ key (v !!! k))%Z.
Proof.
  induction n as [|n IH]; intros v j sm c Hn Hsm Hmin; simpl.
  { exists sm, c. split_and!; [done|lia..|].
    intros k Hk. apply Hmin. lia. }
  destruct (cmp (v !!! j) (v !!! sm)) eqn:Hc.
  - apply (cmp_true cmp key cmp_le) in Hc.
    apply IH; [lia..|]. intros k Hk.
    destruct (decide (k = j)) as [->|]; [done|].
    specialize (Hmin k ltac:(lia)). lia.
  - apply (cmp_false cmp key cmp_le) in Hc.
    apply IH; [lia..|]. intros k Hk.
    destruct (decide (k = j)) as [->|]; [lia|].
    apply Hmin. lia.
Qed.

Lemma swap_to_front pre s i sm :
  i = length pre → i ≤ sm < length (pre ++ s) →
  ∃ s', swap i sm (pre ++ s) = pre ++ (pre ++ s) !!! sm :: s'
        ∧ s ≡ₚ (pre ++ s) !!! sm :: s'.
Proof.
  intros Hi Hsm. rewrite length_app in Hsm.
  destruct s as [|x l]; simpl in Hsm; [lia|].
  destruct (decide (sm = i)) as [->|Hne].
  - exists l. rewrite swap_same, (lookup_total_at pre x l) by done. done.
  - destruct (split_at l (sm - i - 1)) as (m & y & q & -> & Hm); [lia|].
    exists (m ++ x :: q).
    assert ((pre ++ x :: m ++ y :: q) !!! sm = y) as ->.
    { replace (pre ++ x :: m ++ y :: q) with ((pre ++ x :: m) ++ y :: q)
        by (by rewrite <-app_assoc).
      apply lookup_total_at. rewrite length_app. simpl. lia. }
    split.
    + apply swap_spec; lia.
    + rewrite <-!Permutation_middle. apply perm_swap.
Qed.

Lemma selection_pass_spec n : ∀ pre s c i,
  length s = n → i = length pre → keys_sorted key pre →
  (∀ y z, y ∈ pre → z ∈ s → (key y ≤ key z)%Z) →
  ∃ v' c', selection_pass cmp n i (pre ++ s) c = (v', c')
           ∧ pre ++ s ≡ₚ v' ∧ keys_sorted key v'.
Proof.
  induction n as [|n IH]; intros pre s c i Hs Hi Hpre Hps; simpl.
  { destruct s; [|done]. exists (pre ++ []), c. by rewrite app_nil_r. }
  destruct (selection_scan_spec i (length (pre ++ s) - (i + 1))
              (pre ++ s) (i + 1) i c)
    as (sm & c' & E & Hsm & Hmin).
  { rewrite length_app. lia. }
  { lia. }
  { intros k Hk. replace k with i by lia. done. }
  rewrite E.
  destruct (swap_to_front pre s i sm Hi Hsm) as (s' & Esw & P).
  rewrite Esw. set (y := (pre ++ s) !!! sm) in *.
  assert (∀ z, z ∈ s → (key y ≤ key z)%Z) as Hy.
  { intros z Hz. apply list_elem_of_lookup_total in Hz as (k & Hk & <-).
    specialize (Hmin (i + k)). rewrite length_app in Hmin.
    rewrite Hi, lookup_total_app_r, Nat.add_comm, Nat.add_sub in Hmin by lia.
    apply Hmin. lia. }
  assert (y ∈ s) as Hys by (rewrite P; left).
  destruct (IH (pre ++ [y]) s' c' (S i)) as (v' & c'' & E' & P' & S').
  - apply Permutation_length in P. simpl in P. lia.
  - rewrite length_app. simpl. lia.
  - apply StronglySorted_app_2; [|done|by apply short_keys_sorted].
    intros y1 y2 Hy1 ->%list_elem_of_singleton. by apply Hps.
  - intros y1 z [Hy1| ->%list_elem_of_singleton]%elem_of_app Hz.
    + apply Hps; [done|]. rewrite P. by right.
    + apply Hy. rewrite P. by right.
  - rewrite <-app_assoc in E'. simpl in E'. rewrite E'.
    exists v', c''. split_and!; [done| |done].
    rewrite <-P', <-app_assoc. simpl. by rewrite P.
Qed.
End selection_facts.

(** * Insertion sort *)

Section insertion_facts.
Context {T : Type} `{!Inhabited T} (cmp : T → T → bool) (key : T → Z).
Hypothesis cmp_le : ∀ x y, cmp x y = le_cmp key x y.
Implicit Types s t l v pre post p q : list T.

(** The search stops on the first element of the sorted prefix whose key
    exceeds that of [x = v[i]]. *)
Lemma insertion_find_spec x post fuel : ∀ p1 p2 j c,
  j = length p1 → length p2 ≤ fuel →
  (∀ y, y ∈ p1 → (key y ≤ key x)%Z) →
  ∃ q1 q2 c',
    insertion_find cmp fuel (p1 ++ p2 ++ x :: post)
      (length p1 + length p2) j c = (length q1, c')
    ∧ p1 ++ p2 = q1 ++ q2
    ∧ (∀ y, y ∈ q1 → (key y ≤ key x)%Z)
    ∧ (∀ z, head q2 = Some z → (key x < key z)%Z).
Proof.
  induction fuel as [|f IH]; intros p1 p2 j c Hj Hf Hp1; simpl.
  { destruct p2; simpl in Hf; [|lia].
    exists p1, [], c. by rewrite Hj. }
  destruct p2 as [|z p2]; simpl in *.
  - replace (j <? length p1 + 0) with false
      by (symmetry; apply Nat.ltb_ge; lia).
    exists p1, [], c. by rewrite Hj.
  - replace (j <? length p1 + S (length p2)) with true
      by (symmetry; apply Nat.ltb_lt; lia).
    rewrite (lookup_total_at p1 z) by done.
    assert ((p1 ++ z :: p2 ++ x :: post) !!! (length p1 + S (length p2)) = x)
      as ->.
    { replace (p1 ++ z :: p2 ++ x :: post)
        with ((p1 ++ z :: p2) ++ x :: post) by (by rewrite <-app_assoc).
      apply lookup_total_at. rewrite length_app. simpl. lia. }
    destruct (cmp z x) eqn:Hzx.
    + apply (cmp_true cmp key cmp_le) in Hzx.
      destruct (IH (p1 ++ [z]) p2 (S j) (S c))
        as (q1 & q2 & c' & E & Hq & Hq1 & Hq2).
      { rewrite length_app. simpl. lia. }
      { lia. }
      { intros y [Hy| ->%list_elem_of_singleton]%elem_of_app; auto. }
      rewrite length_app, <-app_assoc in E. simpl in E.
      replace (length p1 + 1 + length p2)
        with (length p1 + S (length p2)) in E by lia.
      exists q1, q2, c'. split_and!; [done| |done..].
      by rewrite <-Hq, <-app_assoc.
    + apply (cmp_false cmp key cmp_le) in Hzx.
      exists p1, (z :: p2), (S c). rewrite Hj. split_and!; [done..|].
      intros z' [= <-]. done.
Qed.

(** The swaps rotate [x = v[i]] down to position [j]. *)
Lemma insertion_shift_spec p2 : ∀ p1 x post i j,
  j = length p1 → i = length p1 + length p2 →
  insertion_shift (length p2) (p1 ++ p2 ++ x :: post) i j
  = p1 ++ x :: p2 ++ post.
Proof.
  induction p2 as [|y p2 IH]; intros p1 x post i j Hj Hi; simpl; [done|].
  simpl in Hi.
  replace (j <? i) with true by (symmetry; apply Nat.ltb_lt; lia).
  rewrite (swap_spec p1 y p2 x post) by lia.
  replace (p1 ++ x :: p2 ++ y :: post)
    with ((p1 ++ [x]) ++ p2 ++ y :: post) by (by rewrite <-app_assoc).
  rewrite IH by (rewrite length_app; simpl; lia).
  by rewrite <-app_assoc.
Qed.

Lemma insertion_pass_spec n : ∀ pre s c i,
  length s = n → i = length pre → 0 < i → keys_sorted key pre →
  ∃ v' c', insertion_pass cmp n i (pre ++ s) c = (v', c')
           ∧ pre ++ s ≡ₚ v' ∧ keys_sorted key v'.
Proof.
  induction n as [|n IH]; intros pre s c i Hs Hi Hpos Hpre; simpl.
  { destruct s; [|done]. exists (pre ++ []), c. by rewrite app_nil_r. }
  destruct s as [|x post]; simpl in Hs; [done|].
  destruct (split_at pre (i - 1)) as (pre' & w & tl & Epre & Hpre'); [lia|].
  destruct tl as [|? ?].
  2:{ rewrite Epre, length_app in Hi. simpl in Hi. lia. }
  rewrite (lookup_total_at pre x post) by done.
  assert ((pre ++ x :: post) !!! (i - 1) = w) as ->.
  { rewrite Epre, <-app_assoc. simpl. by apply lookup_total_at. }
  destruct (cmp x w) eqn:Hxw.
  - destruct (insertion_find_spec x post i [] pre 0 (S c))
      as (q1 & q2 & c' & E & Hq & Hq1 & Hq2); [done|lia|..].
    { by intros y Hy%elem_of_nil. }
    simpl in E, Hq. rewrite <-Hi in E. rewrite E.
    assert (i - length q1 = length q2) as ->.
    { rewrite Hi, Hq, length_app. lia. }
    rewrite Hq, <-app_assoc.
    rewrite insertion_shift_spec
      by (rewrite ?Hi, ?Hq, ?length_app; done).
    rewrite Hq in Hpre. apply StronglySorted_app in Hpre as (Hc & Hs1 & Hs2).
    destruct (IH (q1 ++ x :: q2) post c' (S i))
      as (v' & c'' & E' & P' & S'); [lia|..].
    { rewrite Hi, Hq, !length_app. simpl. lia. }
    { lia. }
    { apply StronglySorted_app_2; [|done|].
      - intros y1 y2 Hy1 [->|Hy2]%elem_of_cons; [by apply Hq1|by apply Hc].
      - apply keys_sorted_cons. split; [|done].
        intros y Hy. destruct q2 as [|z q2]; [by apply elem_of_nil in Hy|].
        specialize (Hq2 z eq_refl).
        apply elem_of_cons in Hy as [->|Hy]; [lia|].
        apply keys_sorted_cons in Hs2 as [Hz _].
        specialize (Hz _ Hy). lia. }
    rewrite <-app_assoc in E'. simpl in E'. rewrite E'.
    exists v', c''. split_and!; [done| |done].
    rewrite <-P', <-!app_assoc. simpl.
    by rewrite <-!Permutation_middle.
  - apply (cmp_false cmp key cmp_le) in Hxw.
    destruct (IH (pre ++ [x]) post (S c) (S i))
      as (v' & c'' & E' & P' & S'); [lia|..].
    { rewrite length_app. simpl. lia. }
    { lia. }
    { apply StronglySorted_app_2; [|done|by apply short_keys_sorted].
      intros y1 y2 Hy1 ->%list_elem_of_singleton.
      rewrite Epre in Hy1, Hpre.
      apply elem_of_app in Hy1 as [Hy1| ->%list_elem_of_singleton]; [|lia].
      pose proof (StronglySorted_app_1_elem_of _ _ _ y1 w Hpre Hy1) as Hw.
      simpl in Hw. specialize (Hw ltac:(left)). lia. }
    rewrite <-app_assoc in E'. simpl in E'. rewrite E'.
    exists v', c''. split_and!; [done| |done].
    by rewrite <-P', <-app_assoc.
Qed.
End insertion_facts.

(** * Each sort of [sorting.h] sorts *)

Section sorts_correct.
Context {T : Type} `{!Inhabited T} (key : T → Z).
Implicit Types v : list T.

Let cmp_le : ∀ x y : T, le_cmp key x y = le_cmp key x y := λ _ _, eq_refl.

Lemma selection_sort_sorts v :
  sorts key v (Some (selection_sort (le_cmp key) v)).
Proof.
  destruct (selection_pass_spec (le_cmp key) key cmp_le
              (length v) [] v 0 0) as (v' & c' & E & P & Hsorted);
    [done|done|constructor|by intros y z Hy%elem_of_nil|].
  exists v', c'. split_and!; [by rewrite <-E|done|].
  by apply keys_sorted_ordered.
Qed.

Lemma insertion_sort_sorts v :
  sorts key v (Some (insertion_sort (le_cmp key) v)).
Proof.
  destruct v as [|x s].
  { exists [], 0. split_and!; [done..|]. intros i Hi. simpl in Hi. lia. }
  destruct (insertion_pass_spec (le_cmp key) key cmp_le
              (length s) [x] s 0 1) as (v' & c' & E & P & Hsorted);
    [done|done|lia|by apply short_keys_sorted|].
  exists v', c'. split_and!; [|done|by apply keys_sorted_ordered].
  unfold insertion_sort. simpl length.
  replace (S (length s) - 1) with (length s) by lia.
  by rewrite <-E.
Qed.

Lemma bubble_sort_sorts v :
  sorts key v (Some (bubble_sort (le_cmp key) v)).
Proof.
  unfold bubble_sort. destruct (Nat.leb_spec (length v) 1) as [Hv|Hv].
  { exists v, 0. split_and!; [done..|].
    by apply keys_sorted_ordered, short_keys_sorted. }
  destruct (bubble_outer_spec (le_cmp key) key cmp_le
              (length v) v [] 0 0) as (v' & c' & E & P & Hsorted);
    [done|done|constructor|by intros y z _ Hz%elem_of_nil|].
  rewrite app_nil_r in E, P.
  exists v', c'. split_and!; [by rewrite <-E|done|].
  by apply keys_sorted_ordered.
Qed.

Lemma merge_sort_sorts v : sorts key v (merge_sort (le_cmp key) v).
Proof.
  destruct (merge_sort_helper_spec (le_cmp key) key
              (S (length v)) v [] [] 0) as (s' & c' & E & P & Hsorted); [lia|].
  simpl in E. rewrite !app_nil_r in E.
  exists s', c'. split_and!; [done..|].
  apply keys_sorted_ordered. by apply Hsorted.
Qed.

Lemma pmerge_sort_sorts v : sorts key v (pmerge_sort (le_cmp key) v).
Proof.
  unfold pmerge_sort. rewrite pmerge_sort_helper_seq. apply merge_sort_sorts.
Qed.
End sorts_correct.

(** * The fuel of the recursive helpers

    A helper that returns with some fuel returns the same with more: the
    fuel [v.size() + 1] the sorts start with only bounds the depth, it
    does not shape the result. *)

Section fuel_facts.
Context {T : Type} `{!Inhabited T} (cmp : T → T → bool).
Implicit Types v : list T.

Lemma quick_with_unfold pick fuel v lo hi c :
  quick_with cmp pick (S fuel) v lo hi c
  = if hi - lo <=? 1 then Some (v, c) else
    let '(v1, p, c1) := partition cmp v lo hi (pick lo hi) c in
    '(v2, c2) ← quick_with cmp pick fuel v1 lo (lo + p) c1;
    quick_with cmp pick fuel v2 (lo + p + 1) hi c2.
Proof. done. Qed.

Lemma quick_with_fuel_mono pick fuel : ∀ v lo hi c r,
  quick_with cmp pick fuel v lo hi c = Some r →
  quick_with cmp pick (S fuel) v lo hi c = Some r.
Proof.
  induction fuel as [|f IH]; intros v lo hi c r Hr; [done|].
  rewrite quick_with_unfold in Hr |- *.
  destruct (hi - lo <=? 1); [done|].
  destruct (partition _ _ _ _ _ _) as [[v1 p] c1].
  destruct (quick_with cmp pick f v1 lo (lo + p) c1) as [[v2 c2]|] eqn:E1;
    [|done].
  rewrite (IH _ _ _ _ _ E1). simpl in *. by apply IH.
Qed.

Lemma merge_sort_helper_unfold fuel v lo hi c :
  merge_sort_helper cmp (S fuel) v lo hi c
  = if hi - lo <=? 1 then Some (v, c) else
    '(v1, c1) ← merge_sort_helper cmp fuel v lo (lo + (hi - lo) / 2) c;
    '(v2, c2) ← merge_sort_helper cmp fuel v1 (lo + (hi - lo) / 2) hi c1;
    Some (merge cmp v2 lo hi c2).
Proof. done. Qed.

Lemma merge_sort_helper_fuel_mono fuel : ∀ v lo hi c r,
  merge_sort_helper cmp fuel v lo hi c = Some r →
  merge_sort_helper cmp (S fuel) v lo hi c = Some r.
Proof.
  induction fuel as [|f IH]; intros v lo hi c r Hr; [done|].
  rewrite merge_sort_helper_unfold in Hr |- *.
  destruct (hi - lo <=? 1); [done|].
  destruct (merge_sort_helper cmp f v lo _ c) as [[v1 c1]|] eqn:E1; [|done].
  rewrite (IH _ _ _ _ _ E1). simpl in *.
  destruct (merge_sort_helper cmp f v1 _ hi c1) as [[v2 c2]|] eqn:E2; [|done].
  by rewrite (IH _ _ _ _ _ E2).
Qed.
End fuel_facts.

(** * A library sort that meets the contract *)

Section ref_sort_facts.
Context {T : Type} `{!Inhabited T} (cmp : T → T → bool).
Implicit Types l r v : list T.

Lemma strict_weak_on_irrefl v x :
  strict_weak_on cmp v → x ∈ v → cmp x x = false.
Proof. intros (Hirr & _ & _) Hx. by apply (proj1 (Forall_forall _ _) Hirr). Qed.

Lemma strict_weak_on_trans v x y z :
  strict_weak_on cmp v → x ∈ v → y ∈ v → z ∈ v →
  cmp x y = true → cmp y z = true → cmp x z = true.
Proof.
  intros (_ & Htr & _) Hx Hy Hz.
  rewrite Forall_forall in Htr. specialize (Htr x Hx).
  rewrite Forall_forall in Htr. specialize (Htr y Hy).
  rewrite Forall_forall in Htr. by apply Htr.
Qed.

Lemma ref_insert_spec v x l :
  strict_weak_on cmp v → x ∈ v → (∀ y, y ∈ l → y ∈ v) →
  sorted_wrt cmp l →
  ∃ r calls, ref_insert cmp x l = (r, calls)
    ∧ r ≡ₚ x :: l ∧ sorted_wrt cmp r
    ∧ ∀ a b, (a, b) ∈ calls → a ∈ v ∧ b ∈ v.
Proof.
  intros Hsw Hx. induction l as [|y l IH]; intros Hl Hs; simpl.
  { exists [x], []. split_and!; [done..| |].
    - repeat constructor.
    - by intros a b Hab%elem_of_nil. }
  assert (y ∈ v) as Hy by (apply Hl; left).
  apply StronglySorted_cons in Hs as [Hyl Hs]. rewrite Forall_forall in Hyl.
  destruct (cmp x y) eqn:Hxy.
  - exists (x :: y :: l), [(x, y)]. split_and!; [done..| |].
    + apply StronglySorted_cons. split.
      * apply Forall_forall. intros z [->|Hz]%elem_of_cons.
        -- destruct (cmp y x) eqn:Hyx; [|done].
           pose proof (strict_weak_on_trans v x y x Hsw Hx Hy Hx Hxy Hyx).
           pose proof (strict_weak_on_irrefl v x Hsw Hx). congruence.
        -- destruct (cmp z x) eqn:Hzx; [|done].
           assert (z ∈ v) as Hzv by (apply Hl; by right).
           pose proof (strict_weak_on_trans v z x y Hsw Hzv Hx Hy Hzx Hxy).
           specialize (Hyl z Hz). simpl in Hyl. congruence.
      * apply StronglySorted_cons. by rewrite Forall_forall.
    + intros a b [= -> ->]%list_elem_of_singleton. done.
  - destruct IH as (r & calls & E & P & Sr & Hc); [|done|].
    { intros z Hz. apply Hl. by right. }
    rewrite E. exists (y :: r), ((x, y) :: calls). split_and!; [done|..].
    + rewrite P. apply perm_swap.
    + apply StronglySorted_cons. split; [|done].
      apply Forall_forall. intros z Hz. rewrite P in Hz.
      apply elem_of_cons in Hz as [->|Hz]; [done|by apply Hyl].
    + intros a b [[= -> ->]|Hab]%elem_of_cons; [done|by apply Hc].
Qed.

Lemma ref_sorted_spec v l :
  strict_weak_on cmp v → (∀ y, y ∈ l → y ∈ v) →
  ∃ r calls, ref_sorted cmp l = (r, calls)
    ∧ l ≡ₚ r ∧ sorted_wrt cmp r
    ∧ ∀ a b, (a, b) ∈ calls → a ∈ v ∧ b ∈ v.
Proof.
  intros Hsw. induction l as [|x l IH]; intros Hl; simpl.
  { exists [], []. split_and!; [done..|constructor|].
    by intros a b Hab%elem_of_nil. }
  destruct IH as (r & calls & E & P & Sr & Hc).
  { intros z Hz. apply Hl. by right. }
  rewrite E.
  destruct (ref_insert_spec v x r Hsw) as (r' & calls' & E' & P' & Sr' & Hc');
    [apply Hl; left| |done|].
  { intros z Hz. rewrite <-P in Hz. apply Hl. by right. }
  rewrite E'. exists r', (calls ++ calls'). split_and!; [done| |done|].
  - by rewrite P', P.
  - intros a b [Hab|Hab]%elem_of_app; auto.
Qed.

(** [ref_sort] keeps the contract of [std::sort] at every call. *)
Lemma ref_sort_meets v : lib_sort_meets cmp (λ c, ref_sort c) v.
Proof.
  intros Hsw. unfold ref_sort. rewrite decide_True by done.
  destruct (ref_sorted_spec v v Hsw) as (r & calls & E & P & Sr & Hc);
    [done|].
  exists r, calls. by rewrite E.
Qed.
End ref_sort_facts.

(** * Publishing is exclusive *)

Section publish_facts.
Import Publish.

Lemma drawing_holds_mutex_initial n : drawing_holds_mutex (initial n).
Proof.
  intros t bars Ht. simpl in Ht.
  apply lookup_replicate in Ht as [? _]. done.
Qed.

Lemma drawing_holds_mutex_step w w' :
  drawing_holds_mutex w → step w w' → drawing_holds_mutex w'.
Proof.
  intros Hinv Hstep.
  destruct Hstep as [w|w t Ht|w t Ht Hfree|w t bars Ht|w t bars Ht|w t Ht];
    intros t' bars' Ht'; simpl in *.
  - apply lookup_app_Some in Ht' as [Ht'|[_ Ht']]; [by eapply Hinv|].
    apply list_lookup_singleton_Some in Ht' as [_ ?]. done.
  - apply list_lookup_insert_Some in Ht' as [(_ & ? & _)|[_ Ht']]; [done|].
    by eapply Hinv.
  - apply list_lookup_insert_Some in Ht' as [(-> & _ & _)|[_ Ht']]; [done|].
    apply Hinv in Ht'. congruence.
  - apply list_lookup_insert_Some in Ht' as [(<- & _ & _)|[_ Ht']].
    + by eapply Hinv.
    + by eapply Hinv.
  - apply list_lookup_insert_Some in Ht' as [(_ & ? & _)|[Hne Ht']]; [done|].
    apply Hinv in Ht, Ht'. congruence.
  - apply list_lookup_insert_Some in Ht' as [(_ & ? & _)|[_ Ht']]; [done|].
    by eapply Hinv.
Qed.

Lemma drawing_holds_mutex_reachable n w :
  reachable n w → drawing_holds_mutex w.
Proof.
  unfold reachable. revert w.
  apply (rtc_ind_r (λ w, drawing_holds_mutex w) (initial n)).
  - apply drawing_holds_mutex_initial.
  - intros w w' _ Hstep Hinv. by eapply drawing_holds_mutex_step.
Qed.
End publish_facts.

(** * [sort_setup] *)

Section setup_facts.
Import Animator.
Implicit Types data cps : list (list SortingDatum).
Implicit Types row b : list SortingDatum.

Lemma enqueue_selected_spec algos : ∀ i queue ths,
  ∃ idx, enqueue_selected algos i queue ths
         = (queue ++ idx, ths ++ replicate (length idx) no_thread)
       ∧ length idx = selected_count algos.
Proof.
  unfold selected_count.
  induction algos as [|a algos IH]; intros i queue ths; simpl.
  { exists []. simpl. by rewrite !app_nil_r. }
  destruct (selected a) eqn:Ha.
  - destruct (IH (S i) (queue ++ [i]) (ths ++ [no_thread]))
      as (idx & E & Hlen).
    exists (i :: idx). rewrite E, <-!app_assoc. simpl.
    rewrite filter_cons_True by done. simpl. by rewrite Hlen.
  - destruct (IH (S i) queue ths) as (idx & E & Hlen).
    exists idx. rewrite E.
    rewrite filter_cons_False by (by rewrite Ha). done.
Qed.

Lemma fill_base_spec n : ∀ i row rest,
  fill_base n i (row :: rest)
  = (row ++ ((λ m, datum (Z.of_nat m + 1)) <$> seq i n)) :: rest.
Proof.
  induction n as [|n IH]; intros i row rest; simpl.
  { by rewrite app_nil_r. }
  unfold push_back_at. simpl. rewrite IH, <-app_assoc. done.
Qed.

Lemma fill_copy_spec b n : ∀ i cps row rest j,
  j = S (length cps) → i + n ≤ length b →
  fill_copy n i j (b :: cps ++ row :: rest)
  = b :: cps ++ (row ++ recopy (take n (drop i b))) :: rest.
Proof.
  induction n as [|n IH]; intros i cps row rest j Hj Hn; simpl.
  { unfold recopy. simpl. by rewrite app_nil_r. }
  unfold push_back_at. rewrite Hj. simpl.
  rewrite (lookup_total_at cps row rest) by done.
  rewrite insert_app_r_alt, Nat.sub_diag by lia. simpl.
  rewrite IH by (done || lia).
  destruct (lookup_lt_is_Some_2 b i ltac:(lia)) as [x Hx].
  rewrite (drop_S b x i Hx). simpl.
  rewrite (list_lookup_total_correct b i x Hx).
  by rewrite <-app_assoc.
Qed.

Lemma make_copies_spec b n m : ∀ cps,
  length b = n →
  make_copies m (S (length cps)) n (b :: cps)
  = b :: cps ++ replicate m (recopy b).
Proof.
  induction m as [|m IH]; intros cps Hb; simpl.
  { by rewrite app_nil_r. }
  pose proof (fill_copy_spec b n 0 cps [] [] (S (length cps))) as Hfill.
  simpl in Hfill. rewrite Hfill by (done || lia).
  rewrite drop_0, take_ge by lia.
  specialize (IH (cps ++ [recopy b])).
  rewrite length_app in IH. simpl in IH.
  replace (length cps + 1) with (S (length cps)) in IH by lia.
  rewrite IH by done. by rewrite <-app_assoc.
Qed.

Lemma values_recopy row : values (recopy row) = values row.
Proof.
  unfold values, recopy. rewrite <-list_fmap_compose.
  by apply list_fmap_ext.
Qed.

Lemma length_recopy row : length (recopy row) = length row.
Proof. unfold recopy. by rewrite length_fmap. Qed.

Lemma length_one_to n : length (one_to n) = n.
Proof. unfold one_to. by rewrite length_fmap, length_seq. Qed.

(** What [sort_setup] builds when no session is open. *)
Lemma sort_setup_fresh shuffle st :
  no_session st → (∀ l, length (shuffle l) = length l) →
  ∃ idx,
    length idx = selected_count (sort_algos st)
    ∧ sort_queue (sort_setup shuffle st) = idx
    ∧ sort_threads (sort_setup shuffle st)
      = replicate (length idx) no_thread
    ∧ sort_n (sort_setup shuffle st) = sort_n st
    ∧ sort_algos (sort_setup shuffle st) = sort_algos st
    ∧ sort_data (sort_setup shuffle st)
      = match idx with
        | [] => []
        | _ => shuffle (one_to (sort_n st))
               :: replicate (length idx)
                    (recopy (shuffle (one_to (sort_n st))))
        end.
Proof.
  intros (Hd & Hq & Ht) Hshuffle. unfold sort_setup.
  destruct (enqueue_selected_spec (sort_algos st) 0
              (sort_queue st) (sort_threads st)) as (idx & E & Hlen).
  rewrite E, Hq, Ht, Hd. simpl. exists idx.
  destruct idx as [|i idx]; simpl; [done|].
  split_and!; [done..|].
  rewrite fill_base_spec. simpl.
  fold (one_to (sort_n st)).
  pose proof (make_copies_spec (shuffle (one_to (sort_n st))) (sort_n st)
                (S (length idx)) []) as Hcopies.
  simpl in Hcopies. rewrite Hcopies; [done|].
  by rewrite Hshuffle, length_one_to.
Qed.
End setup_facts.

(** * [sort_launch] and [sort_draw_data] *)

Section launch_facts.
Import Animator.
Implicit Types data : list (list SortingDatum).
Implicit Types st : state.

Lemma insert_lookup_total_id {A} `{!Inhabited A} (l : list A) i :
  <[i := l !!! i]> l = l.
Proof.
  destruct (decide (i < length l)) as [Hi|Hi].
  - apply list_insert_id. by apply list_lookup_lookup_total_lt.
  - apply list_insert_ge. lia.
Qed.

Lemma draw_row_end n : ∀ j i data, draw_row n j i true data = data.
Proof.
  induction n as [|n IH]; intros j i data; simpl; [done|].
  unfold draw_datum. simpl. rewrite !insert_lookup_total_id. apply IH.
Qed.

Lemma draw_rows_end m : ∀ i n data, draw_rows m i n true data = data.
Proof.
  induction m as [|m IH]; intros i n data; simpl; [done|].
  rewrite draw_row_end. apply IH.
Qed.

(** The final draw changes no datum. *)
Lemma sort_draw_data_end st :
  sort_data (sort_draw_data true st) = sort_data st.
Proof. unfold sort_draw_data. simpl. apply draw_rows_end. Qed.

(** Threads [i .. i + n) rewrite datasets [i .. i + n) only, each with
    the procedure queued at its own index. *)
Lemma run_threads_spec n : ∀ i st st',
  run_threads n i st = Some st' →
  sort_queue st' = sort_queue st
  ∧ sort_algos st' = sort_algos st
  ∧ sort_n st' = sort_n st
  ∧ length (sort_data st') = length (sort_data st)
  ∧ (∀ j, j < i ∨ i + n ≤ j → sort_data st' !! j = sort_data st !! j)
  ∧ (∀ j, i ≤ j < i + n → j < length (sort_data st) →
       ∃ c, sort (sort_algos st !!! (sort_queue st !!! j)) sort_cmp
              (sort_data st !!! j) = Some (sort_data st' !!! j, c)).
Proof.
  induction n as [|n IH]; intros i st st' Hrun; simpl in Hrun.
  { injection Hrun as <-. split_and!; [done..|]. intros j Hj. lia. }
  destruct (sort _ _ _) as [[v' c]|] eqn:Hsort; simpl in Hrun; [|done].
  apply IH in Hrun as (Hq & Ha & Hn & Hlen & Hframe & Hown).
  simpl in *. rewrite length_insert in Hlen, Hown.
  split_and!; [done..| |].
  - intros j Hj. rewrite Hframe by lia.
    apply list_lookup_insert_ne. lia.
  - intros j Hj Hlt. destruct (decide (j = i)) as [->|Hne].
    + exists c. rewrite Hsort. do 2 f_equal. symmetry.
      apply list_lookup_total_correct.
      rewrite Hframe by lia. by apply list_lookup_insert_eq.
    + destruct (Hown j ltac:(lia) Hlt) as [c' Hc'].
      exists c'. by rewrite list_lookup_total_insert_ne in Hc' by done.
Qed.
End launch_facts.

(** * The restart key *)

Section restart_facts.
Import Animator.
Implicit Types data : list (list SortingDatum).
Implicit Types src row old todo : list SortingDatum.

Lemma restart_row_spec src n : ∀ j old todo data i k,
  i ≠ k → data !! i = Some (old ++ todo) → data !! k = Some src →
  length old = j → length todo = n → j + n ≤ length src →
  restart_row n j i k data
  = <[i := old ++ revalue (drop j src) todo]> data.
Proof.
  induction n as [|n IH]; intros j old todo data i k Hik Hi Hk Hj Hn Hsrc;
    simpl.
  { destruct todo; [|done]. unfold revalue. simpl.
    symmetry. by apply list_insert_id. }
  destruct todo as [|d todo]; simpl in Hn; [done|].
  destruct (lookup_lt_is_Some_2 src j ltac:(lia)) as [s Hs].
  unfold set_value.
  rewrite (list_lookup_total_correct data k src Hk).
  rewrite (list_lookup_total_correct data i _ Hi).
  rewrite (list_lookup_total_correct src j s Hs).
  rewrite (lookup_total_at old d todo) by done.
  rewrite insert_app_r_alt by lia.
  replace (j - length old) with 0 by lia. simpl.
  pose proof (lookup_lt_Some _ _ _ Hi) as Hlen.
  rewrite (IH (S j) (old ++ [ {| value := value s; timer := timer d |} ])
             todo _ i k); try done.
  - rewrite list_insert_insert_eq. f_equal.
    rewrite (drop_S src s j Hs). unfold revalue. simpl.
    by rewrite <-app_assoc.
  - rewrite list_lookup_insert_eq by done. by rewrite <-app_assoc.
  - by rewrite list_lookup_insert_ne.
  - rewrite length_app. simpl. lia.
  - lia.
  - lia.
Qed.

Lemma values_revalue src row :
  length row = length src → values (revalue src row) = values src.
Proof.
  unfold values, revalue. revert src.
  induction row as [|d row IH]; intros [|s src] Hlen; simpl in *;
    try done.
  f_equal. apply IH. lia.
Qed.

Lemma length_revalue src row :
  length row = length src → length (revalue src row) = length row.
Proof.
  intros Hlen. unfold revalue. rewrite length_zip_with. lia.
Qed.

(** Rows [i .. i + m) take the values of row [k]; nothing else
    changes. *)
Lemma restart_rows_spec k n m : ∀ i data,
  i + m ≤ k → k < length data →
  (∀ r, r ≤ k → length (data !!! r) = n) →
  length (restart_rows m i k n data) = length data
  ∧ (∀ r, i ≤ r < i + m →
       values (restart_rows m i k n data !!! r) = values (data !!! k))
  ∧ (∀ r, r < i ∨ i + m ≤ r →
       restart_rows m i k n data !! r = data !! r).
Proof.
  induction m as [|m IH]; intros i data Him Hk Hrows; simpl.
  { split_and!; [done| |done]. intros r Hr. lia. }
  assert (data !! i = Some (data !!! i)) as Hi
    by (apply list_lookup_lookup_total_lt; lia).
  assert (data !! k = Some (data !!! k)) as Hk'
    by (apply list_lookup_lookup_total_lt; lia).
  pose proof (Hrows i ltac:(lia)) as Hleni.
  pose proof (Hrows k ltac:(lia)) as Hlenk.
  rewrite (restart_row_spec (data !!! k) n 0 [] (data !!! i) data i k)
    by (done || lia).
  simpl. rewrite drop_0.
  set (data' := <[i := revalue (data !!! k) (data !!! i)]> data).
  assert (∀ r, r ≠ i → data' !!! r = data !!! r) as Hother.
  { intros r Hr. unfold data'. by rewrite list_lookup_total_insert_ne. }
  assert (data' !!! i = revalue (data !!! k) (data !!! i)) as Hrow.
  { unfold data'. apply list_lookup_total_insert_eq. lia. }
  destruct (IH (S i) data') as (Hlen & Hvals & Hframe).
  - lia.
  - unfold data'. rewrite length_insert. lia.
  - intros r Hr. destruct (decide (r = i)) as [->|Hne].
    + rewrite Hrow, length_revalue; lia.
    + rewrite Hother by done. by apply Hrows.
  - unfold data' in Hlen. rewrite length_insert in Hlen.
    split_and!; [done| |].
    + intros r Hr. destruct (decide (r = i)) as [->|Hne].
      * rewrite (list_lookup_total_correct _ i (data' !!! i)).
        -- rewrite Hrow. apply values_revalue. lia.
        -- rewrite Hframe by lia.
           apply list_lookup_lookup_total_lt.
           unfold data'. rewrite length_insert. lia.
      * rewrite Hvals by lia. rewrite Hother by lia. done.
    + intros r Hr. rewrite Hframe by lia.
      unfold data'. apply list_lookup_insert_ne. lia.
Qed.
End restart_facts.

(** * What the specification states of [sorting.h] *)

Section sorting_statements.
Import Animator.

(** The eight sorts written out in [sorting.h] return, for every input
    and every random source, a permutation of the input whose adjacent
    pairs the comparator [x.value <= y.value] accepts. *)
Theorem sorting_h_sorts_sort {T : Type} `{!Inhabited T} (key : T → Z)
    (rnd : nat → nat → nat) (v : list T) :
  sorts key v (Some (selection_sort (le_cmp key) v))
  ∧ sorts key v (Some (insertion_sort (le_cmp key) v))
  ∧ sorts key v (Some (bubble_sort (le_cmp key) v))
  ∧ sorts key v (merge_sort (le_cmp key) v)
  ∧ sorts key v (pmerge_sort (le_cmp key) v)
  ∧ sorts key v (quick_sort (le_cmp key) v)
  ∧ sorts key v (pquick_sort (le_cmp key) v)
  ∧ sorts key v (rpquick_sort (le_cmp key) rnd v).
Proof.
  split_and!.
  - apply selection_sort_sorts.
  - apply insertion_sort_sorts.
  - apply bubble_sort_sorts.
  - apply merge_sort_sorts.
  - apply pmerge_sort_sorts.
  - apply quick_sort_sorts.
  - apply pquick_sort_sorts.
  - apply rpquick_sort_sorts.
Qed.

(** [sort_cmp] is the comparator [le_cmp value]. *)
Lemma sort_cmp_le x y : sort_cmp x y = le_cmp value x y.
Proof. done. Qed.

(** On a non-empty vector [x.value <= y.value] is not the strict weak
    ordering [std::sort] requires: it accepts every element against
    itself. *)
Lemma sort_cmp_not_strict_weak (d : SortingDatum) v :
  ¬ strict_weak_on sort_cmp (d :: v).
Proof.
  intros (Hirr & _). apply Forall_cons in Hirr as [Hd _].
  unfold sort_cmp in Hd. apply Z.leb_gt in Hd. lia.
Qed.

(** C1.  The eight sorts of [sorting.h] sort every vector under the
    comparator [x.value <= y.value], but [std_sort] is not among them:
    it hands that comparator to [std::sort], whose precondition it
    breaks on any non-empty vector, so a library that keeps to its
    contract may do anything; on seventeen equal data the library
    [ref_sort] returns nothing. *)
Theorem std_sort_undefined_on_ties :
  (∀ (key : SortingDatum → Z) rnd v,
     sorts key v (Some (selection_sort (le_cmp key) v))
     ∧ sorts key v (Some (insertion_sort (le_cmp key) v))
     ∧ sorts key v (Some (bubble_sort (le_cmp key) v))
     ∧ sorts key v (merge_sort (le_cmp key) v)
     ∧ sorts key v (pmerge_sort (le_cmp key) v)
     ∧ sorts key v (quick_sort (le_cmp key) v)
     ∧ sorts key v (pquick_sort (le_cmp key) v)
     ∧ sorts key v (rpquick_sort (le_cmp key) rnd v))
  ∧ (∀ (cmp : cmp_fn) v, lib_sort_meets cmp ref_sort v)
  ∧ ¬ strict_weak_on sort_cmp (replicate 17 (datum 1))
  ∧ std_sort sort_cmp ref_sort (replicate 17 (datum 1)) = None.
Proof.
  split_and!.
  - intros key rnd v. apply sorting_h_sorts_sort.
  - intros cmp v. apply (ref_sort_meets cmp v).
  - apply sort_cmp_not_strict_weak.
  - unfold std_sort, ref_sort. rewrite decide_False; [done|].
    apply sort_cmp_not_strict_weak.
Qed.
End sorting_statements.

Section partition_statements.
Context {T : Type} `{!Inhabited T}.
Implicit Types a b l v : list T.

Lemma range_split v lo p hi :
  lo ≤ p → p < hi → hi ≤ length v →
  ∃ a l1 l2 b,
    v = a ++ l1 ++ v !!! p :: l2 ++ b
    ∧ length a = lo ∧ length l1 = p - lo ∧ length l2 = hi - p - 1.
Proof.
  intros Hlo Hp Hhi.
  destruct (split_at v p) as (pre & x & post & Ev & Hpre); [lia|].
  assert (v !!! p = x) as ->.
  { rewrite Ev. by apply lookup_total_at. }
  exists (take lo pre), (drop lo pre),
    (take (hi - p - 1) post), (drop (hi - p - 1) post).
  split_and!.
  - rewrite (app_assoc (take lo pre)), take_drop.
    by rewrite (take_drop (hi - p - 1) post).
  - rewrite length_take. lia.
  - rewrite length_drop. lia.
  - rewrite length_take. rewrite Ev, length_app in Hhi. simpl in Hhi. lia.
Qed.

Lemma partition_buffers_spec cmp a l1 x l2 b :
  partition_buffers cmp (a ++ l1 ++ x :: l2 ++ b)
    (length a) (length a + length l1 + 1 + length l2)
    (length a + length l1)
  = (goes_left cmp x (l1 ++ l2), goes_right cmp x (l1 ++ l2)).
Proof.
  unfold partition_buffers.
  assert ((a ++ l1 ++ x :: l2 ++ b) !!! (length a + length l1) = x) as ->.
  { rewrite (app_assoc a l1). apply lookup_total_at.
    by rewrite length_app. }
  replace (length a + length l1 + 1 + length l2 - length a)
    with (length l1 + S (length l2)) by lia.
  rewrite partition_scan_add.
  replace (a ++ l1 ++ x :: l2 ++ b) with (a ++ l1 ++ (x :: l2 ++ b)) by done.
  rewrite partition_scan_run by lia.
  simpl partition_scan at 1.
  rewrite Nat.eqb_refl.
  replace (a ++ l1 ++ x :: l2 ++ b) with ((a ++ l1 ++ [x]) ++ l2 ++ b)
    by (by rewrite <-!app_assoc).
  rewrite partition_scan_run by (rewrite ?length_app; simpl; lia).
  simpl. unfold goes_left, goes_right. by rewrite !filter_app.
Qed.
End partition_statements.

Section partition_scenarios.
Context {T : Type} `{!Inhabited T} (key : T → Z).
Implicit Types a b l v : list T.

(** C3, as the code has it.  With the comparator [x.value <= y.value],
    [partition] puts every element other than the pivot whose key
    equals the pivot's into [u1], the buffer written to the left of the
    pivot; [u2] only receives keys strictly greater than the pivot's. *)
Theorem partition_ties_go_left v lo hi p :
  lo ≤ p → p < hi → hi ≤ length v →
  (∀ i, lo ≤ i < hi → i ≠ p → key (v !!! i) = key (v !!! p) →
     v !!! i ∈ (partition_buffers (le_cmp key) v lo hi p).1)
  ∧ (∀ x, x ∈ (partition_buffers (le_cmp key) v lo hi p).2 →
       (key (v !!! p) < key x)%Z).
Proof.
  intros Hlo Hp Hhi.
  destruct (range_split v lo p hi Hlo Hp Hhi)
    as (a & l1 & l2 & b & Ev & Ha & Hl1 & Hl2).
  set (vp := v !!! p) in *. clearbody vp.
  assert (partition_buffers (le_cmp key) v lo hi p
          = (goes_left (le_cmp key) vp (l1 ++ l2),
             goes_right (le_cmp key) vp (l1 ++ l2))) as ->.
  { rewrite Ev.
    replace lo with (length a) by done.
    replace hi with (length a + length l1 + 1 + length l2) by lia.
    replace p with (length a + length l1) by lia.
    apply partition_buffers_spec. }
  simpl. split.
  - intros i Hi Hne Hkey. apply list_elem_of_filter. split.
    { apply Z.leb_le. lia. }
    subst v. apply elem_of_app.
    destruct (decide (i < p)) as [Hlt|Hge].
    + left. rewrite lookup_total_app_r, lookup_total_app_l by lia.
      apply list_elem_of_lookup_total_2. lia.
    + right. rewrite lookup_total_app_r by lia.
      rewrite lookup_total_app_r by lia.
      replace (i - length a - length l1) with (S (i - p - 1)) by lia.
      simpl. rewrite lookup_total_app_l by lia.
      apply list_elem_of_lookup_total_2. lia.
  - intros x [Hx _]%list_elem_of_filter.
    unfold le_cmp in Hx. destruct (Z.leb_spec (key x) (key vp)); [done|lia].
Qed.
End partition_scenarios.

(** Witness of [partition_ties_go_left]: the range [0, 5) of the scenario
    with the pivot at index 2. *)
Lemma partition_ties_go_left_witness :
  (∀ i, 0 ≤ i < 5 → i ≠ 2 → scenario !!! i = scenario !!! 2 →
     scenario !!! i ∈ (partition_buffers (le_cmp id) scenario 0 5 2).1)
  ∧ (∀ x, x ∈ (partition_buffers (le_cmp id) scenario 0 5 2).2 →
       (scenario !!! 2%nat < x)%Z).
Proof.
  apply (partition_ties_go_left id scenario 0 5 2); simpl; lia.
Defined.

(** C3 as stated fails: in [[3; 3]] with the pivot at index 0 the other 3
    ties with the pivot and lands in [u1], not in the "not-less" buffer
    [u2]. *)
Lemma partition_tie_not_in_u2 :
  partition_buffers (le_cmp id) [3; 3]%Z 0 2 0 = ([3%Z], [])
  ∧ ¬ ([3; 3]%Z !!! 1) ∈ (partition_buffers (le_cmp id) [3; 3]%Z 0 2 0).2.
Proof.
  split; [reflexivity|]. vm_compute. by intros H%elem_of_nil.
Qed.

(** C2 as stated fails: the call returns 2, not 1, and index 1 holds 2,
    not the pivot value 3. *)
Lemma partition_scenario_not_index_1 :
  ¬ ((partition (le_cmp id) scenario 0 5 2 0).1.2 = 1
     ∧ (partition (le_cmp id) scenario 0 5 2 0).1.1 !! 1 = Some 3%Z).
Proof. vm_compute. intros [? _]. discriminate. Qed.

(** C2, as the code has it.  [partition] of [[4; 1; 3; 2; 5]] over
    [0, 5) with the pivot at index 2 leaves [[1; 2; 3; 4; 5]]: the pivot
    value 3 at index 2, [1; 2] to its left, [4; 5] to its right; it
    returns 2, the size of [u1], after 4 comparisons. *)
Theorem partition_scenario :
  partition (le_cmp id) scenario 0 5 2 0 = ([1; 2; 3; 4; 5]%Z, 2, 4)
  ∧ partition_buffers (le_cmp id) scenario 0 5 2 = ([1; 2]%Z, [4; 5]%Z).
Proof. split; reflexivity. Qed.

(** * Stability, termination, the empty vector *)

(** C4.  [merge_sort] returns and is stable under a comparator
    [key x <= key y]: for every key, the elements carrying it leave in
    the order they came in; on [[(5,a); (3,b); (5,c)]] compared on the
    first field it yields [[(3,b); (5,a); (5,c)]]. *)
Theorem merge_sort_stable {T : Type} `{!Inhabited T} (key : T → Z)
    (v : list T) :
  (∃ v' c, merge_sort (le_cmp key) v = Some (v', c)
     ∧ v ≡ₚ v'
     ∧ ∀ k, filter (λ x, key x = k) v' = filter (λ x, key x = k) v)
  ∧ ∃ c, merge_sort (le_cmp fst) tagged
         = Some ([(3, "b"); (5, "a"); (5, "c")]%Z, c).
Proof.
  split.
  - destruct (merge_sort_helper_spec (le_cmp key) key
                (S (length v)) v [] [] 0) as (s' & c' & E & P & Hs); [lia|].
    simpl in E. rewrite !app_nil_r in E.
    exists s', c'. split_and!; [done..|].
    by apply Hs.
  - eexists. reflexivity.
Qed.

(** The stability rests on the comparator accepting ties: under a strict
    [key x < key y] the merge takes the right-run element on a tie, and
    the scenario comes out as [[(3,b); (5,c); (5,a)]]. *)
Remark merge_sort_strict_ties :
  ∃ c, merge_sort (λ x y : Z * string, (x.1 <? y.1)%Z) tagged
       = Some ([(3, "b"); (5, "c"); (5, "a")]%Z, c).
Proof. eexists. reflexivity. Qed.

(** C7.  [rpquick_sort] returns on every vector, whatever the comparator
    answers and whatever numbers [rand()] gives: the recursion never
    outruns the fuel [v.size() + 1], and what it leaves is a permutation
    of the input. *)
Theorem rpquick_sort_terminates {T : Type} `{!Inhabited T}
    (cmp : T → T → bool) (rnd : nat → nat → nat) (v : list T) :
  ∃ v' c, rpquick_sort cmp rnd v = Some (v', c) ∧ v ≡ₚ v'.
Proof.
  unfold rpquick_sort. rewrite rpquick_sort_helper_with.
  destruct (quick_with_spec cmp (λ _, 0%Z)
              (λ lo hi, rnd lo hi `mod` (hi - lo) + lo)
              (λ lo hi, rnd_in_range rnd lo hi)
              (S (length v)) v [] [] 0) as (s' & c' & E & P & _); [lia|].
  simpl in E. rewrite !app_nil_r in E. by exists s', c'.
Qed.

(** Each [partition] call settles the pivot inside the range: what it
    returns is less than the length of the range, so both sub-ranges of
    the quick sorts are shorter than the range. *)
Lemma partition_settles_pivot {T : Type} `{!Inhabited T}
    (cmp : T → T → bool) (v : list T) lo hi p c :
  lo ≤ p → p < hi → hi ≤ length v →
  (partition cmp v lo hi p c).1.2 < hi - lo
  ∧ (partition cmp v lo hi p c).1.1 !!! (lo + (partition cmp v lo hi p c).1.2)
    = v !!! p
  ∧ length (partition cmp v lo hi p c).1.1 = length v.
Proof.
  intros Hlo Hp Hhi.
  destruct (range_split v lo p hi Hlo Hp Hhi)
    as (a & l1 & l2 & b & Ev & Ha & Hl1 & Hl2).
  set (vp := v !!! p) in *. clearbody vp.
  pose proof (partition_spec cmp a l1 vp l2 b lo hi p c) as Hspec.
  rewrite <-(app_assoc l1) in Hspec. simpl in Hspec. rewrite <-Ev in Hspec.
  rewrite Hspec by lia. simpl.
  pose proof (goes_left_right_length cmp vp (l1 ++ l2)) as Hlen.
  rewrite length_app in Hlen. split_and!.
  - lia.
  - rewrite <-app_assoc, (app_assoc a). apply lookup_total_at.
    rewrite length_app. lia.
  - rewrite Ev, !length_app. simpl. rewrite !length_app. simpl. lia.
Qed.

(** C8.  On the empty vector every one of the nine sorts returns the
    empty vector without a single comparator call, [std_sort] included,
    since [std::sort] keeps its contract on the empty range. *)
Theorem empty_vector_no_comparison {T : Type} `{!Inhabited T}
    (cmp : T → T → bool) (rnd : nat → nat → nat)
    (lib_sort : (T → T → bool) → list T → option (list T * list (T * T))) :
  lib_sort_meets cmp lib_sort [] →
  selection_sort cmp [] = ([], 0)
  ∧ insertion_sort cmp [] = ([], 0)
  ∧ bubble_sort cmp [] = ([], 0)
  ∧ merge_sort cmp [] = Some ([], 0)
  ∧ pmerge_sort cmp [] = Some ([], 0)
  ∧ quick_sort cmp [] = Some ([], 0)
  ∧ pquick_sort cmp [] = Some ([], 0)
  ∧ rpquick_sort cmp rnd [] = Some ([], 0)
  ∧ std_sort cmp lib_sort [] = Some ([], 0).
Proof.
  intros Hlib. split_and!; try reflexivity.
  destruct Hlib as (v' & calls & E & P & _ & Hcalls).
  { unfold strict_weak_on. by split_and!; constructor. }
  unfold std_sort. rewrite E. simpl.
  apply Permutation_nil_l in P as ->.
  destruct calls as [|[x y] calls]; [done|].
  destruct (Hcalls x y ltac:(left)) as [Hx _]. by apply elem_of_nil in Hx.
Qed.

(** Witness of [empty_vector_no_comparison]: integers under [x <= y],
    with the library sort [ref_sort]. *)
Lemma empty_vector_no_comparison_witness :
  selection_sort Z.leb [] = ([], 0)
  ∧ insertion_sort Z.leb [] = ([], 0)
  ∧ bubble_sort Z.leb [] = ([], 0)
  ∧ merge_sort Z.leb [] = Some ([], 0)
  ∧ pmerge_sort Z.leb [] = Some ([], 0)
  ∧ quick_sort Z.leb [] = Some ([], 0)
  ∧ pquick_sort Z.leb [] = Some ([], 0)
  ∧ rpquick_sort Z.leb some_rnd [] = Some ([], 0)
  ∧ std_sort Z.leb ref_sort [] = Some ([], 0).
Proof.
  apply (empty_vector_no_comparison Z.leb some_rnd ref_sort).
  apply (ref_sort_meets Z.leb []).
Defined.

(** * What the specification states of the run session *)

Section session_statements.
Import Animator.
Implicit Types st : state.

Lemma values_one_to n : values (one_to n) = Z.of_nat <$> seq 1 n.
Proof.
  unfold values, one_to. rewrite <-list_fmap_compose, <-fmap_S_seq.
  rewrite <-list_fmap_compose. apply list_fmap_ext.
  intros _ m _. simpl. lia.
Qed.

Lemma lookup_total_eq {A} `{!Inhabited A} (l1 l2 : list A) i :
  l1 !! i = l2 !! i → l1 !!! i = l2 !!! i.
Proof. intros H. by rewrite !list_lookup_total_alt, H. Qed.

(** C6.  Started with no session open, [sort_setup] queues the [k]
    selected algorithms, makes [k] thread handles and [k] copies for
    them; when [k > 0] the datasets are these copies followed by one
    more, the base. *)
Theorem setup_session_sizes shuffle st :
  no_session st → (∀ l, shuffle l ≡ₚ l) →
  length (sort_queue (sort_setup shuffle st))
    = selected_count (sort_algos st)
  ∧ length (sort_threads (sort_setup shuffle st))
    = selected_count (sort_algos st)
  ∧ length (copies (sort_setup shuffle st))
    = selected_count (sort_algos st)
  ∧ (0 < selected_count (sort_algos st) →
     sort_data (sort_setup shuffle st)
     = copies (sort_setup shuffle st) ++ [base (sort_setup shuffle st)]).
Proof.
  intros Hfresh Hshuffle.
  destruct (sort_setup_fresh shuffle st Hfresh)
    as (idx & Hlen & Hq & Ht & Hn & Ha & Hd).
  { intros l. apply Permutation_length, Hshuffle. }
  unfold copies, base. rewrite Hq, Ht, Hd, <-Hlen, length_replicate.
  destruct idx as [|i idx]; simpl; [split_and!; [done..|lia]|].
  set (rb := recopy (shuffle (one_to (sort_n st)))).
  change (rb :: replicate (length idx) rb)
    with (replicate (S (length idx)) rb).
  rewrite take_replicate, Nat.min_l by lia.
  split_and!; [done..| |].
  - by rewrite length_replicate.
  - intros _. rewrite lookup_total_replicate_2 by lia.
    by rewrite <-replicate_cons_app.
Qed.
End session_statements.

Section run_statements.
Import Animator.
Implicit Types st : state.

(** Witness of [setup_session_sizes]: the demo session, shuffled by
    [reverse]. *)
Lemma setup_session_sizes_witness :
  length (sort_queue (sort_setup reverse demo_state)) = 2
  ∧ length (sort_threads (sort_setup reverse demo_state)) = 2
  ∧ length (copies (sort_setup reverse demo_state)) = 2
  ∧ (0 < 2 →
     sort_data (sort_setup reverse demo_state)
     = copies (sort_setup reverse demo_state)
       ++ [base (sort_setup reverse demo_state)]).
Proof.
  apply (setup_session_sizes reverse demo_state).
  - by split_and!.
  - intros l. apply reverse_Permutation.
Defined.

(** C9, as the code has it.  With [k > 0] algorithms selected and no
    session open, [sort_setup] creates [k + 1] datasets whose values
    are one and the same shuffle of [1 .. N]; when the run has
    returned, the dataset at index [k] is as [sort_setup] left it, and
    the values of dataset [i < k] are those the algorithm queued at [i]
    leaves on what dataset [i] was.  Of the timers of the datasets
    [0 .. k - 1] nothing is said: the redraw inside the comparator lets
    every thread write them. *)
Theorem run_keeps_base shuffle st st1 :
  no_session st → (∀ l, shuffle l ≡ₚ l) →
  0 < selected_count (sort_algos st) →
  sort_launch (sort_setup shuffle st) = Some st1 →
  length (sort_data (sort_setup shuffle st))
    = selected_count (sort_algos st) + 1
  ∧ (∀ r, r ≤ selected_count (sort_algos st) →
       values (sort_data (sort_setup shuffle st) !!! r)
       = values (base (sort_setup shuffle st)))
  ∧ values (base (sort_setup shuffle st))
      ≡ₚ Z.of_nat <$> seq 1 (sort_n st)
  ∧ base st1 = base (sort_setup shuffle st)
  ∧ (∀ i, i < selected_count (sort_algos st) →
       ∃ v' c, sort (sort_algos st
                       !!! (sort_queue (sort_setup shuffle st) !!! i))
                 sort_cmp (sort_data (sort_setup shuffle st) !!! i)
               = Some (v', c)
               ∧ values (sort_data st1 !!! i) = values v').
Proof.
  intros Hfresh Hshuffle Hk Hlaunch.
  destruct (sort_setup_fresh shuffle st Hfresh)
    as (idx & Hlen & Hq & Ht & Hn & Ha & Hd).
  { intros l. apply Permutation_length, Hshuffle. }
  set (st' := sort_setup shuffle st) in *.
  rewrite <-Hlen in *. destruct idx as [|i0 idx]; simpl in Hk; [lia|].
  pose proof (Hshuffle (one_to (sort_n st))) as Hb.
  set (b := shuffle (one_to (sort_n st))) in *.
  set (k := length (i0 :: idx)) in *.
  assert (0 < k) as Hkpos by (unfold k; simpl; lia).
  assert (length (sort_queue st') = k) as Hqk by (by rewrite Hq).
  clearbody k b.
  assert (∀ r, r ≤ k → values (sort_data st' !!! r) = values b) as Hvals.
  { intros r Hr. rewrite Hd. destruct r as [|r]; [done|]. simpl.
    rewrite lookup_total_replicate_2 by lia.
    apply values_recopy. }
  unfold sort_launch in Hlaunch.
  destruct (run_threads _ _ _) as [st2|] eqn:Hrun; simpl in Hlaunch;
    [|done].
  injection Hlaunch as <-.
  apply run_threads_spec in Hrun as (Hq2 & Ha2 & Hn2 & Hlen2 & Hframe & Hown).
  rewrite Hqk in Hown, Hframe.
  unfold base. simpl. rewrite draw_rows_end, Hq2, Hqk.
  split_and!.
  - rewrite Hd. simpl. rewrite length_replicate. lia.
  - intros r Hr. rewrite Hvals by done. by rewrite Hvals.
  - rewrite Hvals by done.
    rewrite <-values_one_to. unfold values. by rewrite Hb.
  - apply lookup_total_eq, Hframe. lia.
  - intros i Hi. rewrite <-Ha.
    destruct (Hown i) as [c Hc]; [lia| |by exists (sort_data st2 !!! i), c].
    rewrite Hd. simpl. rewrite length_replicate. lia.
Qed.
End run_statements.

Section restart_statements.
Import Animator.
Implicit Types st : state.

(** For [k > 0] what [sort_setup] leaves is a session of [k]
    algorithms. *)
Lemma sort_setup_session shuffle st :
  no_session st → (∀ l, shuffle l ≡ₚ l) →
  0 < selected_count (sort_algos st) →
  session (selected_count (sort_algos st)) (sort_setup shuffle st).
Proof.
  intros Hfresh Hshuffle Hk.
  destruct (sort_setup_fresh shuffle st Hfresh)
    as (idx & Hlen & Hq & Ht & Hn & Ha & Hd).
  { intros l. apply Permutation_length, Hshuffle. }
  unfold session. rewrite Hq, Hd, Hn, <-Hlen in *.
  destruct idx as [|i0 idx]; simpl in Hk; [lia|].
  pose proof (Permutation_length (Hshuffle (one_to (sort_n st)))) as Hb.
  rewrite length_one_to in Hb.
  set (k := length (i0 :: idx)) in *.
  assert (0 < k) as Hkpos by (unfold k; simpl; lia). clearbody k.
  split_and!; [done|simpl; rewrite length_replicate; lia|].
  intros r Hr. destruct r as [|r]; [done|].
  simpl. rewrite lookup_total_replicate_2 by lia.
  by rewrite length_recopy.
Qed.

(** Witness of [run_keeps_base]: the demo session, shuffled by
    [reverse]. *)
Lemma run_keeps_base_witness :
  length (sort_data (sort_setup reverse demo_state)) = 3
  ∧ base demo_sorted = base (sort_setup reverse demo_state)
  ∧ ∃ v' c,
      selection_sort sort_cmp (sort_data (sort_setup reverse demo_state) !!! 0)
      = (v', c)
      ∧ values (sort_data demo_sorted !!! 0) = values v'.
Proof.
  destruct (run_keeps_base reverse demo_state demo_sorted)
    as (Hlen & _ & _ & Hbase & Hown).
  - by split_and!.
  - intros l. apply reverse_Permutation.
  - vm_compute. lia.
  - reflexivity.
  - split_and!; [exact Hlen|exact Hbase|].
    destruct (Hown 0) as (v' & c & Hsort & Hv); [vm_compute; lia|].
    exists v', c. split; [|exact Hv]. by injection Hsort as <- <-.
Defined.

(** C9 as stated fails for [k = 0]: with nothing selected [sort_setup]
    creates no dataset at all, not [k + 1 = 1]. *)
Lemma setup_without_selection :
  selected_count (sort_algos idle_state) = 0
  ∧ sort_data (sort_setup reverse idle_state) = []
  ∧ length (sort_data (sort_setup reverse idle_state))
    ≠ selected_count (sort_algos idle_state) + 1.
Proof. split_and!; [reflexivity..|]. vm_compute. lia. Qed.

(** C5, as the code has it.  In a session of [k] algorithms the restart
    key gives every copy [i < k] the values of the dataset at index
    [k], the base no sort has touched, which stays as it is; the mode
    becomes [SORTING]. *)
Theorem restart_resets_to_base k st :
  session k st →
  (∀ i, i < k →
     values (sort_data (handle_key_sorted R st) !!! i) = values (base st))
  ∧ base (handle_key_sorted R st) = base st
  ∧ mode (handle_key_sorted R st) = SORTING.
Proof.
  intros (Hq & Hlen & Hrows). unfold base. simpl. rewrite Hq.
  destruct (restart_rows_spec k (sort_n st) k 0 (sort_data st))
    as (_ & Hvals & Hframe); [lia|lia|done|].
  split_and!; [|by apply lookup_total_eq, Hframe; lia|done].
  intros i Hi. apply Hvals. lia.
Qed.

(** Witness of [restart_resets_to_base]: the demo session after its
    run. *)
Lemma restart_resets_to_base_witness :
  (∀ i, i < 2 →
     values (sort_data (handle_key_sorted R demo_sorted) !!! i)
     = values (base demo_sorted))
  ∧ base (handle_key_sorted R demo_sorted) = base demo_sorted
  ∧ mode (handle_key_sorted R demo_sorted) = SORTING.
Proof.
  apply (restart_resets_to_base 2 demo_sorted).
  split_and!; [reflexivity..|].
  intros r Hr. destruct r as [|[|[|r]]]; [reflexivity..|lia].
Defined.

(** C5 as stated fails: after the demo run the first copy holds
    [1; 2; 3], and the restart key gives it [3; 2; 1], the values of
    the base, not its own final values. *)
Lemma restart_not_first_copy :
  values (sort_data demo_sorted !!! 0) = [1; 2; 3]%Z
  ∧ values (sort_data (handle_key_sorted R demo_sorted) !!! 0)
    = [3; 2; 1]%Z
  ∧ values (sort_data (handle_key_sorted R demo_sorted) !!! 1)
    ≠ values (sort_data demo_sorted !!! 0).
Proof. split_and!; [reflexivity..|]. vm_compute. discriminate. Qed.
End restart_statements.

Section publish_statements.
Import Publish.

(** C10.  In every world the threads of a run can reach, at most one
    thread is inside the body of [sort_draw_data]. *)
Theorem publish_exclusive n w t1 t2 :
  reachable n w → publishing w t1 → publishing w t2 → t1 = t2.
Proof.
  intros Hw [bars1 H1] [bars2 H2].
  apply drawing_holds_mutex_reachable in Hw.
  apply Hw in H1, H2. congruence.
Qed.

Lemma demo_world_reachable : reachable 2 demo_world.
Proof.
  unfold reachable.
  eapply rtc_l; [apply (step_call _ 0); reflexivity|].
  eapply rtc_l; [apply (step_call _ 1); reflexivity|].
  eapply rtc_l; [apply (step_lock _ 0); reflexivity|].
  apply rtc_refl.
Qed.

(** Witness of [publish_exclusive]: thread 0 draws while thread 1
    waits. *)
Lemma publish_exclusive_witness :
  reachable 2 demo_world ∧ publishing demo_world 0 ∧ 0 = 0.
Proof.
  split_and!; [apply demo_world_reachable|by exists 0|].
  apply (publish_exclusive 2 demo_world 0 0).
  - apply demo_world_reachable.
  - by exists 0.
  - by exists 0.
Defined.
End publish_statements.

(** * The recursive sorts as functions of their range *)

Section merge_locality.
Context {T : Type} `{!Inhabited T} (cmp : T → T → bool).
Implicit Types a b s l u v p q r : list T.

Lemma lmerge_calls_nil_l l : lmerge_calls cmp [] l = 0.
Proof. by destruct l. Qed.

Lemma lmerge_calls_nil_r l : lmerge_calls cmp l [] = 0.
Proof. by destruct l. Qed.

Lemma lmerge_calls_cons x l1 y l2 :
  lmerge_calls cmp (x :: l1) (y :: l2)
  = if cmp x y then S (lmerge_calls cmp l1 (y :: l2))
    else S (lmerge_calls cmp (x :: l1) l2).
Proof. done. Qed.

Lemma merge_loop_exact v mid hi fuel : ∀ r1 r2 p1 p2 q1 q2 i1 i2 u c,
  v = p1 ++ r1 ++ q1 → v = p2 ++ r2 ++ q2 →
  i1 = length p1 → mid = i1 + length r1 →
  i2 = length p2 → hi = i2 + length r2 →
  length r1 + length r2 ≤ fuel →
  merge_loop cmp fuel v mid hi i1 i2 u c
  = (u ++ lmerge cmp r1 r2, c + lmerge_calls cmp r1 r2).
Proof.
  induction fuel as [|f IH];
    intros r1 r2 p1 p2 q1 q2 i1 i2 u c Hv1 Hv2 Hi1 Hmid Hi2 Hhi Hf.
  { destruct r1, r2; simpl in *; try lia.
    by rewrite app_nil_r, Nat.add_0_r. }
  simpl.
  destruct r1 as [|x r1], r2 as [|y r2]; simpl in Hmid, Hhi, Hf.
  - replace (i1 <? mid) with false by (symmetry; apply Nat.ltb_ge; lia).
    replace (i2 <? hi) with false by (symmetry; apply Nat.ltb_ge; lia).
    simpl. by rewrite app_nil_r, Nat.add_0_r.
  - replace (i2 <? hi) with true by (symmetry; apply Nat.ltb_lt; lia).
    rewrite orb_true_r.
    replace (i1 =? mid) with true by (symmetry; apply Nat.eqb_eq; lia).
    assert (v !!! i2 = y) as -> by (rewrite Hv2; by apply lookup_total_at).
    rewrite (IH [] r2 p1 (p2 ++ [y]) q1 q2 i1 (S i2));
      [|done|by rewrite Hv2, <-app_assoc|done|simpl; lia
       |rewrite length_app; simpl; lia|lia|simpl; lia].
    by rewrite lmerge_nil_l, lmerge_calls_nil_l, <-app_assoc.
  - replace (i1 <? mid) with true by (symmetry; apply Nat.ltb_lt; lia).
    rewrite orb_true_l.
    replace (i1 =? mid) with false by (symmetry; apply Nat.eqb_neq; lia).
    replace (i2 =? hi) with true by (symmetry; apply Nat.eqb_eq; lia).
    assert (v !!! i1 = x) as -> by (rewrite Hv1; by apply lookup_total_at).
    rewrite (IH r1 [] (p1 ++ [x]) p2 q1 q2 (S i1) i2);
      [|by rewrite Hv1, <-app_assoc|done|rewrite length_app; simpl; lia
       |lia|done|simpl; lia|simpl; lia].
    by rewrite lmerge_nil_r, lmerge_calls_nil_r, <-app_assoc.
  - replace (i1 <? mid) with true by (symmetry; apply Nat.ltb_lt; lia).
    rewrite orb_true_l.
    replace (i1 =? mid) with false by (symmetry; apply Nat.eqb_neq; lia).
    replace (i2 =? hi) with false by (symmetry; apply Nat.eqb_neq; lia).
    assert (v !!! i1 = x) as -> by (rewrite Hv1; by apply lookup_total_at).
    assert (v !!! i2 = y) as -> by (rewrite Hv2; by apply lookup_total_at).
    rewrite lmerge_cons, lmerge_calls_cons. destruct (cmp x y).
    + rewrite (IH r1 (y :: r2) (p1 ++ [x]) p2 q1 q2 (S i1) i2);
        [|by rewrite Hv1, <-app_assoc|done|rewrite length_app; simpl; lia
         |lia|done|simpl; lia|simpl; lia].
      rewrite <-app_assoc. simpl. f_equal. lia.
    + rewrite (IH (x :: r1) r2 p1 (p2 ++ [y]) q1 q2 i1 (S i2));
        [|done|by rewrite Hv2, <-app_assoc|done|simpl; lia
         |rewrite length_app; simpl; lia|lia|simpl; lia].
      rewrite <-app_assoc. simpl. f_equal. lia.
Qed.

Lemma merge_exact a l1 l2 b lo hi c :
  lo = length a → length l1 = (length l1 + length l2) / 2 →
  hi = lo + length l1 + length l2 →
  merge cmp (a ++ (l1 ++ l2) ++ b) lo hi c
  = (a ++ lmerge cmp l1 l2 ++ b, c + lmerge_calls cmp l1 l2).
Proof.
  intros Hlo Hmid Hhi. unfold merge.
  replace (hi - lo) with (length l1 + length l2) by lia.
  rewrite <-Hmid.
  rewrite (merge_loop_exact (a ++ (l1 ++ l2) ++ b) (lo + length l1) hi
             (length l1 + length l2) l1 l2 a (a ++ l1) (l2 ++ b) b
             lo (lo + length l1) [] c);
    rewrite ?length_app; try lia; try done.
  - simpl. f_equal. apply inserts_middle; [done|]. by rewrite lmerge_perm.
  - by rewrite <-!app_assoc.
  - by rewrite <-!app_assoc.
Qed.

Lemma msort_list_length fuel : ∀ s s' n,
  msort_list cmp fuel s = Some (s', n) → length s' = length s.
Proof.
  induction fuel as [|f IH]; intros s s' n Hs; simpl in Hs; [done|].
  destruct (length s <=? 1); [by injection Hs as <- <-|].
  destruct (msort_list cmp f (take _ s)) as [[l1 n1]|] eqn:E1; [|done].
  destruct (msort_list cmp f (drop _ s)) as [[l2 n2]|] eqn:E2; [|done].
  simpl in Hs. injection Hs as <- <-.
  apply IH in E1, E2.
  rewrite (Permutation_length (lmerge_perm cmp l1 l2)), length_app, E1, E2.
  rewrite <-length_app, take_drop. done.
Qed.

(** On its range [merge_sort_helper] is [msort_list], whatever lies
    before and after the range. *)
Lemma merge_sort_helper_refines fuel : ∀ s a b c,
  merge_sort_helper cmp fuel (a ++ s ++ b) (length a) (length a + length s) c
  = '(s', n) ← msort_list cmp fuel s; Some (a ++ s' ++ b, c + n).
Proof.
  induction fuel as [|f IH]; intros s a b c; simpl; [done|].
  replace (length a + length s - length a) with (length s) by lia.
  destruct (Nat.leb_spec (length s) 1) as [Hs|Hs].
  { simpl. by rewrite Nat.add_0_r. }
  set (m := length s / 2).
  assert (m < length s) as Hm
    by (apply Nat.div_lt; lia).
  assert (length (take m s) = m) as Hlt by (rewrite length_take; lia).
  pose proof (IH (take m s) a (drop m s ++ b) c) as IH1.
  rewrite Hlt, (app_assoc (take m s)), take_drop in IH1. rewrite IH1.
  destruct (msort_list cmp f (take m s)) as [[l1 n1]|] eqn:E1; simpl;
    [|done].
  pose proof (msort_list_length _ _ _ _ E1) as Hl1. rewrite Hlt in Hl1.
  pose proof (IH (drop m s) (a ++ l1) b (c + n1)) as IH2.
  rewrite length_app, length_drop, Hl1, <-app_assoc in IH2.
  replace (length a + m + (length s - m)) with (length a + length s)
    in IH2 by lia.
  rewrite IH2.
  destruct (msort_list cmp f (drop m s)) as [[l2 n2]|] eqn:E2; simpl;
    [|done].
  pose proof (msort_list_length _ _ _ _ E2) as Hl2.
  rewrite length_drop in Hl2.
  replace ((a ++ l1) ++ l2 ++ b) with (a ++ (l1 ++ l2) ++ b)
    by (by rewrite <-!app_assoc).
  rewrite (merge_exact a l1 l2 b); [| done | | lia].
  - do 2 f_equal. lia.
  - rewrite Hl1, Hl2. unfold m.
    replace (length s / 2 + (length s - length s / 2)) with (length s)
      by (fold m; lia).
    done.
Qed.
End merge_locality.

Section quick_locality.
Context {T : Type} `{!Inhabited T} (cmp : T → T → bool).
Variable pick : nat → nat → nat.
Hypothesis pick_in_range : ∀ lo hi, 1 < hi - lo → lo ≤ pick lo hi < hi.
Implicit Types a b s l u v : list T.

Lemma qsort_list_unfold fuel lo s :
  qsort_list cmp pick (S fuel) lo s
  = if length s <=? 1 then Some (s, 0) else
    let p := pick lo (lo + length s) - lo in
    let x := s !!! p in
    let rest := take p s ++ drop (S p) s in
    let u1 := goes_left cmp x rest in
    let u2 := goes_right cmp x rest in
    '(s1, n1) ← qsort_list cmp pick fuel lo u1;
    '(s2, n2) ← qsort_list cmp pick fuel (lo + length u1 + 1) u2;
    Some (s1 ++ x :: s2, length s - 1 + n1 + n2).
Proof. done. Qed.

Lemma qsort_list_length fuel : ∀ lo s s' n,
  qsort_list cmp pick fuel lo s = Some (s', n) → length s' = length s.
Proof.
  induction fuel as [|f IH]; intros lo s s' n Hs; [done|].
  rewrite qsort_list_unfold in Hs.
  destruct (length s <=? 1) eqn:Hgt; [by injection Hs as <- <-|].
  apply Nat.leb_gt in Hgt.
  pose proof (pick_in_range lo (lo + length s) ltac:(lia)) as Hp.
  set (p := pick lo (lo + length s) - lo) in *.
  set (rest := take p s ++ drop (S p) s) in *.
  set (x := s !!! p) in *. cbv zeta in Hs.
  destruct (qsort_list cmp pick f lo _) as [[s1 n1]|] eqn:E1; [|done].
  simpl in Hs.
  destruct (qsort_list cmp pick f (lo + _ + 1) _) as [[s2 n2]|] eqn:E2;
    [|done].
  simpl in Hs. injection Hs as <- <-.
  apply IH in E1, E2. rewrite length_app. simpl. rewrite E1, E2.
  pose proof (goes_left_right_length cmp x rest) as Hlen.
  assert (length rest = length s - 1) as Hrest.
  { unfold rest. rewrite length_app, length_take, length_drop. lia. }
  unfold rest, x in *. lia.
Qed.

(** On its range a quick sort helper is [qsort_list], whatever lies
    before and after the range. *)
Lemma quick_with_refines fuel : ∀ s a b c,
  quick_with cmp pick fuel (a ++ s ++ b) (length a) (length a + length s) c
  = '(s', n) ← qsort_list cmp pick fuel (length a) s;
    Some (a ++ s' ++ b, c + n).
Proof.
  induction fuel as [|f IH]; intros s a b c; [done|].
  rewrite quick_with_unfold, qsort_list_unfold.
  replace (length a + length s - length a) with (length s) by lia.
  destruct (Nat.leb_spec (length s) 1) as [Hs|Hs].
  { simpl. by rewrite Nat.add_0_r. }
  pose proof (pick_in_range (length a) (length a + length s) ltac:(lia))
    as Hp.
  destruct (split_at s (pick (length a) (length a + length s) - length a))
    as (l1 & x & l2 & Hsplit & Hl1); [lia|].
  set (p := pick (length a) (length a + length s)) in *. clearbody p.
  subst s. rewrite length_app in Hs, Hp. simpl in Hs, Hp.
  rewrite (partition_spec cmp a l1 x l2 b (length a) _ p c)
    by (rewrite ?length_app; simpl; lia).
  cbv zeta. rewrite <-Hl1.
  rewrite (lookup_total_at l1 x l2) by done.
  rewrite take_app_length.
  set (R := drop (S (length l1)) (l1 ++ x :: l2)).
  assert (R = l2) as HR.
  { unfold R. rewrite (cons_middle x l1 l2), app_assoc.
    replace (S (length l1)) with (length (l1 ++ [x]))
      by (rewrite length_app; simpl; lia).
    apply drop_app_length. }
  clearbody R. subst R.
  set (U1 := goes_left cmp x (l1 ++ l2)).
  set (U2 := goes_right cmp x (l1 ++ l2)).
  pose proof (IH U1 a (x :: U2 ++ b) (c + length l1 + length l2)) as IH1.
  replace (a ++ (U1 ++ x :: U2) ++ b) with (a ++ U1 ++ x :: U2 ++ b)
    by (by rewrite <-app_assoc).
  rewrite IH1.
  destruct (qsort_list cmp pick f (length a) U1) as [[s1 n1]|] eqn:E1;
    simpl; [|done].
  pose proof (qsort_list_length _ _ _ _ _ E1) as Hs1.
  pose proof (IH U2 (a ++ s1 ++ [x]) b (c + length l1 + length l2 + n1))
    as IH2.
  rewrite !length_app in IH2. simpl in IH2. rewrite Hs1 in IH2.
  pose proof (goes_left_right_length cmp x (l1 ++ l2)) as HU.
  fold U1 U2 in HU. rewrite length_app in HU.
  replace (a ++ s1 ++ x :: U2 ++ b) with ((a ++ s1 ++ [x]) ++ U2 ++ b)
    by (by rewrite <-!app_assoc).
  replace (length a + length U1 + 1) with (length a + (length U1 + 1))
    by lia.
  replace (length a + length (l1 ++ x :: l2))
    with (length a + (length U1 + 1) + length U2)
    by (rewrite length_app; simpl; lia).
  rewrite IH2.
  destruct (qsort_list cmp pick f _ U2) as [[s2 n2]|] eqn:E2; simpl;
    [|done].
  rewrite <-!app_assoc. simpl. do 2 f_equal.
  rewrite length_app. simpl. lia.
Qed.
End quick_locality.

(** * The helpers on an arbitrary range of the vector *)

Section helper_ranges.
Context {T : Type} `{!Inhabited T} (cmp : T → T → bool).
Implicit Types a b s l u v : list T.

Lemma range_view v lo hi :
  lo ≤ hi → hi ≤ length v →
  ∃ a s b, v = a ++ s ++ b ∧ length a = lo ∧ length s = hi - lo.
Proof.
  intros Hlo Hhi.
  exists (take lo v), (take (hi - lo) (drop lo v)), (drop (hi - lo) (drop lo v)).
  split_and!.
  - by rewrite !take_drop.
  - rewrite length_take. lia.
  - rewrite length_take, length_drop. lia.
Qed.

Lemma frame_lookup a s s' b i :
  length s' = length s →
  i < length a ∨ length a + length s ≤ i →
  (a ++ s' ++ b) !! i = (a ++ s ++ b) !! i.
Proof.
  intros Hlen [Hi|Hi].
  - by rewrite !lookup_app_l by done.
  - rewrite !lookup_app_r by lia. by rewrite Hlen.
Qed.

(** X1.  Whatever the comparator, [merge_sort_helper] and its threaded twin,
    called on a range [lo, hi) of the vector with fuel beyond its length,
    return the same vector: of the same length, equal to the input
    outside the range and a permutation of it. *)
Theorem merge_sort_helper_frame fuel v lo hi c :
  lo ≤ hi → hi ≤ length v → hi - lo < fuel →
  ∃ v' c',
    merge_sort_helper cmp fuel v lo hi c = Some (v', c')
    ∧ pmerge_sort_helper cmp fuel v lo hi c = Some (v', c')
    ∧ length v' = length v
    ∧ (∀ i, i < lo ∨ hi ≤ i → v' !! i = v !! i)
    ∧ v ≡ₚ v'.
Proof.
  intros Hlo Hhi Hfuel.
  destruct (range_view v lo hi Hlo Hhi) as (a & s & b & -> & Ha & Hs).
  destruct (merge_sort_helper_spec cmp (λ _, 0%Z) fuel s a b c)
    as (s' & c' & E & P & _); [lia|].
  replace hi with (length a + length s) by lia. rewrite <-Ha.
  exists (a ++ s' ++ b), c'.
  pose proof (Permutation_length P) as Hlen.
  split_and!; [done|by rewrite pmerge_sort_helper_seq| | |].
  - rewrite !length_app. lia.
  - intros i Hi. apply frame_lookup; [done|lia].
  - by rewrite P.
Qed.

(** X2.  The same for the three quick sort helpers, the random one under any
    random source. *)
Theorem quick_sort_helper_frame rnd fuel v lo hi c :
  lo ≤ hi → hi ≤ length v → hi - lo < fuel →
  ∃ v' c' v'' c'',
    quick_sort_helper cmp fuel v lo hi c = Some (v', c')
    ∧ pquick_sort_helper cmp fuel v lo hi c = Some (v', c')
    ∧ rpquick_sort_helper cmp rnd fuel v lo hi c = Some (v'', c'')
    ∧ length v' = length v ∧ length v'' = length v
    ∧ (∀ i, i < lo ∨ hi ≤ i → v' !! i = v !! i ∧ v'' !! i = v !! i)
    ∧ v ≡ₚ v' ∧ v ≡ₚ v''.
Proof.
  intros Hlo Hhi Hfuel.
  destruct (range_view v lo hi Hlo Hhi) as (a & s & b & -> & Ha & Hs).
  destruct (quick_with_spec cmp (λ _, 0%Z) _ (λ lo hi, mid_in_range lo hi)
              fuel s a b c) as (s' & c' & E & P & _); [lia|].
  destruct (quick_with_spec cmp (λ _, 0%Z) _
              (λ lo hi, rnd_in_range rnd lo hi)
              fuel s a b c) as (s'' & c'' & E' & P' & _); [lia|].
  replace hi with (length a + length s) by lia. rewrite <-Ha.
  exists (a ++ s' ++ b), c', (a ++ s'' ++ b), c''.
  pose proof (Permutation_length P) as Hlen.
  pose proof (Permutation_length P') as Hlen'.
  rewrite quick_sort_helper_with, pquick_sort_helper_with,
    rpquick_sort_helper_with.
  split_and!; [done..| | | | |].
  - rewrite !length_app. lia.
  - rewrite !length_app. lia.
  - intros i Hi. split; (apply frame_lookup; [done|lia]).
  - by rewrite P.
  - by rewrite P'.
Qed.
End helper_ranges.

(** Witness of [merge_sort_helper_frame]: the range [1, 4) of the
    scenario. *)
Lemma merge_sort_helper_frame_witness :
  ∃ v' c',
    merge_sort_helper Z.leb 4 scenario 1 4 0 = Some (v', c')
    ∧ pmerge_sort_helper Z.leb 4 scenario 1 4 0 = Some (v', c')
    ∧ length v' = length scenario
    ∧ (∀ i, i < 1 ∨ 4 ≤ i → v' !! i = scenario !! i)
    ∧ scenario ≡ₚ v'.
Proof.
  apply (merge_sort_helper_frame Z.leb 4 scenario 1 4 0); simpl; lia.
Defined.

(** Witness of [quick_sort_helper_frame]: the range [1, 4) of the
    scenario. *)
Lemma quick_sort_helper_frame_witness :
  ∃ v' c' v'' c'',
    quick_sort_helper Z.leb 4 scenario 1 4 0 = Some (v', c')
    ∧ pquick_sort_helper Z.leb 4 scenario 1 4 0 = Some (v', c')
    ∧ rpquick_sort_helper Z.leb some_rnd 4 scenario 1 4 0 = Some (v'', c'')
    ∧ length v' = length scenario ∧ length v'' = length scenario
    ∧ (∀ i, i < 1 ∨ 4 ≤ i →
         v' !! i = scenario !! i ∧ v'' !! i = scenario !! i)
    ∧ scenario ≡ₚ v' ∧ scenario ≡ₚ v''.
Proof.
  apply (quick_sort_helper_frame Z.leb some_rnd 4 scenario 1 4 0);
    simpl; lia.
Defined.

(** * The two threads of a parallel helper, in either order *)

Section thread_order.
Context {T : Type} `{!Inhabited T} (cmp : T → T → bool).
Implicit Types a b s l u v : list T.

Lemma three_ranges v lo mid hi :
  lo ≤ mid → mid ≤ hi → hi ≤ length v →
  ∃ a s1 s2 b, v = a ++ s1 ++ s2 ++ b
    ∧ length a = lo ∧ length s1 = mid - lo ∧ length s2 = hi - mid.
Proof.
  intros Hlo Hmid Hhi.
  destruct (range_view v lo hi ltac:(lia) Hhi) as (a & s & b & -> & Ha & Hs).
  exists a, (take (mid - lo) s), (drop (mid - lo) s), b. split_and!.
  - by rewrite (app_assoc (take _ s)), take_drop.
  - done.
  - rewrite length_take. lia.
  - rewrite length_drop. lia.
Qed.

(** X3.  [pmerge_sort_helper] starts [head] on [lo, mid) and [tail] on
    [mid, hi): run one after the other on the vector, the two calls give
    the same vector and the same number of comparator calls in either
    order. *)
Theorem pmerge_threads_commute fuel v lo mid hi c :
  lo ≤ mid → mid ≤ hi → hi ≤ length v →
  ('(v1, c1) ← pmerge_sort_helper cmp fuel v lo mid c;
   pmerge_sort_helper cmp fuel v1 mid hi c1)
  = ('(v1, c1) ← pmerge_sort_helper cmp fuel v mid hi c;
     pmerge_sort_helper cmp fuel v1 lo mid c1).
Proof.
  intros Hlo Hmid Hhi.
  destruct (three_ranges v lo mid hi Hlo Hmid Hhi)
    as (a & s1 & s2 & b & -> & Ha & Hs1 & Hs2).
  replace mid with (length a + length s1) by lia.
  replace hi with (length a + length s1 + length s2) by lia.
  rewrite <-Ha.
  rewrite (pmerge_sort_helper_seq cmp fuel _ (length a)
             (length a + length s1) c).
  rewrite (pmerge_sort_helper_seq cmp fuel _ (length a + length s1)
             (length a + length s1 + length s2) c).
  rewrite (merge_sort_helper_refines cmp fuel s1 a (s2 ++ b) c).
  pose proof (merge_sort_helper_refines cmp fuel s2 (a ++ s1) b c) as Htail.
  rewrite length_app, <-app_assoc in Htail. rewrite Htail.
  destruct (msort_list cmp fuel s1) as [[s1' n1]|] eqn:E1;
    destruct (msort_list cmp fuel s2) as [[s2' n2]|] eqn:E2; simpl;
    rewrite <-?(app_assoc a s1).
  - pose proof (msort_list_length cmp _ _ _ _ E1) as Hl1.
    rewrite pmerge_sort_helper_seq.
    pose proof (merge_sort_helper_refines cmp fuel s2 (a ++ s1') b (c + n1))
      as H2.
    rewrite length_app, <-app_assoc, Hl1, E2 in H2. rewrite H2. simpl.
    rewrite pmerge_sort_helper_seq.
    rewrite (merge_sort_helper_refines cmp fuel s1 a (s2' ++ b) (c + n2)).
    rewrite E1. simpl. rewrite <-!app_assoc. do 2 f_equal. lia.
  - pose proof (msort_list_length cmp _ _ _ _ E1) as Hl1.
    rewrite pmerge_sort_helper_seq.
    pose proof (merge_sort_helper_refines cmp fuel s2 (a ++ s1') b (c + n1))
      as H2.
    rewrite length_app, <-app_assoc, Hl1, E2 in H2. by rewrite H2.
  - rewrite pmerge_sort_helper_seq.
    rewrite (merge_sort_helper_refines cmp fuel s1 a (s2' ++ b) (c + n2)).
    by rewrite E1.
  - done.
Qed.
End thread_order.

Section quick_thread_order.
Context {T : Type} `{!Inhabited T} (cmp : T → T → bool).
Implicit Types a b s l u v : list T.

Lemma quick_with_commute pick fuel v lo q hi c :
  (∀ lo hi, 1 < hi - lo → lo ≤ pick lo hi < hi) →
  lo ≤ q → q < hi → hi ≤ length v →
  ('(v1, c1) ← quick_with cmp pick fuel v lo q c;
   quick_with cmp pick fuel v1 (q + 1) hi c1)
  = ('(v1, c1) ← quick_with cmp pick fuel v (q + 1) hi c;
     quick_with cmp pick fuel v1 lo q c1).
Proof.
  intros Hpick Hlo Hq Hhi.
  destruct (three_ranges v lo q hi Hlo ltac:(lia) Hhi)
    as (a & s1 & s & b & -> & Ha & Hs1 & Hs).
  destruct s as [|x s2]; simpl in Hs; [lia|].
  replace q with (length a + length s1) by lia.
  replace hi with (length a + length s1 + 1 + length s2) by lia.
  rewrite <-Ha.
  pose proof (quick_with_refines cmp pick Hpick fuel s1 a (x :: s2 ++ b) c)
    as Hhead.
  pose proof (quick_with_refines cmp pick Hpick fuel s2 (a ++ s1 ++ [x]) b c)
    as Htail.
  rewrite !length_app in Htail. simpl in Htail.
  replace ((a ++ s1 ++ [x]) ++ s2 ++ b) with (a ++ s1 ++ (x :: s2) ++ b)
    in Htail at 1 by (by rewrite <-!app_assoc).
  rewrite Nat.add_assoc in Htail.
  change ((x :: s2) ++ b) with (x :: s2 ++ b) in *.
  rewrite Hhead, Htail.
  destruct (qsort_list cmp pick fuel (length a) s1) as [[s1' n1]|] eqn:E1;
    destruct (qsort_list cmp pick fuel _ s2) as [[s2' n2]|] eqn:E2; simpl.
  - pose proof (qsort_list_length cmp pick Hpick _ _ _ _ _ E1) as Hl1.
    pose proof (quick_with_refines cmp pick Hpick fuel s2 (a ++ s1' ++ [x]) b
                  (c + n1)) as H2.
    rewrite !length_app in H2. simpl in H2.
    rewrite Hl1, Nat.add_assoc, E2 in H2.
    replace (a ++ s1' ++ x :: s2 ++ b) with ((a ++ s1' ++ [x]) ++ s2 ++ b)
      by (by rewrite <-!app_assoc).
    rewrite H2. simpl.
    replace ((a ++ s1 ++ [x]) ++ s2' ++ b) with (a ++ s1 ++ (x :: s2' ++ b))
      by (by rewrite <-!app_assoc).
    rewrite (quick_with_refines cmp pick Hpick fuel s1 a (x :: s2' ++ b)
               (c + n2)).
    rewrite E1. simpl. rewrite <-!app_assoc. simpl. do 2 f_equal. lia.
  - pose proof (qsort_list_length cmp pick Hpick _ _ _ _ _ E1) as Hl1.
    pose proof (quick_with_refines cmp pick Hpick fuel s2 (a ++ s1' ++ [x]) b
                  (c + n1)) as H2.
    rewrite !length_app in H2. simpl in H2.
    rewrite Hl1, Nat.add_assoc, E2 in H2.
    replace (a ++ s1' ++ x :: s2 ++ b) with ((a ++ s1' ++ [x]) ++ s2 ++ b)
      by (by rewrite <-!app_assoc).
    by rewrite H2.
  - replace ((a ++ s1 ++ [x]) ++ s2' ++ b) with (a ++ s1 ++ (x :: s2' ++ b))
      by (by rewrite <-!app_assoc).
    rewrite (quick_with_refines cmp pick Hpick fuel s1 a (x :: s2' ++ b)
               (c + n2)).
    by rewrite E1.
  - done.
Qed.

(** X4.  [pquick_sort_helper] starts [head] on [lo, q) and [tail] on
    [q + 1, hi), where [q] is where the pivot settled: run one after the
    other on the vector, the two calls give the same vector and the same
    number of comparator calls in either order. *)
Theorem pquick_threads_commute fuel v lo q hi c :
  lo ≤ q → q < hi → hi ≤ length v →
  ('(v1, c1) ← pquick_sort_helper cmp fuel v lo q c;
   pquick_sort_helper cmp fuel v1 (q + 1) hi c1)
  = ('(v1, c1) ← pquick_sort_helper cmp fuel v (q + 1) hi c;
     pquick_sort_helper cmp fuel v1 lo q c1).
Proof.
  intros Hlo Hq Hhi.
  pose proof (quick_with_commute (λ lo hi, lo + (hi - lo) / 2)
                fuel v lo q hi c (λ lo hi, mid_in_range lo hi) Hlo Hq Hhi) as H.
  rewrite !pquick_sort_helper_with.
  destruct (quick_with _ _ _ v lo q c) as [[v1 c1]|];
    destruct (quick_with _ _ _ v (q + 1) hi c) as [[v2 c2]|]; simpl in *;
    rewrite ?pquick_sort_helper_with; done.
Qed.
End quick_thread_order.

(** Witness of [pmerge_threads_commute]: the halves [0, 2) and [2, 5) of
    the scenario. *)
Lemma pmerge_threads_commute_witness :
  ('(v1, c1) ← pmerge_sort_helper Z.leb 6 scenario 0 2 0;
   pmerge_sort_helper Z.leb 6 v1 2 5 c1)
  = ('(v1, c1) ← pmerge_sort_helper Z.leb 6 scenario 2 5 0;
     pmerge_sort_helper Z.leb 6 v1 0 2 c1).
Proof.
  apply (pmerge_threads_commute Z.leb 6 scenario 0 2 5 0); simpl; lia.
Defined.

(** Witness of [pquick_threads_commute]: the ranges [0, 2) and [3, 5) of
    the scenario. *)
Lemma pquick_threads_commute_witness :
  ('(v1, c1) ← pquick_sort_helper Z.leb 6 scenario 0 2 0;
   pquick_sort_helper Z.leb 6 v1 (2 + 1) 5 c1)
  = ('(v1, c1) ← pquick_sort_helper Z.leb 6 scenario (2 + 1) 5 0;
     pquick_sort_helper Z.leb 6 v1 0 2 c1).
Proof.
  apply (pquick_threads_commute Z.leb 6 scenario 0 2 5 0);
    simpl; lia.
Defined.

(** * The sorts agree *)

Section agreement.
Context {T : Type} `{!Inhabited T} (key : T → Z).
Implicit Types v l : list T.

Lemma ordered_tail x l : ordered (le_cmp key) (x :: l) → ordered (le_cmp key) l.
Proof. intros H i Hi. apply (H (S i)). simpl. lia. Qed.

Lemma ordered_Sorted v :
  ordered (le_cmp key) v → StronglySorted Z.le (key <$> v).
Proof.
  intros Hv. apply Sorted_StronglySorted; [apply _|].
  induction v as [|x l IH]; [constructor|].
  simpl. constructor; [by apply IH, (ordered_tail x)|].
  destruct l as [|y l]; simpl; constructor.
  specialize (Hv 0 ltac:(simpl; lia)). simpl in Hv.
  by apply Z.leb_le in Hv.
Qed.

Lemma sorts_keys v r :
  sorts key v r →
  ∃ v' c, r = Some (v', c) ∧ StronglySorted Z.le (key <$> v')
          ∧ key <$> v' ≡ₚ key <$> v.
Proof.
  intros (v' & c & -> & P & Ho). exists v', c.
  split_and!; [done|by apply ordered_Sorted|by rewrite P].
Qed.

Lemma sorted_keys_unique (ks1 ks2 : list Z) :
  StronglySorted Z.le ks1 → StronglySorted Z.le ks2 → ks1 ≡ₚ ks2 →
  ks1 = ks2.
Proof. apply StronglySorted_unique. apply _. Qed.

Lemma sorts_result_keys v r ks :
  StronglySorted Z.le ks → ks ≡ₚ key <$> v →
  sorts key v r → result_keys key r = Some ks.
Proof.
  intros Hks Pks (v' & c & -> & Hs & P)%sorts_keys. simpl. f_equal.
  apply sorted_keys_unique; [done..|]. by rewrite P, Pks.
Qed.

(** X5.  Under the comparator [x.value <= y.value] the eight sorts of
    [sorting.h] all return the same sequence of keys: the sorted
    arrangement of the keys of the input. *)
Theorem sorts_agree rnd v :
  ∃ ks, StronglySorted Z.le ks ∧ ks ≡ₚ key <$> v
    ∧ result_keys key (Some (selection_sort (le_cmp key) v)) = Some ks
    ∧ result_keys key (Some (insertion_sort (le_cmp key) v)) = Some ks
    ∧ result_keys key (Some (bubble_sort (le_cmp key) v)) = Some ks
    ∧ result_keys key (merge_sort (le_cmp key) v) = Some ks
    ∧ result_keys key (pmerge_sort (le_cmp key) v) = Some ks
    ∧ result_keys key (quick_sort (le_cmp key) v) = Some ks
    ∧ result_keys key (pquick_sort (le_cmp key) v) = Some ks
    ∧ result_keys key (rpquick_sort (le_cmp key) rnd v) = Some ks.
Proof.
  destruct (sorts_keys v _ (selection_sort_sorts key v))
    as (v0 & c0 & E0 & Hs & P).
  exists (key <$> v0). split_and!; [done..| | | | | | | |];
    apply (sorts_result_keys v); try done.
  - apply selection_sort_sorts.
  - apply insertion_sort_sorts.
  - apply bubble_sort_sorts.
  - apply merge_sort_sorts.
  - apply pmerge_sort_sorts.
  - apply quick_sort_sorts.
  - apply pquick_sort_sorts.
  - apply rpquick_sort_sorts.
Qed.
End agreement.

(** * Insertion sort, one pass at a time *)

Section insertion_steps.
Context {T : Type} `{!Inhabited T} (cmp : T → T → bool) (key : T → Z).
Hypothesis cmp_le : ∀ x y, cmp x y = le_cmp key x y.
Implicit Types s t l v pre post p q : list T.

Lemma insertion_find_calls fuel : ∀ v i j c,
  c ≤ (insertion_find cmp fuel v i j c).2
  ∧ (insertion_find cmp fuel v i j c).2 ≤ c + fuel.
Proof.
  induction fuel as [|f IH]; intros v i j c; simpl; [lia|].
  destruct (j <? i); simpl; [|lia].
  destruct (cmp _ _); simpl; [|lia].
  specialize (IH v i (S j) (S c)). lia.
Qed.

Lemma filter_move_front k x q :
  (∀ y, y ∈ q → (key x < key y)%Z) →
  filter (λ z, key z = k) (x :: q) = filter (λ z, key z = k) (q ++ [x]).
Proof.
  intros Hq. rewrite filter_app.
  destruct (decide (key x = k)) as [Hk|Hk].
  - rewrite !filter_cons_True by done.
    rewrite (filter_none (λ z, key z = k) q); [done|].
    intros y Hy. specialize (Hq y Hy). lia.
  - rewrite !filter_cons_False by done.
    by rewrite filter_nil, app_nil_r.
Qed.

(** One iteration of the outer loop: the sorted prefix takes in
    [x = v[i]], behind the elements of its key, with at most [i + 1]
    comparator calls. *)
Lemma insertion_step n pre x post c i :
  i = length pre → 0 < i → keys_sorted key pre →
  ∃ pre' c',
    insertion_pass cmp (S n) i (pre ++ x :: post) c
    = insertion_pass cmp n (S i) (pre' ++ post) c'
    ∧ length pre' = S i ∧ keys_sorted key pre'
    ∧ (∀ k, filter (λ z, key z = k) pre'
            = filter (λ z, key z = k) (pre ++ [x]))
    ∧ c < c' ∧ c' ≤ c + 1 + i
    ∧ (keys_sorted key (pre ++ [x]) → pre' = pre ++ [x]).
Proof.
  intros Hi Hpos Hpre. simpl.
  destruct (split_at pre (i - 1)) as (pre0 & w & tl & Epre & Hpre0); [lia|].
  destruct tl as [|? ?].
  2:{ rewrite Epre, length_app in Hi. simpl in Hi. lia. }
  rewrite (lookup_total_at pre x post) by done.
  assert ((pre ++ x :: post) !!! (i - 1) = w) as ->.
  { rewrite Epre, <-app_assoc. simpl. by apply lookup_total_at. }
  destruct (cmp x w) eqn:Hxw.
  - destruct (insertion_find_spec cmp key cmp_le x post i [] pre 0 (S c))
      as (q1 & q2 & c' & E & Hq & Hq1 & Hq2); [done|lia|..].
    { by intros y Hy%elem_of_nil. }
    simpl in E, Hq. rewrite <-Hi in E.
    pose proof (insertion_find_calls i (pre ++ x :: post) i 0 (S c)) as Hc.
    rewrite E in *. simpl in Hc.
    assert (i - length q1 = length q2) as ->.
    { rewrite Hi, Hq, length_app. lia. }
    rewrite Hq, <-app_assoc.
    rewrite insertion_shift_spec by (rewrite ?Hi, ?Hq, ?length_app; done).
    rewrite Hq in Hpre. apply StronglySorted_app in Hpre as (Hc12 & Hs1 & Hs2).
    assert (∀ y, y ∈ q2 → (key x < key y)%Z) as Hgt.
    { intros y Hy. destruct q2 as [|z q2]; [by apply elem_of_nil in Hy|].
      specialize (Hq2 z eq_refl).
      apply elem_of_cons in Hy as [->|Hy]; [done|].
      apply (keys_sorted_cons key) in Hs2 as [Hz _].
      specialize (Hz _ Hy). lia. }
    exists (q1 ++ x :: q2), c'.
    split_and!.
    + by rewrite <-app_assoc.
    + rewrite Hi, Hq, !length_app. simpl. lia.
    + apply StronglySorted_app_2; [|done|].
      * intros y1 y2 Hy1 [->|Hy2]%elem_of_cons; [by apply Hq1|by apply Hc12].
      * apply (keys_sorted_cons key). split; [|done].
        intros y Hy. specialize (Hgt y Hy). lia.
    + intros k. rewrite <-app_assoc, !filter_app. f_equal.
      rewrite <-filter_app. by apply filter_move_front.
    + lia.
    + lia.
    + intros Hsorted.
      destruct q2 as [|z q2]; [by rewrite app_nil_r|].
      specialize (Hgt z ltac:(left)).
      rewrite <-app_assoc in Hsorted.
      apply StronglySorted_app in Hsorted as (_ & _ & Hs).
      apply (keys_sorted_cons key) in Hs as [Hz _].
      specialize (Hz x). rewrite elem_of_app in Hz.
      specialize (Hz ltac:(right; left)). lia.
  - exists (pre ++ [x]), (S c).
    apply (cmp_false cmp key cmp_le) in Hxw.
    split_and!.
    + by rewrite <-app_assoc.
    + rewrite length_app. simpl. lia.
    + apply StronglySorted_app_2; [|done|by apply short_keys_sorted].
      intros y1 y2 Hy1 ->%list_elem_of_singleton.
      rewrite Epre in Hy1, Hpre.
      apply elem_of_app in Hy1 as [Hy1| ->%list_elem_of_singleton]; [|lia].
      pose proof (StronglySorted_app_1_elem_of _ _ _ y1 w Hpre Hy1) as Hw.
      simpl in Hw. specialize (Hw ltac:(left)). lia.
    + done.
    + lia.
    + lia.
    + done.
Qed.
End insertion_steps.

(** * Stable sorts *)

Section stable_sorts.
Context {T : Type} `{!Inhabited T} (key : T → Z).
Implicit Types s t l v pre post p q : list T.

(** A sorted list has one sorted, stable rearrangement: itself. *)
Lemma stable_sorted_unique l : ∀ l',
  keys_sorted key l → keys_sorted key l' → l ≡ₚ l' →
  (∀ k, filter (λ z, key z = k) l' = filter (λ z, key z = k) l) →
  l' = l.
Proof.
  induction l as [|x l IH]; intros l' Hl Hl' P Hf.
  { by apply Permutation_nil_l in P. }
  destruct l' as [|y l']; [by apply Permutation_nil_r in P|].
  apply (keys_sorted_cons key) in Hl as [Hx Hl].
  apply (keys_sorted_cons key) in Hl' as [Hy Hl'].
  assert (key x = key y) as Hxy.
  { assert (y ∈ x :: l) as Hyin by (rewrite P; left).
    assert (x ∈ y :: l') as Hxin by (rewrite <-P; left).
    apply elem_of_cons in Hyin as [->|Hyin]; [done|].
    apply elem_of_cons in Hxin as [->|Hxin]; [done|].
    specialize (Hx _ Hyin). specialize (Hy _ Hxin). lia. }
  assert (y = x) as ->.
  { specialize (Hf (key x)).
    rewrite !filter_cons_True in Hf by done. by injection Hf. }
  f_equal. apply IH; [done..| |].
  - by apply Permutation_cons_inv in P.
  - intros k. specialize (Hf k).
    destruct (decide (key x = k)) as [Hk|Hk].
    + rewrite !filter_cons_True in Hf by done. by injection Hf.
    + by rewrite !filter_cons_False in Hf by done.
Qed.

Let cmp_le : ∀ x y : T, le_cmp key x y = le_cmp key x y := λ _ _, eq_refl.

Lemma insertion_pass_stable n : ∀ pre s c i,
  length s = n → i = length pre → 0 < i → keys_sorted key pre →
  keys_sorted key (insertion_pass (le_cmp key) n i (pre ++ s) c).1
  ∧ ∀ k, filter (λ z, key z = k)
           (insertion_pass (le_cmp key) n i (pre ++ s) c).1
         = filter (λ z, key z = k) (pre ++ s).
Proof.
  induction n as [|n IH]; intros pre s c i Hs Hi Hpos Hpre.
  { destruct s; [|done]. simpl. by rewrite app_nil_r. }
  destruct s as [|x post]; simpl in Hs; [done|].
  destruct (insertion_step (le_cmp key) key cmp_le n pre x post c i
              Hi Hpos Hpre)
    as (pre' & c' & E & Hlen & Hsorted & Hf & _).
  rewrite E.
  destruct (IH pre' post c' (S i)) as [Hs' Hf']; [lia|done|lia|done|].
  split; [done|]. intros k.
  rewrite Hf', filter_app, Hf, <-filter_app, <-app_assoc. done.
Qed.

(** X6.  Under the comparator [key x <= key y], [insertion_sort] is stable:
    for every key, the elements carrying it leave in the order they came
    in. *)
Theorem insertion_sort_stable v k :
  filter (λ z, key z = k) (insertion_sort (le_cmp key) v).1
  = filter (λ z, key z = k) v.
Proof.
  destruct v as [|x s]; [done|].
  unfold insertion_sort. simpl length.
  replace (S (length s) - 1) with (length s) by lia.
  apply (insertion_pass_stable (length s) [x] s 0 1); [done|done|lia|].
  by apply short_keys_sorted.
Qed.

(** X7.  [merge_sort] and [insertion_sort] give back a vector whose keys are
    already in order exactly as it was, element for element. *)
Theorem stable_sorts_keep_sorted v :
  keys_sorted key v →
  (∃ c, merge_sort (le_cmp key) v = Some (v, c))
  ∧ (∃ c, pmerge_sort (le_cmp key) v = Some (v, c))
  ∧ (insertion_sort (le_cmp key) v).1 = v.
Proof.
  intros Hv.
  destruct (merge_sort_helper_spec (le_cmp key) key
              (S (length v)) v [] [] 0) as (s' & c' & E & P & Hs); [lia|].
  simpl in E. rewrite !app_nil_r in E.
  destruct (Hs cmp_le) as [Hsorted Hstable].
  assert (s' = v) as -> by (by apply stable_sorted_unique).
  split_and!.
  - by exists c'.
  - exists c'. unfold pmerge_sort. by rewrite pmerge_sort_helper_seq.
  - destruct (insertion_sort_sorts key v) as (v' & c & E' & P' & Ho).
    injection E' as E'. rewrite E'. simpl.
    destruct v as [|x s]; [by apply Permutation_nil_l in P'|].
    pose proof (insertion_pass_stable (length s) [x] s 0 1 eq_refl eq_refl
                  ltac:(lia) (short_keys_sorted key [x] ltac:(simpl; lia)))
      as [Hs' Hf'].
    unfold insertion_sort in E'. simpl length in E'.
    replace (S (length s) - 1) with (length s) in E' by lia.
    simpl in Hs', Hf', E'. rewrite E' in Hs', Hf'. simpl in Hs', Hf'.
    by apply stable_sorted_unique.
Qed.
End stable_sorts.

(** Witness of [stable_sorts_keep_sorted]: a sorted vector with a tie. *)
Lemma stable_sorts_keep_sorted_witness :
  (∃ c, merge_sort (le_cmp fst) [(3, "b"); (5, "a"); (5, "c")]%Z
        = Some ([(3, "b"); (5, "a"); (5, "c")]%Z, c))
  ∧ (∃ c, pmerge_sort (le_cmp fst) [(3, "b"); (5, "a"); (5, "c")]%Z
          = Some ([(3, "b"); (5, "a"); (5, "c")]%Z, c))
  ∧ (insertion_sort (le_cmp fst) [(3, "b"); (5, "a"); (5, "c")]%Z).1
    = [(3, "b"); (5, "a"); (5, "c")]%Z.
Proof.
  apply (stable_sorts_keep_sorted fst).
  repeat constructor; simpl; lia.
Defined.

(** * How many comparator calls a sort makes

    The animator redraws the window inside every comparator call, so the
    number of calls is the number of frames of a run.  None of the counts
    below depends on what the comparator answers being an order. *)

Section comparison_counts.
Context {T : Type} `{!Inhabited T} (cmp : T → T → bool).
Implicit Types s t l v : list T.

Lemma length_swap i j v : length (swap i j v) = length v.
Proof. unfold swap. by rewrite !length_insert. Qed.

Lemma selection_scan_calls n : ∀ v j smallest c,
  (selection_scan cmp n v j smallest c).2 = c + n.
Proof.
  induction n as [|n IH]; intros v j smallest c; simpl; [lia|].
  rewrite IH. lia.
Qed.

Lemma selection_pass_calls n : ∀ i v c,
  i + n = length v →
  2 * (selection_pass cmp n i v c).2 = 2 * c + n * (n - 1).
Proof.
  induction n as [|n IH]; intros i v c Hn; cbn [selection_pass]; [simpl; lia|].
  pose proof (selection_scan_calls (length v - (i + 1)) v (i + 1) i c) as Hc.
  destruct (selection_scan cmp _ v (i + 1) i c) as [smallest c'].
  cbn [snd] in Hc. rewrite IH by (rewrite length_swap; lia). nia.
Qed.

Lemma bubble_inner_calls n : ∀ j v c,
  length (bubble_inner cmp n j v c).1 = length v
  ∧ (bubble_inner cmp n j v c).2 = c + n.
Proof.
  induction n as [|n IH]; intros j v c; simpl; [split; [done|lia]|].
  destruct (cmp _ _).
  - destruct (IH (S j) (swap j (j + 1) v) (S c)) as [-> ->].
    rewrite length_swap. split; [done|lia].
  - destruct (IH (S j) v (S c)) as [-> ->]. split; [done|lia].
Qed.

Lemma bubble_outer_calls n : ∀ i v c,
  i + n = length v →
  2 * (bubble_outer cmp n i v c).2 = 2 * c + n * (n - 1).
Proof.
  induction n as [|n IH]; intros i v c Hn; cbn [bubble_outer]; [simpl; lia|].
  pose proof (bubble_inner_calls (length v - i - 1) 0 v c) as [Hl Hc].
  destruct (bubble_inner cmp _ 0 v c) as [v' c'].
  cbn [fst snd] in Hl, Hc. rewrite IH by lia. nia.
Qed.

(** X8.  [selection_sort] and [bubble_sort] call the comparator exactly
    n (n - 1) / 2 times on a vector of n elements, whatever the elements
    and whatever the comparator answers. *)
Theorem selection_bubble_calls v :
  2 * (selection_sort cmp v).2 = length v * (length v - 1)
  ∧ 2 * (bubble_sort cmp v).2 = length v * (length v - 1).
Proof.
  split.
  - unfold selection_sort. rewrite selection_pass_calls by done. lia.
  - unfold bubble_sort. destruct (Nat.leb_spec (length v) 1) as [H|H].
    + simpl. nia.
    + rewrite bubble_outer_calls by done. lia.
Qed.

Lemma insertion_pass_calls n : ∀ i v c,
  c + n ≤ (insertion_pass cmp n i v c).2
  ∧ 2 * (insertion_pass cmp n i v c).2 ≤ 2 * c + n * (2 * i + n + 1).
Proof.
  induction n as [|n IH]; intros i v c; cbn [insertion_pass]; [simpl; lia|].
  destruct (cmp _ _).
  - pose proof (insertion_find_calls cmp i v i 0 (S c)) as Hc.
    destruct (insertion_find cmp i v i 0 (S c)) as [j c']. cbn [snd] in Hc.
    specialize (IH (S i) (insertion_shift (i - j) v i j) c'). nia.
  - specialize (IH (S i) v (S c)). nia.
Qed.

(** X9.  [insertion_sort] calls the comparator at least n - 1 times and at
    most (n - 1) (n + 2) / 2 times on a vector of n elements. *)
Theorem insertion_sort_calls v :
  length v - 1 ≤ (insertion_sort cmp v).2
  ∧ 2 * (insertion_sort cmp v).2 ≤ (length v - 1) * (length v + 2).
Proof.
  unfold insertion_sort.
  pose proof (insertion_pass_calls (length v - 1) 1 v 0). nia.
Qed.
End comparison_counts.

Section merge_counts.
Context {T : Type} `{!Inhabited T} (cmp : T → T → bool).
Implicit Types s t l v : list T.

Lemma lmerge_calls_bound l1 : ∀ l2,
  lmerge_calls cmp l1 l2 ≤ length l1 + length l2 - 1.
Proof.
  induction l1 as [|x l1 IH1]; intros l2.
  { rewrite lmerge_calls_nil_l. lia. }
  induction l2 as [|y l2 IH2].
  { rewrite lmerge_calls_nil_r. lia. }
  rewrite lmerge_calls_cons. destruct (cmp x y).
  - specialize (IH1 (y :: l2)). simpl in *. lia.
  - simpl in *. lia.
Qed.

Lemma log2_up_halves n :
  1 < n →
  1 ≤ Nat.log2_up n
  ∧ Nat.log2_up (n / 2) ≤ Nat.log2_up n - 1
  ∧ Nat.log2_up (n - n / 2) ≤ Nat.log2_up n - 1.
Proof.
  intros Hn. destruct (Nat.log2_up_spec n Hn) as [_ Hle].
  pose proof (Nat.div_mod_eq n 2) as Hdiv.
  pose proof (Nat.mod_upper_bound n 2 ltac:(lia)) as Hmod.
  destruct (Nat.log2_up n) as [|k]; [simpl in Hle; lia|].
  rewrite Nat.pow_succ_r' in Hle.
  replace (S k - 1) with k by lia.
  split_and!; [lia| |]; apply Nat.log2_up_le_pow2; lia.
Qed.

Lemma msort_list_calls fuel : ∀ s s' n,
  msort_list cmp fuel s = Some (s', n) →
  n ≤ length s * Nat.log2_up (length s).
Proof.
  induction fuel as [|f IH]; intros s s' n Hs; simpl in Hs; [done|].
  destruct (Nat.leb_spec (length s) 1) as [Hle|Hgt].
  { injection Hs as <- <-. lia. }
  destruct (msort_list cmp f (take _ s)) as [[l1 n1]|] eqn:E1; [|done].
  destruct (msort_list cmp f (drop _ s)) as [[l2 n2]|] eqn:E2; [|done].
  simpl in Hs. injection Hs as <- <-.
  pose proof (msort_list_length cmp _ _ _ _ E1) as H1.
  pose proof (msort_list_length cmp _ _ _ _ E2) as H2.
  apply IH in E1, E2.
  pose proof (lmerge_calls_bound l1 l2) as Hm.
  pose proof (Nat.div_lt (length s) 2 ltac:(lia) ltac:(lia)) as Hhalf.
  rewrite length_take in E1, H1. rewrite length_drop in E2, H2.
  rewrite Nat.min_l in E1, H1 by lia.
  destruct (log2_up_halves (length s) Hgt) as (Hk & Hk1 & Hk2).
  set (m := length s / 2) in *. set (k := Nat.log2_up (length s)) in *.
  assert (n1 ≤ m * (k - 1)) by (etrans; [exact E1|]; by apply Nat.mul_le_mono_l).
  assert (n2 ≤ (length s - m) * (k - 1))
    by (etrans; [exact E2|]; by apply Nat.mul_le_mono_l).
  assert (m * (k - 1) + (length s - m) * (k - 1) = length s * (k - 1))
    by (rewrite <-Nat.mul_add_distr_r; f_equal; lia).
  assert (length s * k = length s * (k - 1) + length s) by nia.
  lia.
Qed.

(** X10.  [merge_sort] and [pmerge_sort] return, with the same vector and the
    same number of comparator calls, and make at most n * ceil(log2 n)
    calls on n elements, whatever the comparator answers. *)
Theorem merge_sort_calls v :
  ∃ v' c,
    merge_sort cmp v = Some (v', c)
    ∧ pmerge_sort cmp v = Some (v', c)
    ∧ length v' = length v
    ∧ c ≤ length v * Nat.log2_up (length v).
Proof.
  pose proof (merge_sort_helper_refines cmp (S (length v)) v [] [] 0) as R.
  destruct (merge_sort_helper_spec cmp (λ _, 0%Z) (S (length v)) v [] [] 0)
    as (s' & c' & E & _); [lia|].
  rewrite E in R.
  destruct (msort_list cmp (S (length v)) v) as [[s'' n]|] eqn:Em; [|done].
  cbn [mbind option_bind] in R. injection R as R1 R2.
  change (s' ++ [] = s'' ++ []) in R1. rewrite !app_nil_r in R1. subst s'' c'.
  cbn [app length Nat.add] in E. rewrite !app_nil_r in E.
  exists s', n. split_and!.
  - exact E.
  - unfold pmerge_sort. by rewrite pmerge_sort_helper_seq.
  - by apply (msort_list_length cmp) in Em.
  - by apply msort_list_calls in Em.
Qed.
End merge_counts.

Section quick_counts.
Context {T : Type} `{!Inhabited T} (cmp : T → T → bool).
Variable pick : nat → nat → nat.
Hypothesis pick_in_range : ∀ lo hi, 1 < hi - lo → lo ≤ pick lo hi < hi.
Implicit Types a b s l u v : list T.

Lemma qsort_list_calls fuel : ∀ lo s s' n,
  qsort_list cmp pick fuel lo s = Some (s', n) →
  length s - 1 ≤ n ∧ 2 * n ≤ length s * (length s - 1).
Proof.
  induction fuel as [|f IH]; intros lo s s' n Hs; [done|].
  rewrite qsort_list_unfold in Hs.
  destruct (length s <=? 1) eqn:Hgt.
  { apply Nat.leb_le in Hgt. injection Hs as <- <-. lia. }
  apply Nat.leb_gt in Hgt.
  pose proof (pick_in_range lo (lo + length s) ltac:(lia)) as Hp.
  set (p := pick lo (lo + length s) - lo) in *.
  set (rest := take p s ++ drop (S p) s) in *.
  set (x := s !!! p) in *. cbv zeta in Hs.
  destruct (qsort_list cmp pick f lo _) as [[s1 n1]|] eqn:E1; [|done].
  simpl in Hs.
  destruct (qsort_list cmp pick f (lo + _ + 1) _) as [[s2 n2]|] eqn:E2;
    [|done].
  simpl in Hs. injection Hs as <- <-.
  apply IH in E1, E2.
  pose proof (goes_left_right_length cmp x rest) as Hlen.
  assert (length rest = length s - 1) as Hrest.
  { unfold rest. rewrite length_app, length_take, length_drop. lia. }
  unfold rest, x in *.
  set (n := length s) in *.
  set (k1 := length (goes_left cmp _ _)) in *.
  set (k2 := length (goes_right cmp _ _)) in *.
  split; [lia|]. nia.
Qed.
End quick_counts.

Section quick_sort_counts.
Context {T : Type} `{!Inhabited T} (cmp : T → T → bool).
Implicit Types a b s l u v : list T.

Lemma quick_with_calls pick v :
  (∀ lo hi, 1 < hi - lo → lo ≤ pick lo hi < hi) →
  ∃ v' c,
    quick_with cmp pick (S (length v)) v 0 (length v) 0 = Some (v', c)
    ∧ v ≡ₚ v'
    ∧ length v - 1 ≤ c
    ∧ 2 * c ≤ length v * (length v - 1).
Proof.
  intros Hpick.
  pose proof (quick_with_refines cmp pick Hpick (S (length v)) v [] [] 0)
    as R.
  destruct (quick_with_spec cmp (λ _, 0%Z) pick Hpick
              (S (length v)) v [] [] 0) as (s' & c' & E & P & _); [lia|].
  rewrite E in R.
  destruct (qsort_list cmp pick (S (length v)) (length []) v)
    as [[s'' n]|] eqn:Eq; [|done].
  cbn [mbind option_bind] in R. injection R as R1 R2.
  change (s' ++ [] = s'' ++ []) in R1. rewrite !app_nil_r in R1. subst s'' c'.
  cbn [app length Nat.add] in E. rewrite !app_nil_r in E.
  exists s', n. split; [exact E|]. split; [done|].
  by apply (qsort_list_calls cmp pick Hpick) in Eq.
Qed.

(** X11.  [quick_sort], [pquick_sort] and [rpquick_sort] return a rearrangement
    of the vector after at least n - 1 and at most n (n - 1) / 2
    comparator calls on n elements, whatever the comparator answers and
    whatever [rand()] returns. *)
Theorem quick_sort_calls rnd v :
  ∀ r, r ∈ [quick_sort cmp v; pquick_sort cmp v; rpquick_sort cmp rnd v] →
  ∃ v' c,
    r = Some (v', c)
    ∧ v ≡ₚ v'
    ∧ length v - 1 ≤ c
    ∧ 2 * c ≤ length v * (length v - 1).
Proof.
  intros r Hr.
  repeat (apply elem_of_cons in Hr as [->|Hr]); [| | |by apply elem_of_nil in Hr].
  - unfold quick_sort. rewrite quick_sort_helper_with.
    apply quick_with_calls, mid_in_range.
  - unfold pquick_sort. rewrite pquick_sort_helper_with.
    apply quick_with_calls, mid_in_range.
  - unfold rpquick_sort. rewrite rpquick_sort_helper_with.
    apply quick_with_calls. intros lo hi. apply rnd_in_range.
Qed.
End quick_sort_counts.

(** Witness of [quick_sort_calls]: the parallel quick sort on five
    values. *)
Lemma quick_sort_calls_witness :
  ∃ v' c,
    pquick_sort Z.leb scenario = Some (v', c)
    ∧ scenario ≡ₚ v'
    ∧ length scenario - 1 ≤ c
    ∧ 2 * c ≤ length scenario * (length scenario - 1).
Proof.
  apply (quick_sort_calls Z.leb some_rnd scenario).
  apply elem_of_cons. right. apply elem_of_cons. by left.
Defined.

(** * What one [partition] call leaves *)

Section partition_contracts.
Context {T : Type} `{!Inhabited T} (cmp : T → T → bool).
Implicit Types a b s l u v : list T.

Lemma lookup_total_middle a s b i :
  length a ≤ i < length a + length s →
  (a ++ s ++ b) !!! i = s !!! (i - length a).
Proof.
  intros Hi. rewrite !list_lookup_total_alt.
  rewrite lookup_app_r by lia. by rewrite lookup_app_l by lia.
Qed.

Lemma goes_left_accepted vp l i :
  i < length (goes_left cmp vp l) → cmp (goes_left cmp vp l !!! i) vp = true.
Proof.
  intros Hi. destruct (lookup_lt_is_Some_2 _ _ Hi) as [y Hy].
  rewrite (list_lookup_total_correct _ _ _ Hy).
  apply list_elem_of_lookup_2, list_elem_of_filter in Hy. by destruct Hy.
Qed.

Lemma goes_right_rejected vp l i :
  i < length (goes_right cmp vp l) →
  cmp (goes_right cmp vp l !!! i) vp = false.
Proof.
  intros Hi. destruct (lookup_lt_is_Some_2 _ _ Hi) as [y Hy].
  rewrite (list_lookup_total_correct _ _ _ Hy).
  apply list_elem_of_lookup_2, list_elem_of_filter in Hy.
  destruct Hy as [Hy _]. by destruct (cmp y vp).
Qed.

(** X12.  [partition] on the range [lo, hi) with the pivot at [p] calls the
    comparator hi - lo - 1 times, rearranges the range only, and leaves
    the pivot value at [lo + q], where [q] is what it returns: the
    comparator accepts (element, pivot) for every element of the range
    before that index and rejects it for every element after. *)
Theorem partition_contract v lo hi p c :
  lo ≤ p → p < hi → hi ≤ length v →
  ∃ v' q c',
    partition cmp v lo hi p c = (v', q, c')
    ∧ c' = c + (hi - lo - 1)
    ∧ lo + q < hi
    ∧ length v' = length v
    ∧ v ≡ₚ v'
    ∧ (∀ i, i < lo ∨ hi ≤ i → v' !! i = v !! i)
    ∧ v' !!! (lo + q) = v !!! p
    ∧ (∀ i, lo ≤ i < lo + q → cmp (v' !!! i) (v !!! p) = true)
    ∧ (∀ i, lo + q < i < hi → cmp (v' !!! i) (v !!! p) = false).
Proof.
  intros Hlo Hp Hhi.
  destruct (range_split v lo p hi Hlo Hp Hhi)
    as (a & l1 & l2 & b & Ev & Ha & Hl1 & Hl2).
  set (vp := v !!! p) in *. clearbody vp.
  pose proof (partition_spec cmp a l1 vp l2 b lo hi p c) as Hspec.
  rewrite <-(app_assoc l1) in Hspec. simpl in Hspec. rewrite <-Ev in Hspec.
  rewrite Hspec by lia. clear Hspec.
  pose proof (goes_left_right_length cmp vp (l1 ++ l2)) as Hlen.
  pose proof (goes_left_right_perm cmp vp (l1 ++ l2)) as Hperm.
  set (L := goes_left cmp vp (l1 ++ l2)) in *.
  set (R := goes_right cmp vp (l1 ++ l2)) in *.
  rewrite length_app in Hlen.
  assert (length (L ++ vp :: R) = length (l1 ++ vp :: l2)) as Hmid.
  { rewrite !length_app. simpl. lia. }
  assert (v = a ++ (l1 ++ vp :: l2) ++ b) as Ev'.
  { rewrite Ev. by rewrite <-(app_assoc l1). }
  eexists _, _, _. split; [reflexivity|]. split_and!.
  - lia.
  - lia.
  - rewrite Ev', !length_app. cbn [length]. lia.
  - rewrite Ev'. do 2 f_equiv.
    rewrite <-!Permutation_middle. f_equiv. by rewrite Hperm.
  - intros i Hi. rewrite Ev'. apply frame_lookup; [done|].
    rewrite length_app. simpl. lia.
  - rewrite <-app_assoc, (app_assoc a). apply lookup_total_at.
    rewrite length_app. lia.
  - intros i Hi.
    rewrite lookup_total_middle by (rewrite length_app; simpl; lia).
    rewrite lookup_total_app_l by lia.
    apply goes_left_accepted. fold L. lia.
  - intros i Hi.
    rewrite lookup_total_middle by (rewrite length_app; simpl; lia).
    rewrite lookup_total_app_r by lia.
    replace (i - length a - length L) with (S (i - length a - length L - 1))
      by lia.
    simpl. apply goes_right_rejected. fold R. lia.
Qed.
End partition_contracts.

(** Witness of [partition_contract]: the range [1, 5) of the scenario with
    the pivot at index 2. *)
Lemma partition_contract_witness :
  ∃ v' q c',
    partition Z.leb scenario 1 5 2 0 = (v', q, c')
    ∧ c' = 0 + (5 - 1 - 1)
    ∧ 1 + q < 5
    ∧ length v' = length scenario
    ∧ scenario ≡ₚ v'
    ∧ (∀ i, i < 1 ∨ 5 ≤ i → v' !! i = scenario !! i)
    ∧ v' !!! (1 + q) = scenario !!! 2
    ∧ (∀ i, 1 ≤ i < 1 + q → Z.leb (v' !!! i) (scenario !!! 2) = true)
    ∧ (∀ i, 1 + q < i < 5 → Z.leb (v' !!! i) (scenario !!! 2) = false).
Proof.
  apply (partition_contract Z.leb scenario 1 5 2 0); simpl; lia.
Defined.

(** * The quantity string: [std::to_string] and [std::stoi] *)

Section quantity_strings.
Import Config.
Implicit Types s t : list ascii.
Implicit Types d : Decimal.uint.

Lemma print_digits d : Forall is_digit (print_uint d).
Proof.
  unfold print_uint.
  induction d; simpl; constructor; try done; by eexists.
Qed.

Lemma length_print d : length (print_uint d) = Decimal.nb_digits d.
Proof. unfold print_uint. induction d; simpl; congruence. Qed.

Lemma leading_digits_print d : leading_digits (print_uint d) = d.
Proof. unfold print_uint. induction d; simpl; congruence. Qed.

(** What a digit is not. *)
Lemma digit_of_cases c f :
  digit_of c = Some f →
  isspace c = false ∧ c ≠ "-"%char ∧ c ≠ "+"%char
  ∧ (∀ d, f d ≠ Decimal.Nil)
  ∧ (∀ d, print_uint (f d) = c :: print_uint d).
Proof.
  destruct c as [[] [] [] [] [] [] [] []]; simpl; intros Hf; try done;
    injection Hf as <-; split_and!; done.
Qed.

Lemma print_leading_digits s :
  Forall is_digit s → print_uint (leading_digits s) = s.
Proof.
  induction 1 as [|c s [f Hc] _ IH]; [done|].
  simpl. rewrite Hc.
  destruct (digit_of_cases c f Hc) as (_ & _ & _ & _ & ->). by rewrite IH.
Qed.

Lemma length_leading_digits s :
  Forall is_digit s → Decimal.nb_digits (leading_digits s) = length s.
Proof.
  intros Hs. by rewrite <-length_print, print_leading_digits.
Qed.

Lemma to_uint_nonnil n : N.to_uint n ≠ Decimal.Nil.
Proof.
  rewrite <-(DecimalN.Unsigned.of_to n), DecimalN.Unsigned.to_of.
  apply DecimalFacts.unorm_nonnil.
Qed.

Lemma to_string_print z :
  (0 ≤ z)%Z → to_string z = print_uint (N.to_uint (Z.to_N z)).
Proof.
  intros Hz. unfold to_string, print_uint.
  replace (z <? 0)%Z with false by (symmetry; apply Z.ltb_ge; lia).
  replace (Z.abs_N z) with (Z.to_N z) by (by destruct z).
  pose proof (to_uint_nonnil (Z.to_N z)) as Hnil.
  by destruct (N.to_uint (Z.to_N z)).
Qed.

Lemma to_string_text z : (0 ≤ z)%Z → quantity_text (to_string z).
Proof.
  intros Hz. rewrite to_string_print by done. split; [|apply print_digits].
  intros Hnil. apply (f_equal length) in Hnil.
  rewrite length_print in Hnil. simpl in Hnil.
  by apply DecimalFacts.nb_digits_0, to_uint_nonnil in Hnil.
Qed.

Lemma number_to_string z : (0 ≤ z)%Z → number (to_string z) = z.
Proof.
  intros Hz. unfold number.
  rewrite to_string_print, leading_digits_print by done.
  rewrite DecimalN.Unsigned.of_to. lia.
Qed.

Lemma number_nonneg s : (0 ≤ number s)%Z.
Proof. unfold number. lia. Qed.

(** [std::stoi] on a quantity: its number, unless that is beyond
    [INT_MAX]. *)
Lemma stoi_text s :
  quantity_text s →
  stoi s = if (number s <=? INT_MAX)%Z then ok (number s) else out_of_range.
Proof.
  intros [Hne Hs]. destruct s as [|c s]; [done|].
  apply Forall_cons in Hs as [[f Hc] Hs].
  destruct (digit_of_cases c f Hc) as (Hsp & Hm & Hp & Hnil & _).
  unfold stoi. simpl skip_spaces. rewrite Hsp.
  assert (strip_sign (c :: s) = (false, c :: s)) as ->.
  { destruct c as [[] [] [] [] [] [] [] []]; done. }
  assert (leading_digits (c :: s) = f (leading_digits s)) as Hd
    by (simpl; by rewrite Hc).
  unfold number. specialize (Hnil (leading_digits s)). rewrite <-Hd in Hnil.
  assert (to_int false (leading_digits (c :: s))
          = if (INT_MIN <=? Z.of_N (N.of_uint (leading_digits (c :: s))))%Z
               && (Z.of_N (N.of_uint (leading_digits (c :: s))) <=? INT_MAX)%Z
            then ok (Z.of_N (N.of_uint (leading_digits (c :: s))))
            else out_of_range) as ->.
  { by destruct (leading_digits (c :: s)). }
  by replace (INT_MIN <=? _)%Z with true
    by (symmetry; apply Z.leb_le; unfold INT_MIN; lia).
Qed.

Lemma stoi_to_string z :
  (0 ≤ z ≤ INT_MAX)%Z → stoi (to_string z) = ok z.
Proof.
  intros Hz. rewrite stoi_text by (apply to_string_text; lia).
  rewrite number_to_string by lia.
  by replace (z <=? INT_MAX)%Z with true by (symmetry; apply Z.leb_le; lia).
Qed.

(** Printing the number of a quantity drops its leading zeros. *)
Lemma length_to_string_number s :
  quantity_text s → length (to_string (number s)) ≤ length s.
Proof.
  intros [Hne Hs]. rewrite to_string_print by apply number_nonneg.
  unfold number. rewrite N2Z.id, DecimalN.Unsigned.to_of, length_print.
  rewrite <-(length_leading_digits s Hs).
  apply DecimalFacts.nb_digits_unorm.
  intros Hnil. apply (f_equal Decimal.nb_digits) in Hnil.
  rewrite length_leading_digits in Hnil by done.
  by destruct s.
Qed.

Lemma length_to_string_zero t :
  quantity_text t →
  length (to_string (number ("0"%char :: t))) ≤ length t.
Proof.
  intros Ht. rewrite <-(length_to_string_number t Ht).
  unfold number. simpl leading_digits.
  rewrite !to_string_print by lia. rewrite !N2Z.id.
  by rewrite !DecimalN.Unsigned.to_of, DecimalFacts.unorm_D0.
Qed.
End quantity_strings.

Section quantity_bounds.
Import Config.
Implicit Types s t : list ascii.
Implicit Types d : Decimal.uint.

Lemma of_uint_acc_bound d : ∀ acc,
  (Z.pos (Pos.of_uint_acc d acc)
   < (Z.pos acc + 1) * 10 ^ Z.of_nat (Decimal.nb_digits d))%Z.
Proof.
  induction d as [|d IH|d IH|d IH|d IH|d IH|d IH|d IH|d IH|d IH|d IH];
    intros acc; cbn [Pos.of_uint_acc Decimal.nb_digits];
    [simpl; lia|..];
    rewrite Nat2Z.inj_succ, Z.pow_succ_r by lia;
    (eapply Z.lt_le_trans; [apply IH|]);
    assert (0 < 10 ^ Z.of_nat (Decimal.nb_digits d))%Z
      by (apply Z.pow_pos_nonneg; lia);
    nia.
Qed.

Lemma of_uint_bound d :
  (Z.of_N (N.of_uint d) < 10 ^ Z.of_nat (Decimal.nb_digits d))%Z.
Proof.
  unfold N.of_uint.
  induction d as [|d IH|d IH|d IH|d IH|d IH|d IH|d IH|d IH|d IH|d IH];
    cbn [Pos.of_uint Decimal.nb_digits];
    [simpl; lia|..];
    rewrite Nat2Z.inj_succ, Z.pow_succ_r by lia;
    assert (0 < 10 ^ Z.of_nat (Decimal.nb_digits d))%Z
      by (apply Z.pow_pos_nonneg; lia);
    [lia|..];
    (match goal with
     | |- (Z.of_N (N.pos (Pos.of_uint_acc _ ?a)) < _)%Z =>
         pose proof (of_uint_acc_bound d a)
     end);
    cbn [Z.of_N]; nia.
Qed.

(** A quantity of [n] digits is less than 10 ^ n. *)
Lemma number_bound s :
  Forall is_digit s → (number s < 10 ^ Z.of_nat (length s))%Z.
Proof.
  intros Hs. unfold number. rewrite <-(length_leading_digits s Hs).
  apply of_uint_bound.
Qed.

Lemma number_fits s :
  Forall is_digit s → length s ≤ 9 → (number s ≤ INT_MAX)%Z.
Proof.
  intros Hs Hlen. pose proof (number_bound s Hs) as Hb.
  assert (10 ^ Z.of_nat (length s) ≤ 10 ^ 9)%Z
    by (apply Z.pow_le_mono_r; lia).
  unfold INT_MAX. lia.
Qed.

Lemma size_t_of_int_id z : (0 ≤ z < 2 ^ 64)%Z → size_t_of_int z = z.
Proof. intros Hz. unfold size_t_of_int. by apply Z.mod_small. Qed.

(** What [parse_n] makes of a quantity. *)
Lemma parse_n_text s u :
  quantity_text s →
  parse_n s u
  = if (number s <=? INT_MAX)%Z then
      ok (with_string (to_string (number s))
            (with_anim (set_n (Z.to_nat (number s)) (anim u)) u))
    else out_of_range.
Proof.
  intros Hs. unfold parse_n. rewrite stoi_text by done.
  destruct (Z.leb_spec (number s) INT_MAX) as [Hle|Hgt]; [|done].
  simpl. pose proof (number_nonneg s).
  rewrite size_t_of_int_id by (unfold INT_MAX in Hle; lia).
  by rewrite Z2Nat.id by done.
Qed.

Lemma update_n_text u :
  Forall is_digit (config_n_string u) →
  update_n u
  = match config_n_string u with
    | [] => ok (with_string ["0"%char] (with_anim (set_n 0 (anim u)) u))
    | s => parse_n s u
    end.
Proof.
  intros Hs. unfold update_n. by destruct (config_n_string u).
Qed.

Lemma update_n_parse u :
  quantity_text (config_n_string u) →
  update_n u = parse_n (config_n_string u) u.
Proof.
  intros [Hne _]. unfold update_n. by destruct (config_n_string u).
Qed.
End quantity_bounds.

(** * The keys of the configuration screen *)

Section config_keys.
Import Animator Config.
Variable shuffle : list SortingDatum → list SortingDatum.
Implicit Types s t a b : list ascii.
Implicit Types u : ui.

Lemma substr_ok s pos n a :
  substr s pos n = ok a →
  (pos ≤ Z.of_nat (length s))%Z
  ∧ a = take (Z.to_nat (Z.min n (Z.of_nat (length s) - pos)))
          (drop (Z.to_nat pos) s).
Proof.
  unfold substr. destruct (Z.leb_spec pos (Z.of_nat (length s))); [|done].
  intros Ha. by injection Ha as <-.
Qed.

Lemma substr_digits s pos n a :
  Forall is_digit s → substr s pos n = ok a → Forall is_digit a.
Proof.
  intros Hs Ha. apply substr_ok in Ha as [_ ->].
  by apply Forall_take, Forall_drop.
Qed.

Lemma substr_length s pos n a :
  (0 ≤ pos)%Z → (0 ≤ n)%Z → substr s pos n = ok a →
  Z.of_nat (length a) = Z.min n (Z.of_nat (length s) - pos).
Proof.
  intros Hpos Hn Ha. apply substr_ok in Ha as [Hle ->].
  rewrite length_take, length_drop. lia.
Qed.

(** What the handlers make of the string after [update_n] or an
    erasure. *)
Lemma after_erasure_ok s u u1 :
  Forall is_digit s → after_erasure s u = ok u1 →
  ∃ n, u1 = with_string (to_string (Z.of_nat n))
              (with_anim (set_n n (anim u)) u)
       ∧ (Z.of_nat n ≤ INT_MAX)%Z
       ∧ Z.of_nat n = number s
       ∧ length (to_string (Z.of_nat n)) ≤ max 1 (length s).
Proof.
  intros Hs Hu. destruct s as [|c s].
  { simpl in Hu. injection Hu as <-. exists 0. split_and!; done. }
  assert (quantity_text (c :: s)) as Ht by done.
  unfold after_erasure in Hu. rewrite parse_n_text in Hu by done.
  destruct (Z.leb_spec (number (c :: s)) INT_MAX) as [Hle|Hgt]; [|done].
  injection Hu as <-. exists (Z.to_nat (number (c :: s))).
  pose proof (number_nonneg (c :: s)).
  rewrite !Z2Nat.id by done. split_and!; try done.
  pose proof (length_to_string_number (c :: s) Ht). lia.
Qed.

Lemma update_n_ok u u1 :
  Forall is_digit (config_n_string u) → update_n u = ok u1 →
  ∃ n, u1 = with_string (to_string (Z.of_nat n))
              (with_anim (set_n n (anim u)) u)
       ∧ (Z.of_nat n ≤ INT_MAX)%Z
       ∧ Z.of_nat n = number (config_n_string u)
       ∧ length (to_string (Z.of_nat n)) ≤ max 1 (length (config_n_string u)).
Proof.
  intros Hs Hu. rewrite update_n_text in Hu by done.
  assert (after_erasure (config_n_string u) u = ok u1) as Hu'
    by (unfold after_erasure; by destruct (config_n_string u)).
  exact (after_erasure_ok (config_n_string u) u u1 Hs Hu').
Qed.

Lemma num_value_digit k d :
  num_value k = Some d → quantity_text (to_string d) ∧ length (to_string d) = 1.
Proof.
  destruct k; intros Hd; try done; injection Hd as <-;
    (split; [split; [done|]; repeat constructor; by eexists|done]).
Qed.

Lemma sort_setup_algos st :
  sort_algos (sort_setup shuffle st) = sort_algos st.
Proof.
  unfold sort_setup. destruct (enqueue_selected _ _ _ _) as [queue threads].
  by destruct (length queue =? 0).
Qed.

Lemma toggle_registered i algos :
  registered (toggle i algos) = registered algos.
Proof.
  unfold toggle, registered. apply list_eq. intros j.
  rewrite !list_lookup_fmap.
  destruct (decide (i = j)) as [->|Hij].
  - rewrite list_lookup_alter_eq. by destruct (algos !! j).
  - by rewrite list_lookup_alter_ne.
Qed.

Lemma length_toggle i algos : length (toggle i algos) = length algos.
Proof. unfold toggle. by rewrite length_alter. Qed.

Lemma update_n_kept u u1 :
  Forall is_digit (config_n_string u) → update_n u = ok u1 →
  ∃ n, u1 = with_string (to_string (Z.of_nat n))
              (with_anim (set_n n (anim u)) u)
       ∧ quantity_text (to_string (Z.of_nat n)).
Proof.
  intros Hdig Hu1. apply update_n_ok in Hu1 as (n & -> & _); [|done].
  exists n. split; [done|]. apply to_string_text. lia.
Qed.

Lemma after_erasure_kept a b u u1 :
  Forall is_digit a → Forall is_digit b →
  after_erasure (a ++ b) u = ok u1 →
  ∃ n, u1 = with_string (to_string (Z.of_nat n))
              (with_anim (set_n n (anim u)) u)
       ∧ quantity_text (to_string (Z.of_nat n)).
Proof.
  intros Ha Hb Hu1.
  apply after_erasure_ok in Hu1 as (n & -> & _); [|by apply Forall_app].
  exists n. split; [done|]. apply to_string_text. lia.
Qed.

Local Ltac kept :=
  simpl; split_and?; auto; try lia;
  try (right; split_and?; auto; fail).

(** What a key of the configuration screen can do, when the handler
    returns. *)
Lemma handle_key_config_shape k u u' :
  config_ok u → handle_key_config shuffle k u = ok u' →
  config_ok u'
  ∧ registered (sort_algos (anim u')) = registered (sort_algos (anim u))
  ∧ window_open u' = window_open u
  ∧ ((k = Enter ∧ config_field u = (algos_size u + 1)%Z
      ∧ anim u' = set_mode SORTING (sort_setup shuffle (anim u)))
     ∨ (sort_data (anim u') = sort_data (anim u)
        ∧ sort_queue (anim u') = sort_queue (anim u)
        ∧ sort_threads (anim u') = sort_threads (anim u)
        ∧ (mode (anim u') = mode (anim u) ∨ mode (anim u') = HELP
           ∨ mode (anim u') = START))).
Proof.
  intros (Hf & He & Hne & Hdig) Hk. unfold handle_key_config in Hk.
  destruct (num_value k) as [d|] eqn:Hd.
  { destruct (substr _ 0 _) as [a| | | |] eqn:Ea; try done.
    destruct (substr _ (size_t_of_int _) _) as [b| | | |] eqn:Eb; try done.
    simpl in Hk. injection Hk as <-.
    destruct (num_value_digit k d Hd) as [[Hd1 Hd2] _].
    apply substr_digits in Ea, Eb; try done.
    split_and!; try done; [|right; by split_and!; try left].
    unfold config_ok, algos_size, n_size in *. simpl.
    split_and!; try lia. split; [by destruct a, (to_string d)|].
    by rewrite !Forall_app. }
  assert (quantity_text (config_n_string u)) as Hq by done.
  unfold config_ok, entry_at_end, set_ui_mode, algos_size, n_size in *.
  destruct k; try done; clear Hd.
  - (* H *) injection Hk as <-. kept.
  - (* R *) injection Hk as <-. kept.
  - (* Up *) simpl in Hk. destruct (Z.max 0 _ =? 0)%Z eqn:E;
      injection Hk as <-; kept.
  - (* Down *) destruct (config_field u =? 0)%Z eqn:E.
    + destruct (update_n u) as [u1| | | |] eqn:Eu; try done.
      apply update_n_kept in Eu as (n & -> & Hn); [|done]. injection Hk as <-. kept.
    + injection Hk as <-. kept.
  - (* Left *) destruct (config_field u =? 0)%Z eqn:E.
    + injection Hk as <-. kept.
    + simpl in Hk. destruct (config_field u - 1 =? 0)%Z eqn:E';
        injection Hk as <-; kept.
  - (* Right *) destruct (config_field u =? 0)%Z eqn:E.
    + destruct (config_entry u <? _)%Z; simpl in Hk.
      * injection Hk as <-. kept.
      * destruct (update_n u) as [u1| | | |] eqn:Eu; try done.
        apply update_n_kept in Eu as (n & -> & Hn); [|done]. injection Hk as <-. kept.
    + simpl in Hk. destruct (config_field u <? _)%Z eqn:E';
        injection Hk as <-; kept.
  - (* Backspace *)
    destruct ((config_field u =? 0)%Z && (0 <? config_entry u)%Z) eqn:E.
    + destruct (substr _ 0 _) as [a| | | |] eqn:Ea; try done.
      destruct (substr _ (size_t_of_int _) _) as [b| | | |] eqn:Eb;
        try done.
      apply substr_digits in Ea, Eb; try done. simpl in Hk.
      destruct (after_erasure (a ++ b) u) as [u1| | | |] eqn:Eu; try done.
      apply after_erasure_kept in Eu as (n & -> & Hn); try done.
      injection Hk as <-. kept.
    + injection Hk as <-. kept.
  - (* Delete *)
    destruct ((config_field u =? 0)%Z && (config_entry u <? _)%Z) eqn:E.
    + destruct (substr _ 0 _) as [a| | | |] eqn:Ea; try done.
      destruct (substr _ (size_t_of_int _) _) as [b| | | |] eqn:Eb;
        try done.
      apply substr_digits in Ea, Eb; try done. simpl in Hk.
      apply after_erasure_kept in Hk as (n & -> & Hn); try done.
      kept.
    + injection Hk as <-. kept.
  - (* Tab *)
    assert (∀ f, 0 ≤ size_t_of_int f
                    `mod` (Z.of_nat (length (sort_algos (anim u))) + 2)
                 ≤ Z.of_nat (length (sort_algos (anim u))) + 1)%Z as Hmod.
    { intros f.
      pose proof (Z.mod_pos_bound (size_t_of_int f)
                    (Z.of_nat (length (sort_algos (anim u))) + 2)
                    ltac:(lia)). lia. }
    destruct (config_field u =? 0)%Z eqn:E.
    + destruct (update_n u) as [u1| | | |] eqn:Eu; try done.
      apply update_n_kept in Eu as (n & -> & Hn); [|done].
      cbn [mbind result_bind config_field with_field] in Hk.
      destruct (_ `mod` _ =? 0)%Z; injection Hk as <-; simpl;
        split_and!; auto; try apply Hmod; try lia; kept.
    + cbn [mbind result_bind config_field with_field] in Hk.
      destruct (_ `mod` _ =? 0)%Z; injection Hk as <-; simpl;
        split_and!; auto; try apply Hmod; try lia; kept.
  - (* Enter *) destruct (config_field u =? 0)%Z eqn:E.
    + destruct (update_n u) as [u1| | | |] eqn:Eu; try done.
      apply update_n_kept in Eu as (n & -> & Hn); [|done]. injection Hk as <-. kept.
    + destruct (config_field u <? _)%Z eqn:E'.
      * destruct (config_field u <? 0)%Z; [done|].
        injection Hk as <-. simpl. rewrite length_toggle, toggle_registered.
        kept.
      * injection Hk as <-. simpl. rewrite sort_setup_algos.
        kept. left. apply Z.ltb_ge in E'. split_and!; auto. lia.
  - (* Escape *) injection Hk as <-. kept.
  - (* OtherKey *) injection Hk as <-. kept.
Qed.
End config_keys.

Section config_returns.
Import Animator Config.
Implicit Types s t a b : list ascii.
Implicit Types u : ui.

Lemma substr_returns s pos n :
  (pos ≤ Z.of_nat (length s))%Z →
  substr s pos n
  = ok (take (Z.to_nat (Z.min n (Z.of_nat (length s) - pos)))
          (drop (Z.to_nat pos) s)).
Proof.
  intros Hpos. unfold substr.
  by replace (pos <=? Z.of_nat (length s))%Z with true
    by (symmetry; apply Z.leb_le; lia).
Qed.

Lemma after_erasure_returns s u :
  Forall is_digit s → length s ≤ 9 → ∃ u1, after_erasure s u = ok u1.
Proof.
  intros Hs Hlen. destruct s as [|c s]; [by eexists|].
  unfold after_erasure. rewrite parse_n_text by done.
  replace (number (c :: s) <=? INT_MAX)%Z with true; [by eexists|].
  symmetry. apply Z.leb_le. by apply number_fits.
Qed.

Lemma update_n_returns u :
  quantity_text (config_n_string u) → length (config_n_string u) ≤ 9 →
  ∃ u1, update_n u = ok u1.
Proof.
  intros Hs Hlen. rewrite update_n_parse, parse_n_text by done.
  replace (number (config_n_string u) <=? INT_MAX)%Z with true;
    [by eexists|].
  symmetry. apply Z.leb_le. apply number_fits; [apply Hs|done].
Qed.
End config_returns.

Section config_statements.
Import Animator Config.
Variable shuffle : list SortingDatum → list SortingDatum.
Implicit Types s t a b : list ascii.
Implicit Types u : ui.

(** X15.  When [update_n] returns on a string of digits, [sort_n] fits an
    [int], [config_n_string] is its decimal representation, no longer
    than the string was, and a second [update_n] changes nothing; the
    cursor [config_entry] stays where it was. *)
Theorem update_n_normalises u u' :
  Forall is_digit (config_n_string u) → update_n u = ok u' →
  (Z.of_nat (sort_n (anim u')) ≤ INT_MAX)%Z
  ∧ Z.of_nat (sort_n (anim u')) = number (config_n_string u)
  ∧ config_n_string u' = to_string (Z.of_nat (sort_n (anim u')))
  ∧ length (config_n_string u') ≤ max 1 (length (config_n_string u))
  ∧ config_entry u' = config_entry u
  ∧ config_field u' = config_field u
  ∧ update_n u' = ok u'.
Proof.
  intros Hdig Hu.
  apply update_n_ok in Hu as (n & -> & Hn & Hnum & Hlen); [|done].
  simpl. split_and!; try done.
  pose proof (to_string_text (Z.of_nat n) ltac:(lia)) as Ht.
  rewrite update_n_parse, parse_n_text by done. simpl.
  rewrite number_to_string by lia.
  replace (Z.of_nat n <=? INT_MAX)%Z with true
    by (symmetry; apply Z.leb_le; lia).
  by rewrite Nat2Z.id.
Qed.

(** X16.  A key of the configuration screen, when its handler returns, leaves
    [config_field] within [0, sort_algos.size() + 1], [config_entry]
    non-negative and [config_n_string] a non-empty string of digits; it
    keeps the registered names and procedures, and the datasets, queue
    and threads unless it is Enter on "Continue". *)
Theorem config_key_keeps k u u' :
  config_ok u → handle_key_config shuffle k u = ok u' →
  config_ok u'
  ∧ registered (sort_algos (anim u')) = registered (sort_algos (anim u))
  ∧ (k ≠ Enter ∨ config_field u ≠ (algos_size u + 1)%Z →
     sort_data (anim u') = sort_data (anim u)
     ∧ sort_queue (anim u') = sort_queue (anim u)
     ∧ sort_threads (anim u') = sort_threads (anim u)).
Proof.
  intros Hok Hk.
  destruct (handle_key_config_shape shuffle k u u' Hok Hk)
    as (Hok' & Hreg & _ & Hses).
  split_and!; try done.
  intros Hne. destruct Hses as [(-> & Hf & _)|(Hd & Hq & Ht & _)];
    [by destruct Hne|done].
Qed.

(** X17.  With the cursor inside the string and at most nine digits typed,
    every key of the configuration screen is handled without an
    exception. *)
Theorem config_key_returns k u :
  config_ok u → (config_entry u ≤ n_size u)%Z → (n_size u ≤ 9)%Z →
  ∃ u', handle_key_config shuffle k u = ok u'.
Proof.
  intros (Hf & He & Hq) Hentry Hsize. pose proof Hq as [Hne Hdig].
  unfold n_size in *.
  assert (size_t_of_int (config_entry u) = config_entry u) as Hse
    by (apply size_t_of_int_id; lia).
  destruct (update_n_returns u Hq ltac:(lia)) as [u1 Hu1].
  unfold handle_key_config.
  destruct (num_value k) as [d|] eqn:Hd.
  { rewrite Hse, !substr_returns by lia. by eexists. }
  destruct k; try done; clear Hd; try (by eexists).
  - (* Down *) destruct (config_field u =? 0)%Z; [rewrite Hu1|]; by eexists.
  - (* Left *) destruct (config_field u =? 0)%Z; by eexists.
  - (* Right *) destruct (config_field u =? 0)%Z; simpl.
    + destruct (config_entry u <? _)%Z; [|rewrite Hu1]; by eexists.
    + destruct (config_field u <? _)%Z; by eexists.
  - (* Backspace *)
    destruct ((config_field u =? 0)%Z && (0 <? config_entry u)%Z) eqn:E;
      [|by eexists].
    apply andb_true_iff in E as [_ E]. apply Z.ltb_lt in E.
    rewrite Hse, size_t_of_int_id, !substr_returns by lia. simpl.
    destruct (after_erasure_returns
                (take (Z.to_nat (Z.min (config_entry u - 1)
                   (Z.of_nat (length (config_n_string u)) - 0)))
                   (drop (Z.to_nat 0) (config_n_string u))
                 ++ take (Z.to_nat (Z.min npos
                      (Z.of_nat (length (config_n_string u))
                       - config_entry u)))
                      (drop (Z.to_nat (config_entry u)) (config_n_string u)))
                u) as [u2 ->]; [| |by eexists].
    + apply Forall_app. split; by apply Forall_take, Forall_drop.
    + rewrite length_app, !length_take, !length_drop. lia.
  - (* Delete *)
    destruct ((config_field u =? 0)%Z && (config_entry u <? _)%Z) eqn:E;
      [|by eexists].
    apply andb_true_iff in E as [_ E]. apply Z.ltb_lt in E.
    unfold n_size in E.
    rewrite Hse, size_t_of_int_id, !substr_returns by lia. simpl.
    apply after_erasure_returns.
    + apply Forall_app. split; by apply Forall_take, Forall_drop.
    + rewrite length_app, !length_take, !length_drop. lia.
  - (* Tab *) destruct (config_field u =? 0)%Z; [rewrite Hu1|]; by eexists.
  - (* Enter *) destruct (config_field u =? 0)%Z eqn:E0.
    + rewrite Hu1. by eexists.
    + destruct (config_field u <? _)%Z; [|by eexists].
      replace (config_field u <? 0)%Z with false
        by (symmetry; apply Z.ltb_ge; lia).
      by eexists.
Qed.

(** X18.  Erasing the last digit of a quantity that starts with a zero strands
    the cursor: [config_n_string] is reprinted without its leading
    zeros, [config_entry] only steps back by one and ends beyond the
    end of the string.  The next digit key or Backspace then calls
    [substr] with a position beyond the size, and [std::out_of_range]
    leaves the handler. *)
Theorem erasure_strands_cursor u t :
  config_ok u → config_field u = 0%Z → config_entry u = n_size u →
  config_n_string u = "0"%char :: t → 2 ≤ length t ≤ 9 →
  ∃ u1,
    handle_key_config shuffle Backspace u = ok u1
    ∧ config_ok u1
    ∧ (n_size u1 < config_entry u1)%Z
    ∧ ∀ k, is_Some (num_value k) ∨ k = Backspace →
        handle_key_config shuffle k u1 = out_of_range.
Proof.
  intros (Hf & He & Hne & Hdig) Hfield Hentry Hs Hlen.
  unfold n_size in *. rewrite Hs in Hentry, Hdig. simpl in Hentry.
  apply Forall_cons in Hdig as [H0 Ht].
  set (t' := take (length t - 1) t).
  assert (quantity_text t') as Ht'.
  { split; [|by apply Forall_take].
    intros Hnil. apply (f_equal length) in Hnil.
    unfold t' in Hnil. rewrite length_take in Hnil. simpl in Hnil. lia. }
  assert (length t' = length t - 1) as Hlen'
    by (unfold t'; rewrite length_take; lia).
  assert (handle_key_config shuffle Backspace u
          = ok (with_entry (config_entry u - 1)
                  (with_string (to_string (number ("0"%char :: t')))
                     (with_anim
                        (set_n (Z.to_nat (number ("0"%char :: t'))) (anim u))
                        u)))) as Hback.
  { unfold handle_key_config. simpl num_value. cbv iota.
    rewrite Hfield, Hentry, Hs.
    replace (0 <? Z.of_nat (S (length t)))%Z with true
      by (symmetry; apply Z.ltb_lt; lia).
    cbn [Z.eqb andb].
    rewrite !size_t_of_int_id by lia.
    rewrite !substr_returns by (simpl; lia).
    cbn [mbind result_bind].
    replace (take _ (drop (Z.to_nat 0) ("0"%char :: t))
             ++ take _ (drop _ ("0"%char :: t)))
      with ("0"%char :: t').
    2:{ rewrite Nat2Z.id.
        rewrite (drop_ge _ (S (length t))) by (simpl; lia).
        rewrite take_nil, app_nil_r. change (Z.to_nat 0) with 0.
        rewrite drop_0.
        replace (Z.to_nat _) with (S (length t - 1)) by (simpl length; lia).
        done. }
    unfold after_erasure.
    rewrite parse_n_text by (split; [done|by constructor; [|apply Ht']]).
    replace (number ("0"%char :: t') <=? INT_MAX)%Z with true.
    { cbn [mbind result_bind config_entry with_string with_anim].
      by rewrite Hentry. }
    symmetry. apply Z.leb_le, number_fits; [|simpl; lia].
    constructor; [done|apply Ht']. }
  eexists. split; [exact Hback|].
  pose proof (length_to_string_zero t' Ht') as Hshort.
  pose proof (to_string_text (number ("0"%char :: t'))
                (number_nonneg _)) as Htext.
  assert (config_ok (with_entry (config_entry u - 1)
            (with_string (to_string (number ("0"%char :: t')))
               (with_anim
                  (set_n (Z.to_nat (number ("0"%char :: t'))) (anim u))
                  u)))) as Hok1.
  { unfold config_ok, algos_size in *. simpl. split_and!; try lia; done. }
  split; [exact Hok1|].
  split; [unfold n_size; simpl; lia|].
  intros k Hk. unfold handle_key_config.
  assert (∀ n,
    substr (to_string (number ("0"%char :: t')))
      (size_t_of_int (config_entry u - 1)) n = out_of_range) as Hthrow.
  { intros n. unfold substr. rewrite size_t_of_int_id by lia.
    by replace (_ <=? _)%Z with false by (symmetry; apply Z.leb_gt; lia). }
  destruct Hk as [[d Hd]| ->].
  - rewrite Hd. cbn [config_n_string config_entry with_entry with_string].
    rewrite Hthrow, substr_returns by lia. done.
  - simpl num_value. cbv iota.
    cbn [config_n_string config_entry config_field with_entry with_string
         with_anim].
    rewrite Hfield.
    replace (0 <? config_entry u - 1)%Z with true
      by (symmetry; apply Z.ltb_lt; lia).
    cbn [Z.eqb andb]. rewrite Hthrow, substr_returns by lia. done.
Qed.

(** X19.  A quantity beyond [INT_MAX] makes [std::stoi] throw
    [std::out_of_range]: in [update_n], so in the handler of Down, Tab
    and Enter on the quantity field, and in the handler of every mouse
    press on the configuration screen. *)
Theorem quantity_overflow_throws u :
  quantity_text (config_n_string u) →
  (INT_MAX < number (config_n_string u))%Z →
  update_n u = out_of_range
  ∧ (config_field u = 0%Z →
     ∀ k, k ∈ [Down; Tab; Enter] →
       handle_key_config shuffle k u = out_of_range)
  ∧ (mode (anim u) = CONFIG →
     ∀ h, handle_mouse_pressed shuffle h u = out_of_range).
Proof.
  intros Hq Hbig.
  assert (update_n u = out_of_range) as Hu.
  { rewrite update_n_parse, parse_n_text by done.
    by replace (_ <=? _)%Z with false by (symmetry; apply Z.leb_gt; lia). }
  split_and!; [done| |].
  - intros Hfield k Hk. unfold handle_key_config.
    repeat (apply elem_of_cons in Hk as [->|Hk]);
      [| | |by apply elem_of_nil in Hk];
      simpl num_value; cbv iota; by rewrite Hfield, Hu.
  - intros Hmode h. unfold handle_mouse_pressed. by rewrite Hmode, Hu.
Qed.
End config_statements.

(** * The event loop *)

Section event_loop.
Import Animator Config.
Implicit Types u : ui.
Implicit Types st : state.

Lemma length_push_back_at j x data :
  length (push_back_at j x data) = length data.
Proof. unfold push_back_at. by rewrite length_insert. Qed.

Lemma length_fill_base n : ∀ i data,
  length (fill_base n i data) = length data.
Proof.
  induction n as [|n IH]; intros i data; simpl; [done|].
  by rewrite IH, length_push_back_at.
Qed.

Lemma length_fill_copy n : ∀ i j data,
  length (fill_copy n i j data) = length data.
Proof.
  induction n as [|n IH]; intros i j data; simpl; [done|].
  by rewrite IH, length_push_back_at.
Qed.

Lemma length_make_copies m : ∀ j n data,
  length (make_copies m j n data) = length data + m.
Proof.
  induction m as [|m IH]; intros j n data; simpl; [lia|].
  rewrite IH, length_fill_copy, length_app. simpl. lia.
Qed.

Lemma length_restart_row n : ∀ j i k data,
  length (restart_row n j i k data) = length data.
Proof.
  induction n as [|n IH]; intros j i k data; simpl; [done|].
  rewrite IH. unfold set_value. by rewrite length_insert.
Qed.

Lemma length_restart_rows m : ∀ i k n data,
  length (restart_rows m i k n data) = length data.
Proof.
  induction m as [|m IH]; intros i k n data; simpl; [done|].
  by rewrite IH, length_restart_row.
Qed.

Lemma running_not_idle m :
  m = SORTING ∨ m = SORTED → ¬ m ∈ [START; HELP; CONFIG].
Proof.
  intros [-> | ->] Hm;
    repeat (apply elem_of_cons in Hm as [Hm|Hm]; [done|]);
    by apply elem_of_nil in Hm.
Qed.

Lemma idle_modes m :
  m = START ∨ m = HELP ∨ m = CONFIG → m ∈ [START; HELP; CONFIG].
Proof.
  intros [-> | [-> | ->]]; repeat (constructor; try done).
Qed.

(** [sort_setup] from the configuration screen. *)
Lemma sort_setup_tidy shuffle st :
  sort_data st = [] → sort_queue st = [] → sort_threads st = [] →
  tidy (set_mode SORTING (sort_setup shuffle st)).
Proof.
  intros Hd Hq Ht. split.
  { intros Hm. by apply running_not_idle in Hm; [|left]. }
  unfold sort_setup. rewrite Hd, Hq, Ht.
  destruct (enqueue_selected_spec (sort_algos st) 0 [] [])
    as (idx & -> & _).
  simpl app. destruct idx as [|i idx]; [done|].
  cbn [length Nat.eqb set_mode sort_data].
  intros Hnil. apply (f_equal length) in Hnil.
  rewrite length_make_copies, length_insert, length_fill_base in Hnil.
  simpl in Hnil. lia.
Qed.

Lemma handle_key_sorted_tidy k st :
  tidy st →
  tidy (handle_key_sorted k st)
  ∧ sort_algos (handle_key_sorted k st) = sort_algos st.
Proof.
  intros [Hidle Hnil].
  assert ((0 <? length (sort_data st)) = false → sort_data st = [])
    as Hempty.
  { intros E. apply Nat.ltb_ge in E. destruct (sort_data st); [done|].
    simpl in E. lia. }
  assert (tidy (if 0 <? length (sort_data st) then
                  {| mode := CONFIG; sort_algos := sort_algos st;
                     sort_n := sort_n st; sort_data := [];
                     sort_queue := []; sort_threads := [] |}
                else set_mode CONFIG st)
          ∧ sort_algos (if 0 <? length (sort_data st) then
                  {| mode := CONFIG; sort_algos := sort_algos st;
                     sort_n := sort_n st; sort_data := [];
                     sort_queue := []; sort_threads := [] |}
                else set_mode CONFIG st) = sort_algos st) as Hleave.
  { destruct (0 <? length (sort_data st)) eqn:E; (split; [|done]).
    - by split.
    - split; [intros _; by apply Hempty|done]. }
  destruct k; simpl; try exact Hleave; [|by split].
  split; [|done]. split.
  - intros Hm. by apply running_not_idle in Hm; [|left].
  - simpl. intros Hd. apply Hnil. apply (f_equal length) in Hd.
    rewrite length_restart_rows in Hd. by destruct (sort_data st).
Qed.

Lemma sort_launch_tidy st st' :
  tidy st → sort_launch st = Some st' →
  tidy st' ∧ sort_algos st' = sort_algos st.
Proof.
  intros [Hidle Hnil] Hl. unfold sort_launch in Hl.
  destruct (run_threads _ 0 st) as [st1|] eqn:Hrun; [|done].
  simpl in Hl. injection Hl as <-.
  pose proof (run_threads_spec _ _ _ _ Hrun) as (Hq & Ha & _ & Hlen & _).
  split; [|done]. split.
  { intros Hm. by apply running_not_idle in Hm; [|right]. }
  simpl. rewrite draw_rows_end. intros Hd.
  assert (sort_data st = []) as Hd0.
  { rewrite Hd in Hlen. by destruct (sort_data st). }
  destruct (Hnil Hd0) as [Hq0 Ht0].
  rewrite Hq0 in Hrun. simpl in Hrun. injection Hrun as <-. done.
Qed.

Lemma registered_length algos algos' :
  registered algos' = registered algos → length algos' = length algos.
Proof.
  unfold registered. intros H. apply (f_equal length) in H.
  by rewrite !length_fmap in H.
Qed.

Lemma config_ok_ext u u' :
  config_field u' = config_field u → config_entry u' = config_entry u →
  config_n_string u' = config_n_string u →
  registered (sort_algos (anim u')) = registered (sort_algos (anim u)) →
  config_ok u → config_ok u'.
Proof.
  unfold config_ok, algos_size. intros -> -> -> Hr.
  by rewrite (registered_length _ _ Hr).
Qed.

Lemma tidy_ext st st' :
  sort_data st' = sort_data st → sort_queue st' = sort_queue st →
  sort_threads st' = sort_threads st →
  (mode st' = mode st ∨ mode st ∈ [START; HELP; CONFIG]) →
  tidy st → tidy st'.
Proof.
  unfold tidy. intros -> -> -> Hm [Hidle Hnil]. split; [|done].
  destruct Hm as [-> | Hm]; [done|]. intros _. by apply Hidle.
Qed.

Section handlers.
Variable R : list (string * sort_fn).
Variable shuffle : list SortingDatum → list SortingDatum.

Lemma handle_key_steady k u u' :
  steady R u → handle_key shuffle k u = ok u' → steady R u'.
Proof.
  intros (Hok & Htidy & Hreg) Hk. unfold handle_key in Hk.
  destruct (mode (anim u)) eqn:Hmode.
  - injection Hk as <-. split_and!; [done| |done].
    apply (tidy_ext (anim u)); try done. right. rewrite Hmode.
    apply idle_modes. by left.
  - injection Hk as <-. unfold handle_key_help.
    destruct k; try done; (split_and!; [done| |done]);
      (apply (tidy_ext (anim u)); try done; right; rewrite Hmode;
       apply idle_modes; by right; left).
  - destruct (handle_key_config_shape shuffle k u u' Hok Hk)
      as (Hok' & Hreg' & _ & Hses).
    split_and!; [done| |by rewrite Hreg'].
    destruct Htidy as [Hidle Hnil].
    assert (sort_data (anim u) = []) as Hd
      by (apply Hidle; rewrite Hmode; apply idle_modes; by right; right).
    destruct (Hnil Hd) as [Hq Ht].
    destruct Hses as [(_ & _ & ->)|(Hd' & Hq' & Ht' & Hm')].
    + by apply sort_setup_tidy.
    + apply (tidy_ext (anim u)); try done. right. rewrite Hmode.
      apply idle_modes. by right; right.
  - by injection Hk as <-.
  - injection Hk as <-.
    destruct (handle_key_sorted_tidy (sorted_key k) (anim u) Htidy)
      as [Ht Ha].
    split_and!; [|done|simpl; by rewrite Ha].
    apply (config_ok_ext u); try done. simpl. by rewrite Ha.
Qed.

Lemma handle_mouse_pressed_steady h u u' :
  steady R u → handle_mouse_pressed shuffle h u = ok u' → steady R u'.
Proof.
  intros (Hok & Htidy & Hreg) Hk. unfold handle_mouse_pressed in Hk.
  destruct (mode (anim u)) eqn:Hmode; try (by injection Hk as <-).
  - injection Hk as <-. split_and!; [done| |done].
    apply (tidy_ext (anim u)); try done. right. rewrite Hmode.
    apply idle_modes. by left.
  - destruct h; injection Hk as <-; try done;
      (split_and!; [done| |done]);
      (apply (tidy_ext (anim u)); try done; right; rewrite Hmode;
       apply idle_modes; by right; left).
  - destruct Hok as (Hf & He & Hq).
    destruct Htidy as [Hidle Hnil].
    assert (sort_data (anim u) = []) as Hd
      by (apply Hidle; rewrite Hmode; apply idle_modes; by right; right).
    destruct (Hnil Hd) as [Hqu Hth].
    destruct (update_n u) as [u1| | | |] eqn:Eu; try done.
    apply update_n_kept in Eu as (n & -> & Hn); [|apply Hq].
    cbn [mbind result_bind] in Hk.
    assert (∀ m, tidy (set_mode m (set_n n (anim u)))) as Htidy1.
    { intros m. by split. }
    unfold steady, config_ok, algos_size, n_size, set_ui_mode in *.
    destruct h.
    + injection Hk as <-. simpl.
      split_and!; auto; try lia; try (by split).
    + injection Hk as <-. simpl.
      split_and!; auto; try lia; try (by split).
    + destruct (_ && _) eqn:E; injection Hk as <-.
      * apply andb_true_iff in E as [E1 E2].
        apply Nat.leb_le in E1. apply Nat.ltb_lt in E2.
        simpl in E2 |- *.
        rewrite length_toggle, toggle_registered.
        split_and!; auto; try lia; try (by split).
      * simpl. split_and!; auto; try lia; try (by split).
    + injection Hk as <-. simpl. rewrite sort_setup_algos. simpl.
      split_and!; auto; try lia. by apply sort_setup_tidy.
    + injection Hk as <-. simpl.
      split_and!; auto; try lia; try (by split).
Qed.

Lemma handle_steady ev u u' :
  steady R u → handle shuffle ev u = ok u' → steady R u'.
Proof.
  intros Hu He. destruct ev; simpl in He;
    try (by injection He as <-).
  - by apply (handle_key_steady k u).
  - by apply (handle_mouse_pressed_steady h u).
Qed.

Lemma handle_all_steady evs : ∀ u u',
  steady R u → handle_all shuffle evs u = ok u' → steady R u'.
Proof.
  induction evs as [|ev evs IH]; intros u u' Hu He; simpl in He.
  { by injection He as <-. }
  destruct (handle shuffle ev u) as [u1| | | |] eqn:E1; try done.
  apply (IH u1); [|done]. by apply (handle_steady ev u).
Qed.
End handlers.

Lemma draw_steady R u u' : steady R u → draw u = ok u' → steady R u'.
Proof.
  intros (Hok & Htidy & Hreg) Hd. unfold draw in Hd.
  destruct (mode (anim u)); try (by injection Hd as <-).
  destruct (sort_launch (anim u)) as [st|] eqn:E; [|done].
  injection Hd as <-.
  destruct (sort_launch_tidy _ _ Htidy E) as [Ht Ha].
  split_and!; [|done|simpl; by rewrite Ha].
  apply (config_ok_ext u); try done. simpl. by rewrite Ha.
Qed.

Lemma loop_steady R turns : ∀ u u',
  steady R u → loop turns u = ok u' → steady R u'.
Proof.
  induction turns as [|[shuffle evs] turns IH]; intros u u' Hu Hl;
    simpl in Hl.
  { by injection Hl as <-. }
  destruct (window_open u); [|by injection Hl as <-].
  unfold turn in Hl. simpl in Hl.
  destruct (handle_all shuffle evs u) as [u1| | | |] eqn:E1; try done.
  simpl in Hl. destruct (draw u1) as [u2| | | |] eqn:E2; try done.
  apply (IH u2); [|done].
  apply (draw_steady R u1); [|done].
  by apply (handle_all_steady R shuffle evs u).
Qed.

Lemma press_steady R shuffle ks : ∀ u u',
  steady R u → press shuffle ks u = ok u' → steady R u'.
Proof.
  induction ks as [|k ks IH]; intros u u' Hu Hp; simpl in Hp.
  { by injection Hp as <-. }
  destruct (handle_key shuffle k u) as [u1| | | |] eqn:E1; try done.
  apply (IH u1); [|done]. by apply (handle_key_steady R shuffle k u).
Qed.

Lemma main_ui_steady rnd lib_sort field entry :
  steady (registered (registry rnd lib_sort))
    (main_ui rnd lib_sort field entry).
Proof.
  split_and!; [|by split|done].
  unfold config_ok. split_and!; try done.
  split; [done|]. repeat constructor; by eexists.
Qed.

(** The state after keys typed into the animator of [main.cpp]. *)
Lemma keyed_ok ks :
  press id ks (main_ui some_rnd ref_sort 0 0) = ok (keyed ks) →
  config_ok (keyed ks).
Proof.
  intros Hp.
  by destruct (press_steady _ id ks _ _
                 (main_ui_steady some_rnd ref_sort 0 0) Hp).
Qed.

(** X20.  Whatever the events, whenever the loop of [main] is still running
    the configuration screen is well formed, the nine procedures of
    [main.cpp] are registered under their names, and outside of a run
    there is no dataset, no queued index and no thread handle: every
    [sort_setup] starts from an empty session. *)
Theorem event_loop_keeps rnd lib_sort field entry turns u :
  loop turns (main_ui rnd lib_sort field entry) = ok u →
  config_ok u
  ∧ registered (sort_algos (anim u)) = registered (registry rnd lib_sort)
  ∧ (mode (anim u) ∈ [START; HELP; CONFIG] → no_session (anim u)).
Proof.
  intros Hl.
  destruct (loop_steady _ turns _ _
              (main_ui_steady rnd lib_sort field entry) Hl)
    as (Hok & [Hidle Hnil] & Hreg).
  split_and!; [done..|].
  intros Hm. specialize (Hidle Hm). destruct (Hnil Hidle). by split_and!.
Qed.
End event_loop.


(** * A run, from the queue to the sorted datasets *)

Section session_runs.
Import Animator.
Implicit Types st : state.

Lemma enqueue_selected_valid (P : nat → Prop) algos : ∀ i queue ths,
  Forall P queue →
  (∀ j a, algos !! j = Some a → selected a = true → P (i + j)) →
  Forall P (enqueue_selected algos i queue ths).1.
Proof.
  induction algos as [|a algos IH]; intros i queue ths Hq HP; simpl;
    [done|].
  destruct (selected a) eqn:Ha.
  - apply IH.
    + apply Forall_app. split; [done|]. apply Forall_singleton.
      specialize (HP 0 a eq_refl Ha). by rewrite Nat.add_0_r in HP.
    + intros j b Hb Hsel. replace (S i + j) with (i + S j) by lia.
      by apply (HP (S j) b).
  - apply IH; [done|].
    intros j b Hb Hsel. replace (S i + j) with (i + S j) by lia.
    by apply (HP (S j) b).
Qed.

Lemma sort_setup_queue shuffle st :
  sort_queue (sort_setup shuffle st)
  = (enqueue_selected (sort_algos st) 0 (sort_queue st) (sort_threads st)).1.
Proof.
  unfold sort_setup. destruct (enqueue_selected _ _ _ _) as [queue threads].
  by destruct (length queue =? 0).
Qed.

(** Every queued index is that of a selected algorithm. *)
Lemma sort_setup_queued shuffle st i :
  sort_queue st = [] → i < length (sort_queue (sort_setup shuffle st)) →
  ∃ a, sort_algos st !! (sort_queue (sort_setup shuffle st) !!! i) = Some a
       ∧ selected a = true.
Proof.
  intros Hq Hi. rewrite sort_setup_queue, Hq in *.
  assert (Forall
            (λ j, ∃ a, sort_algos st !! j = Some a ∧ selected a = true)
            (enqueue_selected (sort_algos st) 0 [] (sort_threads st)).1)
    as Hall.
  { apply enqueue_selected_valid; [constructor|].
    intros j a ? ?. by exists a. }
  rewrite Forall_lookup in Hall. apply (Hall i).
  by apply list_lookup_lookup_total_lt.
Qed.

Lemma run_threads_returns n : ∀ i st,
  (∀ j v, i ≤ j < i + n →
     is_Some (sort (sort_algos st !!! (sort_queue st !!! j)) sort_cmp v)) →
  is_Some (run_threads n i st).
Proof.
  induction n as [|n IH]; intros i st Hs; simpl; [by eexists|].
  destruct (Hs i (sort_data st !!! i) ltac:(lia)) as [[v' c] ->]. simpl.
  apply IH. intros j v Hj. simpl. apply Hs. lia.
Qed.

Lemma run_threads_mode m n : ∀ i st,
  run_threads n i (set_mode m st) = set_mode m <$> run_threads n i st.
Proof.
  induction n as [|n IH]; intros i st; simpl; [done|].
  destruct (sort _ _ _) as [[v' c]|]; simpl; [|done].
  by rewrite <-IH.
Qed.

Lemma sort_launch_mode m st : sort_launch (set_mode m st) = sort_launch st.
Proof.
  unfold sort_launch. simpl. rewrite run_threads_mode.
  by destruct (run_threads _ 0 st).
Qed.

Lemma one_to_sorted s n : StronglySorted Z.le (Z.of_nat <$> seq s n).
Proof.
  revert s. induction n as [|n IH]; intros s; simpl; constructor; [done|].
  apply Forall_forall. intros z Hz.
  apply list_elem_of_fmap in Hz as (m & -> & Hm).
  apply elem_of_seq in Hm. lia.
Qed.

(** The rows of a session are sorted by their threads, each into
    [1 .. sort_n]; the base is left as it was. *)
Lemma sort_launch_ready k st :
  session k st →
  (∀ i v, i < k →
     sorts value v (sort (sort_algos st !!! (sort_queue st !!! i))
                      sort_cmp v)) →
  (∀ r, r ≤ k →
     values (sort_data st !!! r) ≡ₚ Z.of_nat <$> seq 1 (sort_n st)) →
  ∃ st1,
    sort_launch st = Some st1
    ∧ mode st1 = SORTED
    ∧ sort_queue st1 = sort_queue st
    ∧ sort_algos st1 = sort_algos st
    ∧ sort_n st1 = sort_n st
    ∧ session k st1
    ∧ (∀ i, i < k →
         values (sort_data st1 !!! i) = Z.of_nat <$> seq 1 (sort_n st))
    ∧ base st1 = base st.
Proof.
  intros (Hq & Hlen & Hrows) Hsorts Hvals. unfold sort_launch. rewrite Hq.
  destruct (run_threads_returns k 0 st) as [st2 Hrun].
  { intros j v Hj. destruct (Hsorts j v ltac:(lia)) as (v' & c & -> & _).
    by eexists. }
  rewrite Hrun. simpl.
  apply run_threads_spec in Hrun
    as (Hq2 & Ha2 & Hn2 & Hlen2 & Hframe & Hown).
  eexists. split; [reflexivity|].
  unfold base, session. simpl. rewrite draw_rows_end, Hq2, Hq, Hn2.
  assert (∀ i, i < k →
            values (sort_data st2 !!! i) = Z.of_nat <$> seq 1 (sort_n st)
            ∧ length (sort_data st2 !!! i) = sort_n st) as Hdone.
  { intros i Hi. destruct (Hown i ltac:(lia) ltac:(lia)) as [c Hc].
    destruct (Hsorts i (sort_data st !!! i) Hi) as (v' & c' & E & P & Ho).
    rewrite Hc in E. injection E as <- <-. split.
    - apply sorted_keys_unique.
      + by apply ordered_Sorted.
      + apply one_to_sorted.
      + unfold values in *. by rewrite <-P, (Hvals i ltac:(lia)).
    - rewrite <-(Permutation_length P). apply Hrows. lia. }
  split_and!; try done.
  - lia.
  - intros r Hr. destruct (decide (r < k)) as [Hlt|Hge].
    + by apply Hdone.
    + assert (r = k) as -> by lia.
      rewrite (lookup_total_eq _ (sort_data st) k) by (apply Hframe; lia).
      by apply Hrows.
  - intros i Hi. by apply Hdone.
  - apply lookup_total_eq, Hframe. lia.
Qed.
End session_runs.

Section run_from_the_keyboard.
Import Animator Config.
Implicit Types st : state.
Implicit Types u : ui.

Lemma sort_setup_launch shuffle st :
  no_session st → (∀ l, shuffle l ≡ₚ l) →
  0 < selected_count (sort_algos st) →
  (∀ a v, a ∈ sort_algos st → selected a = true →
     sorts value v (sort a sort_cmp v)) →
  ∃ st1,
    sort_launch (sort_setup shuffle st) = Some st1
    ∧ mode st1 = SORTED
    ∧ sort_queue st1 = sort_queue (sort_setup shuffle st)
    ∧ sort_algos st1 = sort_algos st
    ∧ sort_n st1 = sort_n st
    ∧ session (selected_count (sort_algos st)) st1
    ∧ (∀ i, i < selected_count (sort_algos st) →
         values (sort_data st1 !!! i) = Z.of_nat <$> seq 1 (sort_n st))
    ∧ values (base st1) = values (shuffle (one_to (sort_n st))).
Proof.
  intros Hfresh Hshuffle Hk Hsorts.
  pose proof (sort_setup_session shuffle st Hfresh Hshuffle Hk) as Hses.
  destruct (sort_setup_fresh shuffle st Hfresh)
    as (idx & Hlen & Hq & Ht & Hn & Ha & Hd).
  { intros l. apply Permutation_length, Hshuffle. }
  set (k := selected_count (sort_algos st)) in *.
  assert (∀ r, r ≤ k →
            values (sort_data (sort_setup shuffle st) !!! r)
            = values (shuffle (one_to (sort_n st)))) as Hvals.
  { intros r Hr. rewrite Hd. destruct idx as [|i0 idx]; simpl in Hlen; [lia|].
    set (m := length (i0 :: idx)) in *.
    assert (k = m) as Hkm by (unfold m; simpl; lia). clearbody m.
    destruct r as [|r]; [done|]. simpl.
    rewrite lookup_total_replicate_2 by lia.
    apply values_recopy. }
  destruct (sort_launch_ready k (sort_setup shuffle st) Hses)
    as (st1 & Hl & Hm & Hq1 & Ha1 & Hn1 & Hses1 & Hrows & Hbase).
  - intros i v Hi. destruct Hfresh as (_ & Hq0 & _).
    destruct (sort_setup_queued shuffle st i Hq0) as (a & Hlook & Hsel).
    { rewrite Hq. lia. }
    rewrite Ha, (list_lookup_total_correct _ _ _ Hlook).
    apply Hsorts; [|done]. by apply list_elem_of_lookup_2 in Hlook.
  - intros r Hr. rewrite Hvals, Hn by done.
    rewrite <-values_one_to. unfold values. by rewrite Hshuffle.
  - exists st1. rewrite Hn, Ha in *. split_and!; try done.
    rewrite Hbase. unfold base. destruct Hses as (-> & _). by apply Hvals.
Qed.

(** X21.  Enter on "Continue" with at least one algorithm selected, then the
    next [draw]: when every selected procedure sorts, the animator ends
    in [SORTED] mode with one dataset per selected algorithm, each
    holding [1 .. sort_n] in ascending order, and the shuffled base
    behind them. *)
Theorem continue_sorts_every_row shuffle u :
  tidy (anim u) → mode (anim u) = CONFIG →
  config_field u = (algos_size u + 1)%Z →
  (∀ l, shuffle l ≡ₚ l) →
  0 < selected_count (sort_algos (anim u)) →
  (∀ a v, a ∈ sort_algos (anim u) → selected a = true →
     sorts value v (sort a sort_cmp v)) →
  ∃ u1 u2,
    handle shuffle (KeyPressed Enter) u = ok u1
    ∧ draw u1 = ok u2
    ∧ mode (anim u1) = SORTING
    ∧ mode (anim u2) = SORTED
    ∧ length (sort_queue (anim u2)) = selected_count (sort_algos (anim u))
    ∧ length (sort_data (anim u2))
      = selected_count (sort_algos (anim u)) + 1
    ∧ (∀ i, i < selected_count (sort_algos (anim u)) →
         values (sort_data (anim u2) !!! i)
         = Z.of_nat <$> seq 1 (sort_n (anim u)))
    ∧ values (base (anim u2))
      = values (shuffle (one_to (sort_n (anim u)))).
Proof.
  intros [Hidle Hnil] Hmode Hfield Hshuffle Hk Hsorts.
  assert (no_session (anim u)) as Hfresh.
  { assert (sort_data (anim u) = []) as Hd
      by (apply Hidle; rewrite Hmode; repeat constructor).
    destruct (Hnil Hd). by split_and!. }
  destruct (sort_setup_launch shuffle (anim u) Hfresh Hshuffle Hk Hsorts)
    as (st1 & Hl & Hm & Hq & Ha & Hn & (Hsq & Hsd & _) & Hrows & Hbase).
  exists (set_ui_mode SORTING (with_anim (sort_setup shuffle (anim u)) u)),
    (with_anim st1 (set_ui_mode SORTING
                      (with_anim (sort_setup shuffle (anim u)) u))).
  split_and!; try done.
  - simpl. unfold handle_key. rewrite Hmode. unfold handle_key_config.
    simpl num_value. cbv iota. rewrite Hfield.
    unfold algos_size.
    replace (_ + 1 =? 0)%Z with false by (symmetry; apply Z.eqb_neq; lia).
    by rewrite Z.ltb_irrefl.
  - unfold draw. simpl. by rewrite sort_launch_mode, Hl.
Qed.
(** X22.  The restart key in [SORTED] mode, then the next [draw]: every copy
    first takes the values of the base again, then its thread sorts it
    into [1 .. sort_n] once more; the base is the same before and
    after. *)
Theorem restart_sorts_again shuffle k u :
  mode (anim u) = SORTED → session k (anim u) →
  (∀ i v, i < k →
     sorts value v
       (sort (sort_algos (anim u) !!! (sort_queue (anim u) !!! i))
          sort_cmp v)) →
  values (base (anim u)) ≡ₚ Z.of_nat <$> seq 1 (sort_n (anim u)) →
  ∃ u1 u2,
    handle shuffle (KeyPressed R) u = ok u1
    ∧ draw u1 = ok u2
    ∧ mode (anim u1) = SORTING
    ∧ (∀ i, i < k →
         values (sort_data (anim u1) !!! i) = values (base (anim u)))
    ∧ mode (anim u2) = SORTED
    ∧ (∀ i, i < k →
         values (sort_data (anim u2) !!! i)
         = Z.of_nat <$> seq 1 (sort_n (anim u)))
    ∧ base (anim u2) = base (anim u).
Proof.
  intros Hmode (Hq & Hlen & Hrows) Hsorts Hbase.
  destruct (restart_rows_spec k (sort_n (anim u)) k 0 (sort_data (anim u)))
    as (Hlen' & Hvals & Hframe); [lia|lia|done|].
  set (st' := handle_key_sorted Animator.R (anim u)).
  assert (sort_data st' !!! k = sort_data (anim u) !!! k) as Hb.
  { unfold st'. simpl. rewrite Hq. apply lookup_total_eq, Hframe. lia. }
  assert (∀ i, i < k →
            values (sort_data st' !!! i) = values (base (anim u))) as Hv.
  { intros i Hi. unfold st', base. simpl. rewrite Hq. apply Hvals. lia. }
  assert (session k st') as Hses.
  { split_and!; [done|by unfold st'; simpl; rewrite Hq, Hlen'|].
    intros r Hr. destruct (decide (r < k)) as [Hlt|Hge].
    - specialize (Hv r Hlt). apply (f_equal length) in Hv.
      unfold values in Hv. rewrite !length_fmap in Hv. rewrite Hv.
      unfold base. rewrite Hq. by apply Hrows.
    - assert (r = k) as -> by lia. rewrite Hb. by apply Hrows. }
  unfold base in Hbase. rewrite Hq in Hbase.
  destruct (sort_launch_ready k st' Hses)
    as (st1 & Hl & Hm & Hq1 & Ha1 & Hn1 & Hses1 & Hrows1 & Hbase1).
  - intros i v Hi. by apply Hsorts.
  - intros r Hr. destruct (decide (r < k)) as [Hlt|Hge].
    + rewrite Hv by done. unfold base. by rewrite Hq.
    + assert (r = k) as -> by lia. by rewrite Hb.
  - exists (with_anim st' u), (with_anim st1 (with_anim st' u)).
    split_and!; try done.
    + simpl. unfold handle_key. by rewrite Hmode.
    + unfold draw. cbn [anim with_anim]. rewrite Hl. reflexivity.
    + cbn [anim with_anim]. rewrite Hbase1. unfold base.
      replace (length (sort_queue st')) with k by done.
      by rewrite Hb, Hq.
Qed.
End run_from_the_keyboard.


(** * Witnesses on the animator of [main.cpp] *)

Section keyboard_witnesses.
Import Animator Config.

(** Witness of [event_loop_keeps]: two turns of the loop. *)
Lemma event_loop_keeps_witness :
  config_ok (returned (loop demo_turns (main_ui some_rnd ref_sort 0 0)))
  ∧ registered
      (sort_algos
         (anim (returned (loop demo_turns (main_ui some_rnd ref_sort 0 0)))))
    = registered (registry some_rnd ref_sort)
  ∧ (mode (anim (returned (loop demo_turns (main_ui some_rnd ref_sort 0 0))))
     ∈ [START; HELP; CONFIG] →
     no_session
       (anim (returned (loop demo_turns (main_ui some_rnd ref_sort 0 0))))).
Proof.
  apply (event_loop_keeps some_rnd ref_sort 0 0 demo_turns).
  vm_compute. reflexivity.
Defined.

(** Witness of [update_n_normalises]: the quantity typed as "0100". *)
Lemma update_n_normalises_witness :
  config_n_string
    (returned (update_n (keyed [Enter; Enter; Left; Left; Left; Num0])))
  = to_string 100
  ∧ config_entry
      (returned (update_n (keyed [Enter; Enter; Left; Left; Left; Num0])))
    = 1%Z.
Proof.
  destruct (update_n_normalises
              (keyed [Enter; Enter; Left; Left; Left; Num0])
              (returned
                 (update_n (keyed [Enter; Enter; Left; Left; Left; Num0]))))
    as (_ & _ & Hs & _ & He & _).
  - apply (keyed_ok [Enter; Enter; Left; Left; Left; Num0]).
    vm_compute. reflexivity.
  - vm_compute. reflexivity.
  - split; [exact Hs|exact He].
Defined.

(** Witness of [config_key_keeps]: the digit 5 typed behind "100". *)
Lemma config_key_keeps_witness :
  config_ok (returned (handle_key_config id Num5 (keyed [Enter; Enter]))).
Proof.
  destruct (config_key_keeps id Num5 (keyed [Enter; Enter])
              (returned (handle_key_config id Num5 (keyed [Enter; Enter]))))
    as (Hok & _).
  - apply (keyed_ok [Enter; Enter]). vm_compute. reflexivity.
  - vm_compute. reflexivity.
  - exact Hok.
Defined.

(** Witness of [config_key_returns]: Backspace behind "100". *)
Lemma config_key_returns_witness :
  ∃ u', handle_key_config id Backspace (keyed [Enter; Enter]) = ok u'.
Proof.
  apply (config_key_returns id Backspace (keyed [Enter; Enter])).
  - apply (keyed_ok [Enter; Enter]). vm_compute. reflexivity.
  - vm_compute. discriminate.
  - vm_compute. discriminate.
Defined.

(** Witness of [erasure_strands_cursor]: "0100" with the cursor at its
    end, reached by typing a zero in front of "100". *)
Lemma erasure_strands_cursor_witness :
  ∃ u1,
    handle_key_config id Backspace
      (keyed [Enter; Enter; Left; Left; Left; Num0; Right; Right; Right])
    = ok u1
    ∧ config_ok u1
    ∧ (n_size u1 < config_entry u1)%Z
    ∧ ∀ k, is_Some (num_value k) ∨ k = Backspace →
        handle_key_config id k u1 = out_of_range.
Proof.
  apply (erasure_strands_cursor id
           (keyed [Enter; Enter; Left; Left; Left; Num0; Right; Right; Right])
           ["1"; "0"; "0"]%char).
  - apply (keyed_ok
             [Enter; Enter; Left; Left; Left; Num0; Right; Right; Right]).
    vm_compute. reflexivity.
  - reflexivity.
  - reflexivity.
  - reflexivity.
  - simpl. lia.
Defined.

(** Witness of [quantity_overflow_throws]: eight nines typed behind
    "100". *)
Lemma quantity_overflow_throws_witness :
  update_n
    (keyed [Enter; Enter; Num9; Num9; Num9; Num9; Num9; Num9; Num9; Num9])
  = out_of_range.
Proof.
  destruct (quantity_overflow_throws id
              (keyed [Enter; Enter; Num9; Num9; Num9; Num9; Num9; Num9;
                      Num9; Num9])) as (Hu & _).
  - apply (keyed_ok
             [Enter; Enter; Num9; Num9; Num9; Num9; Num9; Num9; Num9; Num9]).
    vm_compute. reflexivity.
  - vm_compute. reflexivity.
  - exact Hu.
Defined.
End keyboard_witnesses.

Section session_witnesses.
Import Animator Config.

Lemma demo_algos_sort a v :
  a ∈ sort_algos demo_state → selected a = true →
  sorts value v (sort a sort_cmp v).
Proof.
  intros Ha Hsel. unfold demo_state in Ha. simpl in Ha.
  repeat (apply elem_of_cons in Ha as [->|Ha]);
    try (by simpl in Hsel); try (by apply elem_of_nil in Ha).
  - exact (selection_sort_sorts value v).
  - exact (merge_sort_sorts value v).
Qed.

(** Witness of [continue_sorts_every_row]: the demo session, with
    [reverse] for the shuffle. *)
Lemma continue_sorts_every_row_witness :
  ∃ u1 u2,
    handle reverse (KeyPressed Enter) demo_ui = ok u1
    ∧ draw u1 = ok u2
    ∧ mode (anim u2) = SORTED
    ∧ values (sort_data (anim u2) !!! 1) = Z.of_nat <$> seq 1 3.
Proof.
  destruct (continue_sorts_every_row reverse demo_ui)
    as (u1 & u2 & H1 & H2 & _ & Hm & _ & _ & Hrows & _).
  - by split.
  - reflexivity.
  - reflexivity.
  - intros l. apply reverse_Permutation.
  - vm_compute. lia.
  - intros a v. apply demo_algos_sort.
  - exists u1, u2. split_and!; [exact H1|exact H2|exact Hm|].
    apply (Hrows 1). vm_compute. lia.
Defined.

(** Witness of [restart_sorts_again]: the demo session after its run. *)
Lemma restart_sorts_again_witness :
  ∃ u1 u2,
    handle reverse (KeyPressed Config.R) sorted_ui = ok u1
    ∧ draw u1 = ok u2
    ∧ values (sort_data (anim u1) !!! 0) = values (base (anim sorted_ui))
    ∧ values (sort_data (anim u2) !!! 0) = Z.of_nat <$> seq 1 3
    ∧ base (anim u2) = base (anim sorted_ui).
Proof.
  destruct (restart_sorts_again reverse 2 sorted_ui)
    as (u1 & u2 & H1 & H2 & _ & Hv1 & _ & Hv2 & Hb).
  - reflexivity.
  - split_and!; [reflexivity..|].
    intros r Hr. destruct r as [|[|[|r]]]; [reflexivity..|lia].
  - intros i v Hi. destruct i as [|[|i]]; [| |lia].
    + exact (selection_sort_sorts value v).
    + exact (merge_sort_sorts value v).
  - vm_compute. apply (reverse_Permutation [1; 2; 3]%Z).
  - exists u1, u2. split_and!; [exact H1|exact H2| | |exact Hb].
    + apply (Hv1 0). lia.
    + apply (Hv2 0). lia.
Defined.
End session_witnesses.

(** * Drawing writes timers only *)

Section drawing.
Import Animator.
Implicit Types st : state.
Implicit Types data : list (list SortingDatum).
Implicit Types row : list SortingDatum.

(** What a bar drawn does to its datum, timer by timer. *)
Lemma draw_datum_cases end_ d :
  value (draw_datum end_ d) = value d
  ∧ (end_ = true ∨ timer d = 0%Z → draw_datum end_ d = d)
  ∧ (end_ = false → timer d ≠ 0%Z → (- 2 ^ 31 < timer d < 2 ^ 31)%Z →
     timer (draw_datum end_ d) = (timer d - 1)%Z).
Proof.
  unfold draw_datum. split_and!.
  - by destruct (end_ || (timer d =? 0)%Z).
  - intros [-> | ->]; [done|]. by rewrite orb_true_r.
  - intros -> Ht Hrange. simpl.
    replace (timer d =? 0)%Z with false by (symmetry; by apply Z.eqb_neq).
    simpl. unfold int_wrap.
    change (2 ^ 31)%Z with 2147483648%Z in *.
    change (2 ^ 32)%Z with 4294967296%Z.
    rewrite Z.mod_small by lia. lia.
Qed.

Lemma values_draw end_ row : values (draw_datum end_ <$> row) = values row.
Proof.
  unfold values. rewrite <-list_fmap_compose. apply list_fmap_ext.
  intros _ d _. simpl. by destruct (draw_datum_cases end_ d) as (-> & _).
Qed.

(** The loop over one dataset draws each of its bars from [j] on. *)
Lemma draw_row_spec end_ i n : ∀ j data row,
  data !! i = Some row → j + n = length row →
  draw_row n j i end_ data
  = <[i := take j row ++ (draw_datum end_ <$> drop j row)]> data.
Proof.
  induction n as [|n IH]; intros j data row Hrow Hj; simpl.
  { rewrite drop_ge, take_ge by lia. simpl. rewrite app_nil_r.
    by rewrite list_insert_id. }
  rewrite (list_lookup_total_correct _ _ _ Hrow).
  pose proof (lookup_lt_Some _ _ _ Hrow) as Hi.
  destruct (lookup_lt_is_Some_2 row j ltac:(lia)) as [d Hd].
  rewrite (list_lookup_total_correct _ _ _ Hd).
  rewrite (IH (S j) _ (<[j := draw_datum end_ d]> row)).
  - rewrite list_insert_insert_eq. f_equal.
    rewrite (take_S_r _ j (draw_datum end_ d))
      by (apply list_lookup_insert_eq; lia).
    rewrite take_insert_ge, drop_insert_lt by lia.
    rewrite (drop_S row d j) by done. simpl. by rewrite <-app_assoc.
  - by apply list_lookup_insert_eq.
  - rewrite length_insert. lia.
Qed.

(** The loop over the threads draws the datasets [i .. i + m) in
    full. *)
Lemma draw_rows_spec end_ n m : ∀ i data,
  i + m ≤ length data →
  (∀ r, i ≤ r < i + m → length (data !!! r) = n) →
  draw_rows m i n end_ data
  = take i data
    ++ (fmap (M := list) (draw_datum end_) <$> take m (drop i data))
    ++ drop (i + m) data.
Proof.
  induction m as [|m IH]; intros i data Hlen Hrows; simpl.
  { by rewrite Nat.add_0_r, take_drop. }
  destruct (lookup_lt_is_Some_2 data i ltac:(lia)) as [row Hrow].
  pose proof (Hrows i ltac:(lia)) as Hn.
  rewrite (list_lookup_total_correct _ _ _ Hrow) in Hn.
  rewrite (draw_row_spec end_ i n 0 data row) by done.
  rewrite take_0, drop_0. cbn [app].
  rewrite IH.
  - rewrite (take_S_r _ i (draw_datum end_ <$> row))
      by (apply list_lookup_insert_eq; lia).
    rewrite take_insert_ge, !drop_insert_lt by lia.
    rewrite (drop_S data row i) by done. cbn [take fmap list_fmap].
    replace (i + S m) with (S i + m) by lia.
    by rewrite <-app_assoc.
  - rewrite length_insert. lia.
  - intros r Hr. rewrite list_lookup_total_insert_ne by lia.
    apply Hrows. lia.
Qed.

(** X14.  In a session of [k] algorithms [sort_draw_data], final or not,
    draws every datum of the [k] copies exactly once and nothing else:
    a value is never changed; a timer is kept when the draw is final or
    the timer is 0 and is otherwise stepped down by one (as an [int]);
    the base behind the copies is not touched. *)
Theorem drawing_keeps_values end_ k st :
  session k st → length (sort_threads st) = k →
  sort_data (sort_draw_data end_ st)
  = (fmap (M := list) (draw_datum end_) <$> copies st) ++ [base st]
  ∧ values <$> sort_data (sort_draw_data end_ st)
    = values <$> sort_data st
  ∧ base (sort_draw_data end_ st) = base st
  ∧ session k (sort_draw_data end_ st)
  ∧ ∀ i j, i < k → j < sort_n st →
      value ((sort_data (sort_draw_data end_ st) !!! i) !!! j)
      = value ((sort_data st !!! i) !!! j)
      ∧ (end_ = true ∨ timer ((sort_data st !!! i) !!! j) = 0%Z →
         (sort_data (sort_draw_data end_ st) !!! i) !!! j
         = (sort_data st !!! i) !!! j)
      ∧ (end_ = false → timer ((sort_data st !!! i) !!! j) ≠ 0%Z →
         (- 2 ^ 31 < timer ((sort_data st !!! i) !!! j) < 2 ^ 31)%Z →
         timer ((sort_data (sort_draw_data end_ st) !!! i) !!! j)
         = (timer ((sort_data st !!! i) !!! j) - 1)%Z).
Proof.
  intros (Hq & Hlen & Hrows) Ht.
  assert (sort_data st = copies st ++ [base st]) as Hsplit.
  { unfold copies, base. rewrite Hq.
    rewrite <-(take_drop k (sort_data st)) at 1. f_equal.
    destruct (lookup_lt_is_Some_2 (sort_data st) k ltac:(lia)) as [b Hb].
    rewrite (drop_S _ b k) by done.
    rewrite (list_lookup_total_correct _ _ _ Hb).
    by rewrite drop_ge by lia. }
  assert (length (copies st) = k) as Hcopies.
  { unfold copies. rewrite length_take. lia. }
  assert (sort_data (sort_draw_data end_ st)
          = (fmap (M := list) (draw_datum end_) <$> copies st) ++ [base st]) as Hdraw.
  { unfold sort_draw_data. simpl. rewrite Ht.
    rewrite draw_rows_spec by (lia || (intros r Hr; apply Hrows; lia)).
    rewrite take_0, drop_0. cbn [app Nat.add].
    unfold copies. rewrite Hq. f_equal.
    rewrite Hsplit at 1. rewrite drop_app_length'; done. }
  assert (∀ i, i < k →
            sort_data (sort_draw_data end_ st) !!! i
            = draw_datum end_ <$> (sort_data st !!! i)) as Hrow.
  { intros i Hi. rewrite Hdraw, Hsplit.
    rewrite !lookup_total_app_l by (rewrite ?length_fmap; lia).
    by rewrite (list_lookup_total_fmap (fmap (draw_datum end_)) (copies st) i)
      by lia. }
  split_and!.
  - done.
  - rewrite Hdraw, Hsplit, !fmap_app. f_equal.
    rewrite <-list_fmap_compose. apply list_fmap_ext.
    intros _ row _. apply values_draw.
  - unfold base at 1. simpl sort_queue. rewrite Hq, Hdraw.
    rewrite lookup_total_app_r by (rewrite length_fmap; lia).
    rewrite length_fmap, Hcopies. by rewrite Nat.sub_diag.
  - split_and!; [done|rewrite Hdraw, length_app, length_fmap; simpl; lia|].
    intros r Hr. simpl sort_n. destruct (decide (r < k)) as [Hlt|Hge].
    + rewrite Hrow, length_fmap by done. by apply Hrows.
    + assert (r = k) as -> by lia.
      rewrite Hdraw, lookup_total_app_r by (rewrite length_fmap; lia).
      rewrite length_fmap, Hcopies, Nat.sub_diag. simpl.
      unfold base. rewrite Hq. by apply Hrows.
  - intros i j Hi Hj. rewrite Hrow by done.
    rewrite (list_lookup_total_fmap (draw_datum end_) (sort_data st !!! i) j)
      by (rewrite Hrows; lia).
    apply draw_datum_cases.
Qed.
End drawing.

(** Witness of [drawing_keeps_values]: a draw of the demo session with
    every bar lit.  The timers of the two copies step down, those of the
    base stay. *)
Lemma drawing_keeps_values_witness :
  Animator.timer
    <$> Animator.sort_data (Animator.sort_draw_data false lit_session) !!! 0
  = [0; 1; 2]%Z
  ∧ Animator.timer
      <$> Animator.sort_data (Animator.sort_draw_data false lit_session) !!! 1
    = [0; 1; 2]%Z
  ∧ Animator.timer <$> base (Animator.sort_draw_data false lit_session)
    = [3; 2; 1]%Z
  ∧ values <$> Animator.sort_data (Animator.sort_draw_data false lit_session)
    = values <$> Animator.sort_data lit_session.
Proof.
  destruct (drawing_keeps_values false 2 lit_session)
    as (Hd & Hv & Hb & _).
  - split_and!; [reflexivity..|].
    intros r Hr. destruct r as [|[|[|r]]]; [reflexivity..|lia].
  - reflexivity.
  - rewrite Hb, Hd. split_and!; [reflexivity..|exact Hv].
Defined.

(** * Ties under bubble sort *)

Section bubble_ties.
Context {T : Type} `{!Inhabited T} (cmp : T → T → bool).
Implicit Types s t l v : list T.

Lemma bubble_list_accepting l : ∀ x,
  (∀ y, y ∈ l → cmp y x = true) → bubble_list cmp x l = l ++ [x].
Proof.
  induction l as [|y l IH]; intros x Hx; simpl; [done|].
  rewrite (Hx y) by left. rewrite IH; [done|].
  intros z Hz. apply Hx. by right.
Qed.

Lemma bubble_outer_accepting n : ∀ s t c i,
  length s = n → i = length t →
  (∀ x y, x ∈ s → y ∈ s → cmp x y = true) →
  (bubble_outer cmp n i (s ++ t) c).1 = reverse s ++ t.
Proof.
  induction n as [|n IH]; intros s t c i Hs Hi Hall; simpl.
  { by destruct s. }
  destruct s as [|x l]; simpl in Hs; [done|].
  replace (length ((x :: l) ++ t) - i - 1) with (length l)
    by (rewrite length_app; simpl; lia).
  pose proof (bubble_inner_spec cmp l [] x t c 0 eq_refl) as Hpass.
  change ([] ++ x :: l ++ t) with ((x :: l) ++ t) in Hpass.
  rewrite Hpass. clear Hpass. cbn [app].
  rewrite bubble_list_accepting
    by (intros y Hy; apply Hall; [by right|by left]).
  rewrite <-app_assoc. cbn [app].
  rewrite (IH l (x :: t)); [|lia|simpl; lia|].
  - by rewrite reverse_cons, <-app_assoc.
  - intros y z Hy Hz. apply Hall; by right.
Qed.

(** X13.  Where the comparator accepts every pair of the vector, as
    [x.value <= y.value] does on equal values, [bubble_sort] returns the
    vector reversed: unlike [insertion_sort] and [merge_sort] it is not
    stable. *)
Theorem bubble_sort_reverses_ties v :
  (∀ x y, x ∈ v → y ∈ v → cmp x y = true) →
  (bubble_sort cmp v).1 = reverse v.
Proof.
  intros Hall. unfold bubble_sort.
  destruct (Nat.leb_spec (length v) 1) as [Hv|Hv].
  { by destruct v as [|x [|y v]]; simpl in *; try lia. }
  pose proof (bubble_outer_accepting (length v) v [] 0 0 eq_refl eq_refl Hall)
    as H.
  by rewrite !app_nil_r in H.
Qed.
End bubble_ties.

(** Witness of [bubble_sort_reverses_ties]: three tagged elements of
    key 5. *)
Lemma bubble_sort_reverses_ties_witness :
  (bubble_sort (le_cmp fst) [(5, "a"); (5, "b"); (5, "c")]%Z).1
  = [(5, "c"); (5, "b"); (5, "a")]%Z.
Proof.
  apply (bubble_sort_reverses_ties (le_cmp fst)
           [(5, "a"); (5, "b"); (5, "c")]%Z).
  intros x y Hx Hy.
  repeat (apply elem_of_cons in Hx as [->|Hx]);
    try (by apply elem_of_nil in Hx);
    repeat (apply elem_of_cons in Hy as [->|Hy]);
    try (by apply elem_of_nil in Hy); reflexivity.
Defined.
